(** * Conformance checking engine of the SAP workflow mining pattern engine

    A shallow embedding of [conformance/models.py], [conformance/deviations.py]
    and [conformance/checker.py], with the properties of the process model,
    of the deviation detector and of the conformance checker.

    Conventions of the embedding:
    - a Python [dict] whose iteration order is observed is an insertion-ordered
      association list ([dict K V]); a [dict] that is only looked up is a
      [gmap]; a [set] is a [gset], and every loop over a set goes through
      [set_iter], an arbitrary enumeration of the set's elements;
    - a method that mutates [self] and may raise runs in the monad [M]: it
      returns the outcome together with the state the object is left in;
    - a Python [float] is the rational number it denotes ([Q]); a float
      literal and every arithmetic operation on floats round to the nearest
      binary64 number ([fl]).  Infinities and NaN are not modelled. *)

From Stdlib Require Import QArith Qround Qminmax Lqa Qpower Qabs.
From Stdlib Require OrderedTypeEx.
From stdpp Require Import gmap strings list fin_maps pretty sorting.

(** ** Python values shared by the three modules *)

Inductive exn :=
  | ValueError (msg : string)
  | KeyError (key : string)
  | TypeError.  (* the message is not modelled *)

Inductive result (A : Type) :=
  | Ok (a : A)
  | Raise (e : exn).
Arguments Ok {A} a.
Arguments Raise {A} e.

Definition raises {A} (r : result A) : Prop :=
  match r with Raise _ => True | Ok _ => False end.

(** State and exception monad: the object after the call is always returned,
    also when the call raised. *)
Definition M (S A : Type) : Type := S → result A * S.

Global Instance M_ret {S} : MRet (M S) := λ A a s, (Ok a, s).
Global Instance M_bind {S} : MBind (M S) := λ A B k c s,
  match c s with
  | (Ok a, s') => k a s'
  | (Raise e, s') => (Raise e, s')
  end.
Definition raise {S A} (e : exn) : M S A := λ s, (Raise e, s).
Definition get_self {S} : M S S := λ s, (Ok s, s).
Definition modify {S} (f : S → S) : M S unit := λ s, (Ok tt, f s).
Definition when {S} (b : bool) (c : M S unit) : M S unit :=
  if b then c else mret tt.

(** Insertion-ordered dictionaries (Python 3.7+ [dict]): assigning to a key
    that is present keeps its position, a new key goes last. *)
Section Dict.
Context {K V : Type} `{EqDecision K}.

Definition dict := list (K * V).

Fixpoint dict_get (k : K) (d : dict) : option V :=
  match d with
  | [] => None
  | (k', v) :: d' => if decide (k = k') then Some v else dict_get k d'
  end.

Fixpoint dict_set (k : K) (v : V) (d : dict) : dict :=
  match d with
  | [] => [(k, v)]
  | (k', v') :: d' =>
      if decide (k = k') then (k', v) :: d' else (k', v') :: dict_set k v d'
  end.

Definition dict_mem (k : K) (d : dict) : bool :=
  bool_decide (is_Some (dict_get k d)).

Definition dict_keys (d : dict) : list K := d.*1.
Definition dict_values (d : dict) : list V := d.*2.
End Dict.
Arguments dict : clear implicits.

(** ** models.py *)

Inductive ActivityType := START | END | INTERMEDIATE | MILESTONE | OPTIONAL.

Global Instance ActivityType_eq_dec : EqDecision ActivityType.
Proof. solve_decision. Defined.

Record Activity := {
  name : string;
  display_name : string;
  activity_type : ActivityType;
  sap_event_types : gset string;
  description : string;
}.

(** [Activity.matches_event] *)
Definition matches_event (self : Activity) (event_type : string) : bool :=
  if bool_decide (sap_event_types self = ∅)
  then bool_decide (event_type = name self)
  else bool_decide (event_type ∈ sap_event_types self).

Record Transition := {
  source : Activity;
  target : Activity;
  is_mandatory_transition : bool;
  condition : string;
}.

Record ProcessModel := {
  pm_name : string;
  pm_display_name : string;
  pm_description : string;
  version : string;
  _activities : dict string Activity;
  _transitions : list Transition;
  _start_activities : gset string;
  _end_activities : gset string;
  _mandatory_activities : gset string;
  _outgoing : gmap string (gset string);
  _incoming : gmap string (gset string);
}.

(** [ProcessModel.__init__] *)
Definition ProcessModel_init (n dn descr ver : string) : ProcessModel := {|
  pm_name := n;
  pm_display_name := dn;
  pm_description := descr;
  version := ver;
  _activities := [];
  _transitions := [];
  _start_activities := ∅;
  _end_activities := ∅;
  _mandatory_activities := ∅;
  _outgoing := ∅;
  _incoming := ∅;
|}.

(** Field updates ([self._x = ...], [self._x.add(...)], [self._x.append(...)]). *)
Definition with_activities (f : dict string Activity → dict string Activity)
    (m : ProcessModel) : ProcessModel :=
  {| pm_name := pm_name m; pm_display_name := pm_display_name m;
     pm_description := pm_description m; version := version m;
     _activities := f (_activities m); _transitions := _transitions m;
     _start_activities := _start_activities m;
     _end_activities := _end_activities m;
     _mandatory_activities := _mandatory_activities m;
     _outgoing := _outgoing m; _incoming := _incoming m |}.

Definition with_transitions (f : list Transition → list Transition)
    (m : ProcessModel) : ProcessModel :=
  {| pm_name := pm_name m; pm_display_name := pm_display_name m;
     pm_description := pm_description m; version := version m;
     _activities := _activities m; _transitions := f (_transitions m);
     _start_activities := _start_activities m;
     _end_activities := _end_activities m;
     _mandatory_activities := _mandatory_activities m;
     _outgoing := _outgoing m; _incoming := _incoming m |}.

Definition with_start_activities (f : gset string → gset string)
    (m : ProcessModel) : ProcessModel :=
  {| pm_name := pm_name m; pm_display_name := pm_display_name m;
     pm_description := pm_description m; version := version m;
     _activities := _activities m; _transitions := _transitions m;
     _start_activities := f (_start_activities m);
     _end_activities := _end_activities m;
     _mandatory_activities := _mandatory_activities m;
     _outgoing := _outgoing m; _incoming := _incoming m |}.

Definition with_end_activities (f : gset string → gset string)
    (m : ProcessModel) : ProcessModel :=
  {| pm_name := pm_name m; pm_display_name := pm_display_name m;
     pm_description := pm_description m; version := version m;
     _activities := _activities m; _transitions := _transitions m;
     _start_activities := _start_activities m;
     _end_activities := f (_end_activities m);
     _mandatory_activities := _mandatory_activities m;
     _outgoing := _outgoing m; _incoming := _incoming m |}.

Definition with_mandatory_activities (f : gset string → gset string)
    (m : ProcessModel) : ProcessModel :=
  {| pm_name := pm_name m; pm_display_name := pm_display_name m;
     pm_description := pm_description m; version := version m;
     _activities := _activities m; _transitions := _transitions m;
     _start_activities := _start_activities m;
     _end_activities := _end_activities m;
     _mandatory_activities := f (_mandatory_activities m);
     _outgoing := _outgoing m; _incoming := _incoming m |}.

Definition with_outgoing
    (f : gmap string (gset string) → gmap string (gset string))
    (m : ProcessModel) : ProcessModel :=
  {| pm_name := pm_name m; pm_display_name := pm_display_name m;
     pm_description := pm_description m; version := version m;
     _activities := _activities m; _transitions := _transitions m;
     _start_activities := _start_activities m;
     _end_activities := _end_activities m;
     _mandatory_activities := _mandatory_activities m;
     _outgoing := f (_outgoing m); _incoming := _incoming m |}.

Definition with_incoming
    (f : gmap string (gset string) → gmap string (gset string))
    (m : ProcessModel) : ProcessModel :=
  {| pm_name := pm_name m; pm_display_name := pm_display_name m;
     pm_description := pm_description m; version := version m;
     _activities := _activities m; _transitions := _transitions m;
     _start_activities := _start_activities m;
     _end_activities := _end_activities m;
     _mandatory_activities := _mandatory_activities m;
     _outgoing := _outgoing m; _incoming := f (_incoming m) |}.

(** [if key not in d: d[key] = set()] *)
Definition setdefault_empty (key : string) (d : gmap string (gset string))
    : gmap string (gset string) :=
  match d !! key with
  | Some _ => d
  | None => <[key := ∅]> d
  end.

(** [ProcessModel.add_activity]: no statement of it can raise. *)
Definition add_activity (activity : Activity) (self : ProcessModel)
    : ProcessModel :=
  let self := with_activities (dict_set (name activity) activity) self in
  let self := with_outgoing (setdefault_empty (name activity)) self in
  let self := with_incoming (setdefault_empty (name activity)) self in
  let self :=
    if decide (activity_type activity = START)
    then with_start_activities (λ s, s ∪ {[name activity]}) self
    else if decide (activity_type activity = END)
    then with_end_activities (λ s, s ∪ {[name activity]}) self
    else self in
  if decide (activity_type activity ≠ OPTIONAL)
  then with_mandatory_activities (λ s, s ∪ {[name activity]}) self
  else self.

(** [d[key].add(x)]: the subscript raises [KeyError] when [key] is absent. *)
Definition adjacency_add
    (field : ProcessModel → gmap string (gset string))
    (update : (gmap string (gset string) → gmap string (gset string)) →
              ProcessModel → ProcessModel)
    (key x : string) : M ProcessModel unit :=
  self ← get_self;
  match field self !! key with
  | None => raise (KeyError key)
  | Some s => modify (update (<[key := s ∪ {[x]}]>))
  end.

(** [ProcessModel.add_transition] *)
Definition add_transition (transition : Transition) : M ProcessModel unit :=
  self ← get_self;
  when (negb (dict_mem (name (source transition)) (_activities self)))
    (raise (ValueError
       ("Source activity '" +:+ name (source transition) +:+ "' not in model")));;
  when (negb (dict_mem (name (target transition)) (_activities self)))
    (raise (ValueError
       ("Target activity '" +:+ name (target transition) +:+ "' not in model")));;
  modify (with_transitions (λ l, l ++ [transition]));;
  adjacency_add _outgoing with_outgoing
    (name (source transition)) (name (target transition));;
  adjacency_add _incoming with_incoming
    (name (target transition)) (name (source transition)).

(** [ProcessModel.get_activity] *)
Definition get_activity (self : ProcessModel) (n : string) : option Activity :=
  dict_get n (_activities self).

(** [ProcessModel.get_activity_for_event]: first match in insertion order. *)
Definition get_activity_for_event (self : ProcessModel) (event_type : string)
    : option Activity :=
  List.find (λ activity, matches_event activity event_type)
            (dict_values (_activities self)).

Definition get_valid_next_activities (self : ProcessModel) (n : string)
    : gset string := default ∅ (_outgoing self !! n).

Definition get_valid_previous_activities (self : ProcessModel) (n : string)
    : gset string := default ∅ (_incoming self !! n).

Definition is_valid_transition (self : ProcessModel) (from_activity to_activity : string)
    : bool := bool_decide (to_activity ∈ default ∅ (_outgoing self !! from_activity)).

Definition is_start_activity (self : ProcessModel) (n : string) : bool :=
  bool_decide (n ∈ _start_activities self).

Definition is_end_activity (self : ProcessModel) (n : string) : bool :=
  bool_decide (n ∈ _end_activities self).

Definition is_mandatory (self : ProcessModel) (n : string) : bool :=
  bool_decide (n ∈ _mandatory_activities self).

(** States a [ProcessModel] object can be in: its fields are private, so it is
    only ever changed by [add_activity] and [add_transition] (whether the
    latter returns or raises).  [Built hist m]: [m] is such a state and [hist]
    lists the activities handed to [add_activity] so far. *)
Inductive Built : list Activity → ProcessModel → Prop :=
  | Built_init n dn descr ver :
      Built [] (ProcessModel_init n dn descr ver)
  | Built_add_activity hist m a :
      Built hist m → Built (hist ++ [a]) (add_activity a m)
  | Built_add_transition hist m t :
      Built hist m → Built hist (add_transition t m).2.

Definition Reachable (m : ProcessModel) : Prop := ∃ hist, Built hist m.

(** Every activity of the model has its two adjacency entries. *)
Definition adjacency_complete (m : ProcessModel) : Prop :=
  ∀ n, is_Some (get_activity m n) →
       is_Some (_outgoing m !! n) ∧ is_Some (_incoming m !! n).

(** The keys of the activity map are distinct and are the names of the
    activities stored under them. *)
Definition keyed_by_name (m : ProcessModel) : Prop :=
  NoDup (dict_keys (_activities m)) ∧
  ∀ k a, (k, a) ∈ _activities m → name a = k.

(** The documented meaning of the mandatory set: the names of the activities
    of the model whose type is not [OPTIONAL]. *)
Definition mandatory_is_not_optional (m : ProcessModel) : Prop :=
  ∀ n, n ∈ _mandatory_activities m ↔
       ∃ a, get_activity m n = Some a ∧ activity_type a ≠ OPTIONAL.

(** [list.sort(key=...)] and [sorted]: the sort is stable and compares keys
    with [<] only.  For a comparison that cannot raise, the outcome is that of
    the stable insertion sort. *)
Section Sort.
Context {A K : Type} (lt : K → K → bool) (key : A → K).

Fixpoint insert_by_key (x : A) (l : list A) : list A :=
  match l with
  | [] => [x]
  | y :: l' =>
      if lt (key y) (key x) then y :: insert_by_key x l' else x :: y :: l'
  end.

Definition sort_by_key (l : list A) : list A := foldr insert_by_key [] l.
End Sort.

(** The same sort when comparing two keys may raise ([None]): the first
    failing comparison aborts the sort. *)
Section SortPartial.
Context {A K : Type} (lt : K → K → option bool) (key : A → K).

Fixpoint try_insert_by_key (x : A) (l : list A) : option (list A) :=
  match l with
  | [] => Some [x]
  | y :: l' =>
      b ← lt (key y) (key x);
      if b : bool then (y ::.) <$> try_insert_by_key x l' else Some (x :: y :: l')
  end.

Fixpoint try_sort_by_key (l : list A) : option (list A) :=
  match l with
  | [] => Some []
  | x :: l' => try_sort_by_key l' ≫= try_insert_by_key x
  end.
End SortPartial.

(** A [for] loop whose body may run out of fuel. *)
Fixpoint for_each {A S : Type} (body : A → S → option S) (l : list A) (s : S)
    : option S :=
  match l with
  | [] => Some s
  | x :: l' => body x s ≫= for_each body l'
  end.

Section Engine.
(** Iteration order of a Python [set]: unspecified by the language. *)
Variable set_iter : gset string → list string.

(** The closure [visit] of [get_expected_sequence]; the state is the pair of
    the captured variables [(visited, result)].  [fuel] bounds the depth of
    the recursion. *)
Fixpoint visit (self : ProcessModel) (fuel : nat) (n : string)
    (st : gset string * list string) : option (gset string * list string) :=
  match fuel with
  | O => None
  | S fuel =>
      if decide (n ∈ st.1) then Some st
      else
        st ← for_each
               (λ predecessor st,
                  if decide (predecessor ∈ _mandatory_activities self)
                  then visit self fuel predecessor st
                  else Some st)
               (set_iter (default ∅ (_incoming self !! n)))
               (st.1 ∪ {[n]}, st.2);
        if decide (n ∈ _mandatory_activities self)
        then Some (st.1, st.2 ++ [n])
        else Some st
  end.

Definition get_expected_sequence_fuel (self : ProcessModel) (fuel : nat)
    : option (list string) :=
  snd <$> for_each (visit self fuel) (set_iter (_end_activities self)) (∅, []).

(** A recursion depth [visit] never exceeds (see [visit_total]). *)
Definition recursion_bound (self : ProcessModel) : nat :=
  size (_mandatory_activities self) + 2.

(** [ProcessModel.get_expected_sequence] *)
Definition get_expected_sequence (self : ProcessModel) : list string :=
  default [] (get_expected_sequence_fuel self (recursion_bound self)).

(** [ProcessModel.get_dependency_order] *)
Definition get_dependency_order (self : ProcessModel) : dict string nat :=
  foldl (λ d '(idx, n), dict_set n idx d) []
        (imap pair (get_expected_sequence self)).

(** ** deviations.py *)

Inductive DeviationType :=
  | SKIPPED_ACTIVITY | WRONG_ORDER | UNEXPECTED_ACTIVITY | MISSING_ACTIVITY
  | DUPLICATE_ACTIVITY | INVALID_START | INVALID_END.

Definition DeviationType_value (t : DeviationType) : string :=
  match t with
  | SKIPPED_ACTIVITY => "skipped_activity"
  | WRONG_ORDER => "wrong_order"
  | UNEXPECTED_ACTIVITY => "unexpected_activity"
  | MISSING_ACTIVITY => "missing_activity"
  | DUPLICATE_ACTIVITY => "duplicate_activity"
  | INVALID_START => "invalid_start"
  | INVALID_END => "invalid_end"
  end.

Inductive Severity := CRITICAL | MAJOR | MINOR | INFO.

Global Instance Severity_eq_dec : EqDecision Severity.
Proof. solve_decision. Defined.

Definition Severity_value (s : Severity) : string :=
  match s with
  | CRITICAL => "critical" | MAJOR => "major"
  | MINOR => "minor" | INFO => "info"
  end.

(** The table [order] of [Severity.__lt__] *)
Definition Severity_order (s : Severity) : nat :=
  match s with CRITICAL => 0 | MAJOR => 1 | MINOR => 2 | INFO => 3 end.

(** [Severity.__lt__] *)
Definition Severity_lt (self other : Severity) : bool :=
  Severity_order self <? Severity_order other.

Definition DEFAULT_SEVERITY_RULES : dict string (dict string Severity) :=
  [ (DeviationType_value SKIPPED_ACTIVITY,
      [("default", MAJOR); ("OrderCreated", CRITICAL);
       ("DeliveryCreated", MAJOR); ("GoodsIssued", MAJOR);
       ("InvoiceCreated", MAJOR)]);
    (DeviationType_value WRONG_ORDER,
      [("default", MAJOR); ("InvoiceCreated", CRITICAL);
       ("GoodsIssued", MAJOR); ("DeliveryCreated", MAJOR)]);
    (DeviationType_value UNEXPECTED_ACTIVITY, [("default", MINOR)]);
    (DeviationType_value MISSING_ACTIVITY,
      [("default", MAJOR); ("OrderCreated", CRITICAL);
       ("InvoiceCreated", MINOR)]);
    (DeviationType_value DUPLICATE_ACTIVITY, [("default", MINOR)]);
    (DeviationType_value INVALID_START, [("default", CRITICAL)]);
    (DeviationType_value INVALID_END, [("default", MINOR)]) ].

(** Values of the free-form [details] dictionary of a deviation. *)
Inductive DetailValue :=
  | DetailNames (l : list string)
  | DetailInt (i : nat)
  | DetailName (s : string).

(** A [datetime]: naive, the microseconds since [datetime.min]; or aware,
    with a time zone of fixed offset, and then given by its instant, the
    microseconds of UTC since [datetime.min] (two aware datetimes compare as
    their instants do). *)
Inductive datetime :=
  | Naive (t : N)
  | Aware (t : Z).

(** A timestamp as an event carries it: absent (or [None]), a [datetime] or
    a string. *)
Inductive TimestampValue :=
  | TsNone
  | TsDatetime (d : datetime)
  | TsStr (s : string).

(** An event of a trace: the keys ["activity"], ["type"] and ["timestamp"]
    of the dictionary; [None] is an absent key or the value [None]. *)
Record Event := {
  ev_activity : option string;
  ev_type : option string;
  ev_timestamp : TimestampValue;
}.

Record Deviation := {
  deviation_type : DeviationType;
  severity : Severity;
  activity_name : string;
  expected : string;
  actual : string;
  position : Z;
  timestamp : option datetime;
  case_id : string;
  details : dict string DetailValue;
  recommendation : string;
}.

Record SeverityScorer := { _rules : dict string (dict string Severity) }.

(** [SeverityScorer.__init__]: [rules or DEFAULT_SEVERITY_RULES] *)
Definition SeverityScorer_init (rules : option (dict string (dict string Severity)))
    : SeverityScorer :=
  {| _rules := match rules with
               | None | Some [] => DEFAULT_SEVERITY_RULES
               | Some r => r
               end |}.

(** [SeverityScorer.get_severity] *)
Definition get_severity (self : SeverityScorer) (dt : DeviationType)
    (activity_name : string) : Severity :=
  let type_rules := default [] (dict_get (DeviationType_value dt) (_rules self)) in
  match dict_get activity_name type_rules with
  | Some s => s
  | None => default MAJOR (dict_get "default" type_rules)
  end.

Record DeviationDetector := {
  detector_model : ProcessModel;
  detector_scorer : SeverityScorer;
  _dependency_order : dict string nat;
}.

(** [DeviationDetector.__init__] *)
Definition DeviationDetector_init (model : ProcessModel)
    (scorer : option SeverityScorer) : DeviationDetector :=
  {| detector_model := model;
     detector_scorer := default (SeverityScorer_init None) scorer;
     _dependency_order := get_dependency_order model |}.

(** [datetime.fromisoformat], [None] when it raises [ValueError]. *)
Variable fromisoformat : string → option datetime.

(** [event.get("activity") or event.get("type", "")], the empty string
    standing for every falsy outcome. *)
Definition event_type_of (event : Event) : string :=
  match ev_activity event with
  | Some (String _ _ as s) => s
  | _ => default "" (ev_type event)
  end.

(** [DeviationDetector._extract_activities] (and the checker's copy) *)
Definition _extract_activities (model : ProcessModel) (trace : list Event)
    : list string :=
  foldl (λ activities event,
           let event_type := event_type_of event in
           if decide (event_type = "") then activities
           else match get_activity_for_event model event_type with
                | Some activity => activities ++ [name activity]
                | None => activities ++ [event_type]
                end)
        [] trace.

(** [DeviationDetector._get_timestamp] *)
Definition _get_timestamp (trace : list Event) (index : Z)
    : option datetime :=
  if decide (index < 0 ∨ Z.of_nat (length trace) ≤ index)%Z then None
  else match ev_timestamp <$> trace !! Z.to_nat index with
       | Some (TsDatetime ts) => Some ts
       | Some (TsStr s) => fromisoformat s
       | _ => None
       end.

Definition join (sep : string) (l : list string) : string :=
  String.concat sep l.

(** [sorted(s)] for a set of strings *)
Definition sorted (s : gset string) : list string :=
  sort_by_key String.ltb id (set_iter s).

(** [DeviationDetector._check_start_activity] *)
Definition _check_start_activity (self : DeviationDetector)
    (activities : list string) (trace : list Event) (cid : string)
    : list Deviation :=
  match activities with
  | [] => []
  | first_activity :: _ =>
      if negb (is_start_activity (detector_model self) first_activity)
      then
        match get_activity (detector_model self) first_activity with
        | Some _ =>
            [ {| deviation_type := INVALID_START;
                 severity := get_severity (detector_scorer self)
                               INVALID_START first_activity;
                 activity_name := first_activity;
                 expected := "Start with: " +:+
                   join ", " (set_iter (_start_activities (detector_model self)));
                 actual := "Started with: " +:+ first_activity;
                 position := 0;
                 timestamp := _get_timestamp trace 0;
                 case_id := cid;
                 details := [];
                 recommendation := "Ensure process begins with order creation" |} ]
        | None => []
        end
      else []
  end.

(** [DeviationDetector._check_activity_order]; the loop state is
    [(deviations, executed)]. *)
Definition _check_activity_order (self : DeviationDetector)
    (activities : list string) (trace : list Event) (cid : string)
    : list Deviation :=
  let model := detector_model self in
  (foldl
     (λ '(deviations, executed) '(i, activity_name),
        match get_activity model activity_name with
        | None => (deviations, executed ∪ {[activity_name]})
        | Some _ =>
            let predecessors :=
              get_valid_previous_activities model activity_name in
            let mandatory_predecessors : gset string :=
              filter (λ p, is_mandatory model p = true) predecessors in
            let deviations :=
              if bool_decide (mandatory_predecessors ≠ ∅)
                 && bool_decide (mandatory_predecessors ∩ executed = ∅)
                 && negb (is_start_activity model activity_name)
              then
                let skipped := mandatory_predecessors ∖ executed in
                deviations ++
                [ {| deviation_type := SKIPPED_ACTIVITY;
                     severity := get_severity (detector_scorer self)
                                   SKIPPED_ACTIVITY activity_name;
                     activity_name := activity_name;
                     expected := "Requires: " +:+ join ", " (sorted skipped);
                     actual := "Prerequisites missing: " +:+
                               join ", " (sorted skipped);
                     position := Z.of_nat i;
                     timestamp := _get_timestamp trace (Z.of_nat i);
                     case_id := cid;
                     details :=
                       [("skipped_activities", DetailNames (set_iter skipped))];
                     recommendation := "Execute " +:+ join ", " (sorted skipped)
                                       +:+ " before " +:+ activity_name |} ]
              else deviations in
            let deviations :=
              match dict_get activity_name (_dependency_order self) with
              | None => deviations
              | Some expected_pos =>
                  foldl
                    (λ deviations prev_activity,
                       match dict_get prev_activity (_dependency_order self) with
                       | None => deviations
                       | Some prev_expected_pos =>
                           if expected_pos <? prev_expected_pos
                           then
                             deviations ++
                             [ {| deviation_type := WRONG_ORDER;
                                  severity := get_severity (detector_scorer self)
                                                WRONG_ORDER activity_name;
                                  activity_name := activity_name;
                                  expected := activity_name +:+
                                    " should come after " +:+ prev_activity;
                                  actual := activity_name +:+
                                    " executed before " +:+ prev_activity;
                                  position := Z.of_nat i;
                                  timestamp := _get_timestamp trace (Z.of_nat i);
                                  case_id := cid;
                                  details :=
                                    [("expected_predecessor", DetailName prev_activity);
                                     ("expected_order",
                                      DetailNames (dict_keys (_dependency_order self)))];
                                  recommendation := "Execute " +:+ prev_activity
                                    +:+ " before " +:+ activity_name |} ]
                           else deviations
                       end)
                    deviations (set_iter executed)
              end in
            (deviations, executed ∪ {[activity_name]})
        end)
     ([], ∅) (imap pair activities)).1.

(** [DeviationDetector._check_unexpected_activities] *)
Definition _check_unexpected_activities (self : DeviationDetector)
    (activities : list string) (trace : list Event) (cid : string)
    : list Deviation :=
  foldl
    (λ deviations '(i, activity_name),
       match get_activity (detector_model self) activity_name with
       | None =>
           deviations ++
           [ {| deviation_type := UNEXPECTED_ACTIVITY;
                severity := get_severity (detector_scorer self)
                              UNEXPECTED_ACTIVITY activity_name;
                activity_name := activity_name;
                expected := "Activity in process model";
                actual := "Unknown activity: " +:+ activity_name;
                position := Z.of_nat i;
                timestamp := _get_timestamp trace (Z.of_nat i);
                case_id := cid;
                details := [];
                recommendation :=
                  "Review if this activity should be added to model" |} ]
       | Some _ => deviations
       end)
    [] (imap pair activities).

(** [DeviationDetector._check_missing_activities] *)
Definition _check_missing_activities (self : DeviationDetector)
    (activities : list string) (trace : list Event) (cid : string)
    : list Deviation :=
  let executed : gset string := list_to_set activities in
  let mandatory := _mandatory_activities (detector_model self) in
  let missing := mandatory ∖ executed in
  foldl
    (λ deviations activity_name,
       deviations ++
       [ {| deviation_type := MISSING_ACTIVITY;
            severity := get_severity (detector_scorer self)
                          MISSING_ACTIVITY activity_name;
            activity_name := activity_name;
            expected := "Mandatory activity: " +:+ activity_name;
            actual := "Activity not executed";
            position := -1;
            timestamp := None;
            case_id := cid;
            details := [("executed_activities", DetailNames (set_iter executed))];
            recommendation := "Ensure " +:+ activity_name +:+ " is executed" |} ])
    [] (set_iter missing).

(** [DeviationDetector._check_duplicate_activities]; the loop state is
    [(deviations, seen)]. *)
Definition _check_duplicate_activities (self : DeviationDetector)
    (activities : list string) (trace : list Event) (cid : string)
    : list Deviation :=
  (foldl
     (λ '(deviations, seen) '(i, activity_name),
        match (seen : gmap string nat) !! activity_name with
        | Some first =>
            match get_activity (detector_model self) activity_name with
            | Some _ =>
                (deviations ++
                 [ {| deviation_type := DUPLICATE_ACTIVITY;
                      severity := get_severity (detector_scorer self)
                                    DUPLICATE_ACTIVITY activity_name;
                      activity_name := activity_name;
                      expected := "Single execution";
                      actual := "Duplicate at positions " +:+ pretty first
                                +:+ " and " +:+ pretty i;
                      position := Z.of_nat i;
                      timestamp := _get_timestamp trace (Z.of_nat i);
                      case_id := cid;
                      details := [("first_occurrence", DetailInt first)];
                      recommendation :=
                        "Review if duplicate execution is expected" |} ],
                 seen)
            | None => (deviations, seen)
            end
        | None => (deviations, <[activity_name := i]> seen)
        end)
     ([], ∅) (imap pair activities)).1.

(** [DeviationDetector._check_end_activity] *)
Definition _check_end_activity (self : DeviationDetector)
    (activities : list string) (trace : list Event) (cid : string)
    : list Deviation :=
  match last activities with
  | None => []
  | Some last_activity =>
      let executed : gset string := list_to_set activities in
      let mandatory := _mandatory_activities (detector_model self) in
      if bool_decide (mandatory ⊆ executed)
         && negb (is_end_activity (detector_model self) last_activity)
      then
        [ {| deviation_type := INVALID_END;
             severity := get_severity (detector_scorer self)
                           INVALID_END last_activity;
             activity_name := last_activity;
             expected := "End with: " +:+
               join ", " (set_iter (_end_activities (detector_model self)));
             actual := "Ended with: " +:+ last_activity;
             position := Z.of_nat (length activities) - 1;
             timestamp := _get_timestamp trace (Z.of_nat (length trace) - 1);
             case_id := cid;
             details := [];
             recommendation :=
               "Ensure process completes with expected end activity" |} ]
      else []
  end.

(** The list [deviations] of [detect_deviations] just before it is sorted:
    the six passes in the order the method runs them. *)
Definition detected_passes (self : DeviationDetector)
    (activities : list string) (trace : list Event) (cid : string)
    : list Deviation :=
  _check_start_activity self activities trace cid
  ++ _check_activity_order self activities trace cid
  ++ _check_unexpected_activities self activities trace cid
  ++ _check_missing_activities self activities trace cid
  ++ _check_duplicate_activities self activities trace cid
  ++ _check_end_activity self activities trace cid.

(** [DeviationDetector.detect_deviations] *)
Definition detect_deviations (self : DeviationDetector) (trace : list Event)
    (cid : string) : list Deviation :=
  let activities := _extract_activities (detector_model self) trace in
  match activities with
  | [] => []
  | _ =>
      sort_by_key Severity_lt severity
        (detected_passes self activities trace cid)
  end.

(** ** checker.py *)

(** The nearest integer, ties to even. *)
Definition round_half_even (q : Q) : Z :=
  let f := Qfloor q in
  match ((q - inject_Z f) ?= (1 # 2))%Q with
  | Lt => f
  | Gt => (f + 1)%Z
  | Eq => if Z.even f then f else (f + 1)%Z
  end.

(** The binade of a positive rational: [2 ^ Qlog2 q <= q < 2 ^ (Qlog2 q + 1)]. *)
Definition Qlog2 (q : Q) : Z :=
  let e := (Z.log2 (Qnum q) - Z.log2 (Zpos (Qden q)))%Z in
  if Qle_bool (2 ^ e) q then e else (e - 1)%Z.

(** The exponent of the last place of the binary64 number nearest to [q]:
    53 significant bits, the last place no finer than [2 ^ -1074]
    (subnormal numbers). *)
Definition ulp_exp (q : Q) : Z := Z.max (Qlog2 (Qabs q) - 52) (-1074).

(** The binary64 number nearest to [q], ties to even.  It is the value of a
    float literal written [q] and the rounding of every float operation:
    [x + y] on floats is [fl (x + y)].  The exponent is not bounded above:
    overflow to an infinity is not modelled. *)
Definition fl (q : Q) : Q :=
  let s := ulp_exp q in
  (inject_Z (round_half_even (q / 2 ^ s)) * 2 ^ s)%Q.

(** [round(x, ndigits)] on a float: the exact value of [x] is rounded to
    [ndigits] decimals, ties to even, and the float nearest to that decimal
    number is returned. *)
Definition py_round (q : Q) (ndigits : nat) : Q :=
  fl (inject_Z (round_half_even (q * inject_Z (10 ^ Z.of_nat ndigits)))
      / inject_Z (10 ^ Z.of_nat ndigits))%Q.

Record CaseConformanceResult := {
  result_case_id : string;
  is_conformant : bool;
  is_fully_conformant : bool;
  fitness_score : Q;
  deviations : list Deviation;
  executed_activities : list string;
  expected_activities : list string;
  trace_length : nat;
}.

(** [CaseConformanceResult.critical_deviations] *)
Definition critical_deviations (self : CaseConformanceResult) : list Deviation :=
  filter (λ d, severity d = CRITICAL) (deviations self).

(** The counts of [ConformanceResult]; its floating-point statistics (rates,
    mean, minimum and maximum of the fitness), the deviation summary and the
    clock reading are left out. *)
Record ConformanceResult := {
  model_name : string;
  total_cases : nat;
  conformant_cases : nat;
  fully_conformant_cases : nat;
  total_deviations : nat;
  case_results : list CaseConformanceResult;
}.

(** The class attribute [ConformanceChecker.SEVERITY_PENALTIES] *)
Definition ConformanceChecker_SEVERITY_PENALTIES : dict Severity Q :=
  [ (CRITICAL, fl (30 # 100)); (MAJOR, fl (15 # 100));
    (MINOR, fl (5 # 100)); (INFO, fl (1 # 100)) ]%Q.

(** [SEVERITY_PENALTIES] is what [self.SEVERITY_PENALTIES] evaluates to: the
    class attribute, unless a subclass or the instance overrides it. *)
Record ConformanceChecker := {
  _model : ProcessModel;
  _scorer : SeverityScorer;
  _detector : DeviationDetector;
  _strict_mode : bool;
  SEVERITY_PENALTIES : dict Severity Q;
}.

(** [ConformanceChecker.__init__] *)
Definition ConformanceChecker_init (model : ProcessModel)
    (severity_scorer : option SeverityScorer) (strict_mode : bool)
    : ConformanceChecker :=
  let scorer := default (SeverityScorer_init None) severity_scorer in
  {| _model := model;
     _scorer := scorer;
     _detector := DeviationDetector_init model (Some scorer);
     _strict_mode := strict_mode;
     SEVERITY_PENALTIES := ConformanceChecker_SEVERITY_PENALTIES |}.

(** [self.SEVERITY_PENALTIES.get(deviation.severity, 0.1)] *)
Definition severity_penalty (self : ConformanceChecker) (sev : Severity) : Q :=
  default (fl (1 # 10)) (dict_get sev (SEVERITY_PENALTIES self)).

(** The variable [total_penalty] of [_calculate_fitness] after its loop. *)
Definition total_penalty (self : ConformanceChecker)
    (deviations : list Deviation) : Q :=
  foldl (λ total_penalty deviation,
           let penalty := severity_penalty self (severity deviation) in
           fl (total_penalty + penalty))
        0%Q deviations.

(** [ConformanceChecker._calculate_fitness] *)
Definition _calculate_fitness (self : ConformanceChecker)
    (deviations : list Deviation) : Q :=
  match deviations with
  | [] => 1%Q
  | _ =>
      let fitness := Qmax 0 (fl (1 - total_penalty self deviations)) in
      py_round fitness 4
  end.

(** [ConformanceChecker.check_trace] *)
Definition check_trace (self : ConformanceChecker) (trace : list Event)
    (cid : string) : CaseConformanceResult :=
  let deviations := detect_deviations (_detector self) trace cid in
  let executed := _extract_activities (_model self) trace in
  let expected := get_expected_sequence (_model self) in
  let fitness := _calculate_fitness self deviations in
  let is_conformant :=
    if _strict_mode self then length deviations =? 0
    else
      let critical_count :=
        length (filter (λ d, severity d = CRITICAL) deviations) in
      critical_count =? 0 in
  let is_fully_conformant := length deviations =? 0 in
  {| result_case_id := cid;
     is_conformant := is_conformant;
     is_fully_conformant := is_fully_conformant;
     fitness_score := fitness;
     deviations := deviations;
     executed_activities := executed;
     expected_activities := expected;
     trace_length := length trace |}.

(** [ConformanceChecker._aggregate_results], the counts only. *)
Definition _aggregate_results (self : ConformanceChecker)
    (case_results : list CaseConformanceResult)
    (all_deviations : list Deviation) : ConformanceResult :=
  match case_results with
  | [] =>
      {| model_name := pm_name (_model self);
         total_cases := 0; conformant_cases := 0;
         fully_conformant_cases := 0; total_deviations := 0;
         case_results := [] |}
  | _ =>
      {| model_name := pm_name (_model self);
         total_cases := length case_results;
         conformant_cases :=
           length (filter (λ r, is_conformant r = true) case_results);
         fully_conformant_cases :=
           length (filter (λ r, is_fully_conformant r = true) case_results);
         total_deviations := length all_deviations;
         case_results := case_results |}
  end.

(** A case of a structured log: the keys ["case_id"] and ["events"]; an
    absent ["events"] key reads as the empty list. *)
Record LogCase := {
  lc_case_id : option string;
  lc_events : list Event;
}.

(** [ConformanceChecker.check_log]; the loop state is
    [(case_results, all_deviations)]. *)
Definition check_log (self : ConformanceChecker) (event_log : list LogCase)
    : ConformanceResult :=
  let '(case_results, all_deviations) :=
    foldl
      (λ '(case_results, all_deviations) case,
         let cid :=
           default ("case_" +:+ pretty (length case_results))
                   (lc_case_id case) in
         match lc_events case with
         | [] => (case_results, all_deviations)
         | events =>
             let result := check_trace self events cid in
             (case_results ++ [result],
              all_deviations ++ deviations result)
         end)
      ([], []) event_log in
  _aggregate_results self case_results all_deviations.

(** An event of a flat log, under the default field names: the keys
    ["case_id"], ["activity"] and ["timestamp"], and of the remaining keys
    (copied into the event of the case) the one the detector reads. *)
Record FlatEvent := {
  fe_case_id : option string;
  fe_activity : option string;
  fe_type : option string;
  fe_timestamp : TimestampValue;
}.

(** [datetime.min], which is naive *)
Definition datetime_min : datetime := Naive 0.

(** Keys of the sort of [check_flat_log] *)
Inductive SortKey :=
  | KeyDatetime (d : datetime)
  | KeyStr (s : string).

(** [e.get("timestamp") or datetime.min]: the empty string is falsy, a
    [datetime] never is. *)
Definition timestamp_key (e : Event) : SortKey :=
  match ev_timestamp e with
  | TsNone | TsStr "" => KeyDatetime datetime_min
  | TsDatetime d => KeyDatetime d
  | TsStr s => KeyStr s
  end.

(** [a < b] on keys; [None] is a [TypeError]: between a naive and an aware
    [datetime], and between a [datetime] and a [str]. *)
Definition SortKey_lt (a b : SortKey) : option bool :=
  match a, b with
  | KeyDatetime (Naive x), KeyDatetime (Naive y) => Some (x <? y)%N
  | KeyDatetime (Aware x), KeyDatetime (Aware y) => Some (x <? y)%Z
  | KeyStr x, KeyStr y => Some (String.ltb x y)
  | _, _ => None
  end.

(** The dictionary [cases] of [check_flat_log] after the grouping loop. *)
Definition group_by_case (events : list FlatEvent) : dict string (list Event) :=
  foldl
    (λ cases event,
       let cid := default "unknown" (fe_case_id event) in
       let cases := if dict_mem cid cases then cases else dict_set cid [] cases in
       dict_set cid
         (default [] (dict_get cid cases)
          ++ [ {| ev_activity := fe_activity event;
                  ev_type := fe_type event;
                  ev_timestamp := fe_timestamp event |} ])
         cases)
    [] events.

(** The list [event_log] of [check_flat_log]: every case sorted in place. *)
Definition flat_event_log (events : list FlatEvent) : result (list LogCase) :=
  match
    mapM (λ '(cid, case_events),
            (λ sorted_events,
               {| lc_case_id := Some cid; lc_events := sorted_events |})
            <$> try_sort_by_key SortKey_lt timestamp_key case_events)
         (group_by_case events)
  with
  | Some event_log => Ok event_log
  | None => Raise TypeError
  end.

(** [ConformanceChecker.check_flat_log] *)
Definition check_flat_log (self : ConformanceChecker) (events : list FlatEvent)
    : result ConformanceResult :=
  match flat_event_log events with
  | Ok event_log => Ok (check_log self event_log)
  | Raise e => Raise e
  end.
End Engine.

(** The mandatory subgraph: [p] is a mandatory predecessor of the mandatory
    activity [n]. *)
Definition mandatory_pred (m : ProcessModel) (p n : string) : Prop :=
  p ∈ default ∅ (_incoming m !! n) ∧
  p ∈ _mandatory_activities m ∧ n ∈ _mandatory_activities m.

Definition acyclic (m : ProcessModel) : Prop :=
  ∀ x, ¬ tc (mandatory_pred m) x x.

(** One step of the traversal: from [n] back to a mandatory activity [p] with
    a transition into [n]; [reaches_end m n]: the traversal can arrive at [n]
    from an end activity. *)
Definition backward_step (m : ProcessModel) (p n : string) : Prop :=
  p ∈ default ∅ (_incoming m !! n) ∧ p ∈ _mandatory_activities m.

Definition reaches_end (m : ProcessModel) (n : string) : Prop :=
  ∃ e, e ∈ _end_activities m ∧ rtc (backward_step m) n e.

(** [l] lists every mandatory predecessor of its members before them. *)
Definition predecessors_first (m : ProcessModel) (l : list string) : Prop :=
  ∀ i n p, l !! i = Some n →
           p ∈ default ∅ (_incoming m !! n) → p ∈ _mandatory_activities m →
           ∃ j, j < i ∧ l !! j = Some p.

(** Invariant of the traversal of [get_expected_sequence]: [visited] and
    [result] are the captured variables, [active] the mandatory activities
    whose call of [visit] has not returned yet. *)
Record dfs_inv (m : ProcessModel) (active visited : gset string)
    (result : list string) : Prop := {
  dfs_listed : ∀ x, x ∈ result → x ∈ visited ∧ x ∈ _mandatory_activities m;
  dfs_nodup : NoDup result;
  dfs_finished : ∀ v, v ∈ visited → v ∈ _mandatory_activities m →
                      v ∈ result ∨ v ∈ active;
  dfs_order : predecessors_first m result;
  dfs_reach : ∀ x, x ∈ result → reaches_end m x;
}.

(** What one call of [visit], or one loop of such calls, does to the captured
    variables: [visited] grows, [result] is extended by activities that were
    not visited before, and the invariant is kept. *)
Definition dfs_extends (m : ProcessModel) (active : gset string)
    (st st' : gset string * list string) : Prop :=
  dfs_inv m active st'.1 st'.2 ∧
  st.1 ⊆ st'.1 ∧
  ∃ ext, st'.2 = st.2 ++ ext ∧ ∀ x, x ∈ ext → x ∉ st.1.

(** The claim about flat logs, as stated: within a case every event without a
    timestamp comes before every event that has one. *)
Definition unstamped_first (evs : list Event) : Prop :=
  ∀ i j e1 e2 t,
    evs !! i = Some e1 → evs !! j = Some e2 →
    ev_timestamp e1 = TsNone → ev_timestamp e2 = TsDatetime t → i < j.

(** The class table in hundredths, and the total of a deviation list. *)
Definition penalty_points (s : Severity) : Z :=
  match s with CRITICAL => 30 | MAJOR => 15 | MINOR => 5 | INFO => 1 end.

Definition total_points (devs : list Deviation) : Z :=
  foldr (λ d acc, penalty_points (severity d) + acc)%Z 0%Z devs.

Definition count_severity (s : Severity) (devs : list Deviation) : Q :=
  inject_Z (Z.of_nat (length (filter (λ d, severity d = s) devs))).

(** A penalty table whose entries are floats, none of them negative. *)
Definition float_penalties (table : dict Severity Q) : Prop :=
  ∀ sev p, dict_get sev table = Some p → (fl p == p)%Q ∧ (0 <= p)%Q.

(** Reading of a flat log: the case an event belongs to, the event its case
    receives, the events of a case in the order of the log, and the case
    identifiers in the order of their first occurrence. *)
Definition flat_case_id (e : FlatEvent) : string :=
  default "unknown" (fe_case_id e).

Definition flat_to_event (e : FlatEvent) : Event :=
  {| ev_activity := fe_activity e; ev_type := fe_type e;
     ev_timestamp := fe_timestamp e |}.

Definition events_of_case (cid : string) (events : list FlatEvent) : list Event :=
  flat_to_event <$> filter (λ e, flat_case_id e = cid) events.

Definition first_occurrences (ids : list string) : list string :=
  foldl (λ seen x, if decide (x ∈ seen) then seen else seen ++ [x]) [] ids.

(** The timestamps the sort can compare with each other: naive datetimes,
    together with the missing and the empty timestamps (they stand for
    [datetime.min]); aware datetimes; strings that are not empty. *)
Inductive TimestampKind := NaiveKind | AwareKind | StrKind.

Global Instance TimestampKind_eq_dec : EqDecision TimestampKind.
Proof. solve_decision. Defined.

Definition timestamp_kind (ts : TimestampValue) : TimestampKind :=
  match ts with
  | TsNone | TsStr "" | TsDatetime (Naive _) => NaiveKind
  | TsDatetime (Aware _) => AwareKind
  | TsStr _ => StrKind
  end.

(** A case whose timestamps are all of one kind. *)
Definition homogeneous (evs : list Event) : Prop :=
  ∀ e1 e2, e1 ∈ evs → e2 ∈ evs →
           timestamp_kind (ev_timestamp e1) = timestamp_kind (ev_timestamp e2).

(** [earlier a b]: the timestamp [a] is strictly before [b], for timestamps
    of one kind: in time for datetimes, a missing or empty timestamp being
    the earliest time, and in the order of the strings. *)
Definition earlier (a b : TimestampValue) : bool :=
  match a, b with
  | TsDatetime (Naive x), TsDatetime (Naive y) => (x <? y)%N
  | (TsNone | TsStr ""), TsDatetime (Naive y) => (0 <? y)%N
  | TsDatetime (Aware x), TsDatetime (Aware y) => (x <? y)%Z
  | TsStr (String _ _ as x), TsStr (String _ _ as y) => String.ltb x y
  | _, _ => false
  end.

(** Two timestamps neither of which is before the other. *)
Definition tied (a b : TimestampValue) : Prop :=
  earlier a b = false ∧ earlier b a = false.

(** What [check_flat_log] hands to [check_log] for one case of the flat log
    [events]: the events of the case, none of them before an earlier one,
    tied events in the order of the log; so an event without a timestamp
    comes before every event stamped later than [datetime.min]. *)
Definition sorted_case (events : list FlatEvent) (c : LogCase) : Prop :=
  ∃ cid,
    lc_case_id c = Some cid ∧
    lc_events c ≡ₚ events_of_case cid events ∧
    StronglySorted (λ e1 e2, earlier (ev_timestamp e2) (ev_timestamp e1) = false)
      (lc_events c) ∧
    (∀ e0, e0 ∈ events_of_case cid events →
       filter (λ e, tied (ev_timestamp e) (ev_timestamp e0)) (lc_events c)
       = filter (λ e, tied (ev_timestamp e) (ev_timestamp e0))
           (events_of_case cid events)) ∧
    (∀ i j e1 e2 t,
       lc_events c !! i = Some e1 → lc_events c !! j = Some e2 →
       ev_timestamp e1 = TsNone → ev_timestamp e2 = TsDatetime (Naive t) →
       (0 < t)%N → i < j).

(** A total order on sort keys that agrees with [<] wherever [<] does not
    raise: naive datetimes first, then aware ones, then strings. *)
Definition SortKey_before (a b : SortKey) : bool :=
  match a, b with
  | KeyDatetime (Naive x), KeyDatetime (Naive y) => (x <? y)%N
  | KeyDatetime (Naive _), _ => true
  | KeyDatetime (Aware x), KeyDatetime (Aware y) => (x <? y)%Z
  | KeyDatetime (Aware _), KeyStr _ => true
  | KeyStr x, KeyStr y => String.ltb x y
  | _, _ => false
  end.

(** ** models.py: [ProcessState] and [ProcessModelBuilder] *)

Record ProcessState := {
  current_activity : option Activity;
  state_executed_activities : gset string;
  execution_sequence : list string;
}.

(** [ProcessState()] *)
Definition ProcessState_init : ProcessState :=
  {| current_activity := None; state_executed_activities := ∅;
     execution_sequence := [] |}.

(** [ProcessState.execute] *)
Definition execute (activity : Activity) (self : ProcessState) : ProcessState :=
  {| current_activity := Some activity;
     state_executed_activities :=
       state_executed_activities self ∪ {[name activity]};
     execution_sequence := execution_sequence self ++ [name activity] |}.

(** [ProcessState.has_executed] *)
Definition has_executed (self : ProcessState) (activity_name : string) : bool :=
  bool_decide (activity_name ∈ state_executed_activities self).

(** [list.index(x)]: the first index of [x], [None] for [ValueError]. *)
Fixpoint list_index (x : string) (l : list string) : option nat :=
  match l with
  | [] => None
  | y :: l' => if decide (x = y) then Some 0 else S <$> list_index x l'
  end.

(** [ProcessState.get_position] *)
Definition get_position (self : ProcessState) (activity_name : string) : Z :=
  match list_index activity_name (execution_sequence self) with
  | Some i => Z.of_nat i
  | None => -1
  end.

(** States of a [ProcessState] object: [Executed hist s] when [s] results
    from executing the activities [hist] in turn. *)
Inductive Executed : list Activity → ProcessState → Prop :=
  | Executed_init : Executed [] ProcessState_init
  | Executed_execute hist s a :
      Executed hist s → Executed (hist ++ [a]) (execute a s).

Record ProcessModelBuilder := {
  builder_model : ProcessModel;
  builder_activities : dict string Activity;
}.

(** [ProcessModelBuilder.__init__] *)
Definition ProcessModelBuilder_init (n dn descr ver : string)
    : ProcessModelBuilder :=
  {| builder_model := ProcessModel_init n dn descr ver;
     builder_activities := [] |}.

(** [ProcessModelBuilder.add_activity] *)
Definition builder_add_activity (n dn : string) (t : ActivityType)
    (aliases : option (list string)) (descr : string)
    (self : ProcessModelBuilder) : ProcessModelBuilder :=
  let activity :=
    {| name := n; display_name := dn; activity_type := t;
       sap_event_types := list_to_set (default [] aliases);
       description := descr |} in
  {| builder_model := add_activity activity (builder_model self);
     builder_activities := dict_set n activity (builder_activities self) |}.

(** A method call on [self._model]. *)
Definition on_model {A} (c : M ProcessModel A) : M ProcessModelBuilder A :=
  λ self,
    ((c (builder_model self)).1,
     {| builder_model := (c (builder_model self)).2;
        builder_activities := builder_activities self |}).

(** [ProcessModelBuilder.add_transition] *)
Definition builder_add_transition (source_name target_name : string)
    (is_mandatory : bool) (cond : string) : M ProcessModelBuilder unit :=
  self ← get_self;
  match dict_get source_name (builder_activities self),
        dict_get target_name (builder_activities self) with
  | None, _ =>
      raise (ValueError
        ("Source activity '" +:+ source_name +:+ "' not defined"))
  | Some _, None =>
      raise (ValueError
        ("Target activity '" +:+ target_name +:+ "' not defined"))
  | Some src, Some tgt =>
      on_model (add_transition
        {| source := src; target := tgt;
           is_mandatory_transition := is_mandatory; condition := cond |})
  end.

(** A [for] loop whose body may raise. *)
Fixpoint for_M {S A : Type} (l : list A) (body : A → M S unit) : M S unit :=
  match l with
  | [] => mret tt
  | x :: l' => body x;; for_M l' body
  end.

(** [ProcessModelBuilder.add_sequence]: the indices of [range(len - 1)] are
    always in range. *)
Definition builder_add_sequence (activity_names : list string)
    (is_mandatory : bool) : M ProcessModelBuilder unit :=
  for_M (seq 0 (length activity_names - 1))
    (λ i, builder_add_transition
            (default "" (activity_names !! i))
            (default "" (activity_names !! (i + 1)))
            is_mandatory "").

(** [ProcessModelBuilder.add_parallel_activities] *)
Definition builder_add_parallel_activities (predecessor : string)
    (parallel_activities : list string) (successor : string)
    : M ProcessModelBuilder unit :=
  for_M parallel_activities
    (λ activity,
       builder_add_transition predecessor activity true "";;
       builder_add_transition activity successor true "");;
  for_M (imap pair parallel_activities)
    (λ '(i, act1),
       for_M (drop (i + 1) parallel_activities)
         (λ act2,
            builder_add_transition act1 act2 false "";;
            builder_add_transition act2 act1 false "")).

(** [ProcessModelBuilder.build] *)
Definition build (self : ProcessModelBuilder) : ProcessModel :=
  builder_model self.

(** States of a builder: from [__init__] by [add_activity] and by
    [add_transition] (whether it returns or raises). *)
Inductive BuilderBuilt : ProcessModelBuilder → Prop :=
  | BuilderBuilt_init n dn descr ver :
      BuilderBuilt (ProcessModelBuilder_init n dn descr ver)
  | BuilderBuilt_add_activity b n dn t aliases descr :
      BuilderBuilt b →
      BuilderBuilt (builder_add_activity n dn t aliases descr b)
  | BuilderBuilt_add_transition b s t mand cond :
      BuilderBuilt b → BuilderBuilt (builder_add_transition s t mand cond b).2.

(** The transition [add_transition] of the builder hands to the model. *)
Definition transition_between (acts : dict string Activity)
    (a b : string) (is_mandatory : bool) : option Transition :=
  src ← dict_get a acts; tgt ← dict_get b acts;
  Some {| source := src; target := tgt;
          is_mandatory_transition := is_mandatory; condition := "" |}.

(** The transitions [add_sequence] appends for a list of names. *)
Definition sequence_transitions (acts : dict string Activity)
    (names : list string) (is_mandatory : bool) : list Transition :=
  omap (λ ab, transition_between acts ab.1 ab.2 is_mandatory)
       (zip names (tail names)).

(** A call of one of the builder's methods, and a chain of such calls
    ([builder.add_activity(...).add_transition(...)...]): the first exception
    ends the chain. *)
Inductive BuilderCall :=
  | CallAddActivity (n dn : string) (t : ActivityType)
      (aliases : option (list string)) (descr : string)
  | CallAddTransition (source_name target_name : string) (is_mandatory : bool)
      (cond : string)
  | CallAddSequence (activity_names : list string) (is_mandatory : bool)
  | CallAddParallelActivities (predecessor : string)
      (parallel_activities : list string) (successor : string).

Definition run_call (c : BuilderCall) : M ProcessModelBuilder unit :=
  match c with
  | CallAddActivity n dn t aliases descr =>
      modify (builder_add_activity n dn t aliases descr)
  | CallAddTransition s t is_mandatory cond =>
      builder_add_transition s t is_mandatory cond
  | CallAddSequence names is_mandatory =>
      builder_add_sequence names is_mandatory
  | CallAddParallelActivities p l s =>
      builder_add_parallel_activities p l s
  end.

Definition run_calls (cs : list BuilderCall) : M ProcessModelBuilder unit :=
  for_M cs run_call.

(** Two calls that differ at most in the [is_mandatory] flag and in the
    condition of the transitions they add. *)
Definition same_but_flags (c c' : BuilderCall) : Prop :=
  match c, c' with
  | CallAddTransition s t _ _, CallAddTransition s' t' _ _ => s = s' ∧ t = t'
  | CallAddSequence names _, CallAddSequence names' _ => names = names'
  | _, _ => c = c'
  end.

(** The model without its list of transitions. *)
Definition without_transitions (m : ProcessModel) : ProcessModel :=
  with_transitions (λ _, []) m.

(** Builders that agree on the activities and, but for the transition list,
    on the model. *)
Definition builders_agree (b b' : ProcessModelBuilder) : Prop :=
  builder_activities b = builder_activities b' ∧
  without_transitions (builder_model b) = without_transitions (builder_model b').

Definition runs_agree (r r' : result unit * ProcessModelBuilder) : Prop :=
  r.1 = r'.1 ∧ builders_agree r.2 r'.2.

(** ** deviations.py: [DeviationSummary] *)

Record DeviationSummary := {
  summary_total_deviations : nat;
  by_type : dict string nat;
  by_severity : dict string nat;
  by_activity : dict string nat;
  most_common : list (string * nat);
}.

(** [d[k] = d.get(k, 0) + 1] *)
Definition dict_incr (k : string) (d : dict string nat) : dict string nat :=
  dict_set k (default 0 (dict_get k d) + 1) d.

(** The three tallies of [from_deviations] after its loop. *)
Definition tally (deviations : list Deviation)
    : dict string nat * dict string nat * dict string nat :=
  foldl (λ '(bt, bs, ba) dev,
           (dict_incr (DeviationType_value (deviation_type dev)) bt,
            dict_incr (Severity_value (severity dev)) bs,
            dict_incr (activity_name dev) ba))
        ([], [], []) deviations.

(** [DeviationSummary.from_deviations]; [sorted(..., reverse=True)] is the
    stable sort under the reversed comparison. *)
Definition from_deviations (deviations : list Deviation) : DeviationSummary :=
  let counts := tally deviations in
  let type_counts :=
    sort_by_key (λ a b : nat, b <? a) snd counts.1.1 in
  {| summary_total_deviations := length deviations;
     by_type := counts.1.1;
     by_severity := counts.1.2;
     by_activity := counts.2;
     most_common := take 5 type_counts |}.

(** ** checker.py: queries on the results *)

(** [CaseConformanceResult.major_deviations], [minor_deviations] *)
Definition major_deviations (self : CaseConformanceResult) : list Deviation :=
  filter (λ d, severity d = MAJOR) (deviations self).

Definition minor_deviations (self : CaseConformanceResult) : list Deviation :=
  filter (λ d, severity d = MINOR) (deviations self).

(** [ConformanceResult.get_non_conformant_cases] *)
Definition get_non_conformant_cases (self : ConformanceResult)
    : list CaseConformanceResult :=
  filter (λ r, is_conformant r = false) (case_results self).

(** ** deviations.py: the rule tables as shared objects *)

(** A rule table is a dictionary of dictionaries, and both levels are
    objects: [SeverityScorer.__init__] binds [self._rules] to the table it is
    given, or to the module's [DEFAULT_SEVERITY_RULES], without copying it,
    and [add_rule] writes into the inner dictionary the table refers to.
    [RuleHeap] holds these objects by address: a table maps the name of a
    deviation type to the address of an inner dictionary.  An address
    without an object reads as an empty dictionary. *)
Record RuleHeap := {
  rule_tables : gmap nat (dict string nat);
  rule_dicts : gmap nat (dict string Severity);
}.

(** The address of the module's [DEFAULT_SEVERITY_RULES]. *)
Definition DEFAULT_RULES : nat := 0.

(** The heap when the module has been loaded: the table at [DEFAULT_RULES],
    its seven inner dictionaries at the addresses 0 to 6. *)
Definition initial_heap : RuleHeap :=
  {| rule_tables :=
       {[ DEFAULT_RULES :=
            imap (λ i entry, (entry.1, i)) DEFAULT_SEVERITY_RULES ]};
     rule_dicts :=
       list_to_map (imap (λ i entry, (i, entry.2)) DEFAULT_SEVERITY_RULES) |}.

Definition table_at (h : RuleHeap) (r : nat) : dict string nat :=
  default [] (rule_tables h !! r).

Definition dict_at (h : RuleHeap) (a : nat) : dict string Severity :=
  default [] (rule_dicts h !! a).

(** The dictionary of dictionaries the table at [r] denotes. *)
Definition table_value (h : RuleHeap) (r : nat)
    : dict string (dict string Severity) :=
  (λ entry, (entry.1, dict_at h entry.2)) <$> table_at h r.

(** [self._rules = rules or DEFAULT_SEVERITY_RULES]: the table [self._rules]
    is bound to; [None] and an empty dictionary are falsy. *)
Definition SeverityScorer_rules (h : RuleHeap) (rules : option nat) : nat :=
  match rules with
  | None => DEFAULT_RULES
  | Some r => match table_at h r with [] => DEFAULT_RULES | _ => r end
  end.

(** [SeverityScorer.add_rule], for a scorer whose [_rules] is the table at
    [self]: the first statement binds a new, empty dictionary to a type that
    has none. *)
Definition add_rule (self : nat) (dt : DeviationType) (n : string)
    (sev : Severity) (h : RuleHeap) : RuleHeap :=
  let key := DeviationType_value dt in
  let h :=
    if dict_mem key (table_at h self) then h
    else
      let a := fresh (dom (rule_dicts h)) in
      {| rule_tables :=
           <[self := dict_set key a (table_at h self)]> (rule_tables h);
         rule_dicts := <[a := []]> (rule_dicts h) |} in
  match dict_get key (table_at h self) with
  | Some a =>
      {| rule_tables := rule_tables h;
         rule_dicts := <[a := dict_set n sev (dict_at h a)]> (rule_dicts h) |}
  | None => h
  end.

(** [dict(rules)] and [rules.copy()]: a new table that refers to the same
    inner dictionaries. *)
Definition copy_rules (r : nat) (h : RuleHeap) : nat * RuleHeap :=
  let c := fresh (dom (rule_tables h)) in
  (c, {| rule_tables := <[c := table_at h r]> (rule_tables h);
         rule_dicts := rule_dicts h |}).

(** The scorer whose [_rules] is the table at [r], as the heap has it. *)
Definition scorer_at (h : RuleHeap) (r : nat) : SeverityScorer :=
  {| _rules := table_value h r |}.

(** The inner dictionary the scorer bound to the table at [r] consults for
    a deviation type: its address, and what it holds. *)
Definition rules_object (h : RuleHeap) (r : nat) (dt : DeviationType)
    : option nat :=
  dict_get (DeviationType_value dt) (table_at h r).

Definition rules_read (h : RuleHeap) (r : nat) (dt : DeviationType)
    : dict string Severity :=
  match rules_object h r dt with
  | Some a => dict_at h a
  | None => []
  end.

(** ** Reading of the detector's reports *)

(** [devs] holds a deviation of type [t] for the activity [n] at [pos]. *)
Definition reported (devs : list Deviation) (t : DeviationType) (n : string)
    (pos : Z) : Prop :=
  ∃ d, d ∈ devs ∧ deviation_type d = t ∧ activity_name d = n ∧ position d = pos.

(** The activity at index [i] of the trace is [n], known to the model, and
    [prev], executed before it, has a later place in the dependency order. *)
Definition wrong_order_evidence (m : ProcessModel) (order : dict string nat)
    (activities : list string) (n : string) (i : nat) (prev : string) : Prop :=
  activities !! i = Some n ∧ is_Some (get_activity m n) ∧
  (∃ j, j < i ∧ activities !! j = Some prev) ∧
  ∃ k k', dict_get n order = Some k ∧ dict_get prev order = Some k' ∧ k < k'.

(** The condition of the trace under which the detector reports a deviation
    of type [t] for the activity [n] at position [pos]. *)
Definition justification (m : ProcessModel) (order : dict string nat)
    (activities : list string) (t : DeviationType) (n : string) (pos : Z)
    : Prop :=
  match t with
  | INVALID_START =>
      pos = 0%Z ∧ activities !! 0 = Some n ∧ is_Some (get_activity m n) ∧
      is_start_activity m n = false
  | SKIPPED_ACTIVITY =>
      ∃ i, pos = Z.of_nat i ∧ activities !! i = Some n ∧
           is_Some (get_activity m n) ∧ is_start_activity m n = false ∧
           (∃ p, p ∈ get_valid_previous_activities m n ∧
                 is_mandatory m p = true) ∧
           ∀ p j, p ∈ get_valid_previous_activities m n →
                  is_mandatory m p = true → j < i → activities !! j ≠ Some p
  | WRONG_ORDER =>
      ∃ i prev, pos = Z.of_nat i ∧
                wrong_order_evidence m order activities n i prev
  | UNEXPECTED_ACTIVITY =>
      ∃ i, pos = Z.of_nat i ∧ activities !! i = Some n ∧ get_activity m n = None
  | MISSING_ACTIVITY =>
      pos = (-1)%Z ∧ n ∈ _mandatory_activities m ∧ n ∉ activities
  | DUPLICATE_ACTIVITY =>
      ∃ i j, pos = Z.of_nat i ∧ activities !! i = Some n ∧
             j < i ∧ activities !! j = Some n ∧ is_Some (get_activity m n)
  | INVALID_END =>
      pos = (Z.of_nat (length activities) - 1)%Z ∧ last activities = Some n ∧
      is_end_activity m n = false ∧
      ∀ x, x ∈ _mandatory_activities m → x ∈ activities
  end.

(** ** Example inputs *)

Definition activity_of (n : string) (t : ActivityType) (aliases : gset string)
    : Activity :=
  {| name := n; display_name := n; activity_type := t;
     sap_event_types := aliases; description := "" |}.

Definition transition_of (a b : Activity) : Transition :=
  {| source := a; target := b; is_mandatory_transition := true; condition := "" |}.

Definition OrderCreated := activity_of "OrderCreated" START ∅.
Definition DeliveryCreated := activity_of "DeliveryCreated" INTERMEDIATE ∅.
Definition GoodsIssued := activity_of "GoodsIssued" INTERMEDIATE ∅.
Definition InvoiceCreated := activity_of "InvoiceCreated" END ∅.

(** The four activities of the linear order-to-cash model of the tests. *)
Definition o2c_activities : ProcessModel :=
  add_activity InvoiceCreated
    (add_activity GoodsIssued
       (add_activity DeliveryCreated
          (add_activity OrderCreated
             (ProcessModel_init "o2c" "Order to Cash" "" "1.0.0")))).

(** OrderCreated -> DeliveryCreated -> GoodsIssued -> InvoiceCreated *)
Definition o2c_linear : ProcessModel :=
  (add_transition (transition_of GoodsIssued InvoiceCreated)
     (add_transition (transition_of DeliveryCreated GoodsIssued)
        (add_transition (transition_of OrderCreated DeliveryCreated)
           o2c_activities).2).2).2.

(** A deviation of a given type and severity at the start of a trace. *)
Definition deviation_of (dt : DeviationType) (sev : Severity) (n : string)
    : Deviation :=
  {| deviation_type := dt; severity := sev; activity_name := n;
     expected := ""; actual := ""; position := 0; timestamp := None;
     case_id := "case-1"; details := []; recommendation := "" |}.

(** The default checker of the linear model, sets being enumerated in the
    order of [elements]. *)
Definition o2c_checker : ConformanceChecker :=
  ConformanceChecker_init elements o2c_linear None false.

(** An event that names its activity and carries no timestamp. *)
Definition event_of (n : string) : Event :=
  {| ev_activity := Some n; ev_type := None; ev_timestamp := TsNone |}.

(** Invoice before goods issue. *)
Definition wrong_order_trace : list Event :=
  [event_of "OrderCreated"; event_of "DeliveryCreated";
   event_of "InvoiceCreated"; event_of "GoodsIssued"].

(** Two events of one case: the first stamped [datetime.min], the second
    without a timestamp. *)
Definition stamped_min_then_unstamped : list FlatEvent :=
  [ {| fe_case_id := Some "4711"; fe_activity := Some "OrderCreated";
       fe_type := None; fe_timestamp := TsDatetime datetime_min |};
    {| fe_case_id := Some "4711"; fe_activity := Some "DeliveryCreated";
       fe_type := None; fe_timestamp := TsNone |} ].

(** Three cases interleaved: one with naive datetimes and an event without
    a timestamp (63839664000000000 microseconds: 2024-01-01T00:00:00), one
    with ISO strings, one with aware datetimes. *)
Definition interleaved_flat_log : list FlatEvent :=
  [ {| fe_case_id := Some "A"; fe_activity := Some "DeliveryCreated";
       fe_type := None;
       fe_timestamp := TsDatetime (Naive 63839750400000000) |};
    {| fe_case_id := Some "B"; fe_activity := Some "DeliveryCreated";
       fe_type := None; fe_timestamp := TsStr "2024-01-02T10:00:00" |};
    {| fe_case_id := Some "A"; fe_activity := Some "OrderCreated";
       fe_type := None; fe_timestamp := TsNone |};
    {| fe_case_id := Some "C"; fe_activity := Some "DeliveryCreated";
       fe_type := None;
       fe_timestamp := TsDatetime (Aware 63839750400000000) |};
    {| fe_case_id := Some "B"; fe_activity := Some "OrderCreated";
       fe_type := None; fe_timestamp := TsStr "2024-01-01T10:00:00" |};
    {| fe_case_id := Some "C"; fe_activity := Some "OrderCreated";
       fe_type := None;
       fe_timestamp := TsDatetime (Aware 63839664000000000) |} ].

(** An ISO string next to a missing timestamp. *)
Definition string_then_unstamped : list FlatEvent :=
  [ {| fe_case_id := Some "4711"; fe_activity := Some "OrderCreated";
       fe_type := None; fe_timestamp := TsStr "2024-01-01T10:00:00" |};
    {| fe_case_id := Some "4711"; fe_activity := Some "DeliveryCreated";
       fe_type := None; fe_timestamp := TsNone |} ].

(** An aware datetime next to a missing timestamp. *)
Definition aware_then_unstamped : list FlatEvent :=
  [ {| fe_case_id := Some "4711"; fe_activity := Some "OrderCreated";
       fe_type := None;
       fe_timestamp := TsDatetime (Aware 63839664000000000) |};
    {| fe_case_id := Some "4711"; fe_activity := Some "DeliveryCreated";
       fe_type := None; fe_timestamp := TsNone |} ].

(** Position of an activity in the expected sequence of the linear model. *)
Definition o2c_rank (n : string) : nat :=
  default 0 (dict_get n (get_dependency_order elements o2c_linear)).

(** An activity reached through its SAP event type only. *)
Definition OrderCreated_VA01 := activity_of "OrderCreated" START {["VA01"]}.

(** [OrderCreated] declared again, now as optional. *)
Definition OrderCreated_optional := activity_of "OrderCreated" OPTIONAL ∅.

(** * Properties *)

(** ** Dictionaries *)

Section DictFacts.
Context {K V : Type} `{EqDecision K}.
Implicit Types (d : dict K V) (k : K) (v : V).

Lemma dict_get_set_eq d k v : dict_get k (dict_set k v d) = Some v.
Proof.
  induction d as [|[k' v'] d IH]; simpl.
  - by rewrite decide_True.
  - destruct (decide (k = k')) as [->|Hne]; simpl.
    + by rewrite decide_True.
    + by rewrite decide_False.
Qed.

Lemma dict_get_set_ne d k k' v :
  k ≠ k' → dict_get k' (dict_set k v d) = dict_get k' d.
Proof.
  intros Hne. induction d as [|[k0 v0] d IH]; simpl.
  - by rewrite decide_False.
  - destruct (decide (k = k0)) as [->|Hne0]; simpl.
    + by rewrite !decide_False.
    + by rewrite IH.
Qed.

Lemma dict_get_Some_keys d k v : dict_get k d = Some v → k ∈ dict_keys d.
Proof.
  induction d as [|[k0 v0] d IH]; simpl; [done|].
  destruct (decide (k = k0)) as [->|Hne]; intros Hg.
  - apply list_elem_of_here.
  - apply list_elem_of_further, IH, Hg.
Qed.

Lemma dict_get_None_keys d k : dict_get k d = None ↔ k ∉ dict_keys d.
Proof.
  induction d as [|[k0 v0] d IH]; simpl.
  - split; [intros _; apply not_elem_of_nil | done].
  - rewrite not_elem_of_cons. destruct (decide (k = k0)) as [->|Hne].
    + split; [done | intros [? _]; done].
    + rewrite IH. tauto.
Qed.

Lemma dict_mem_true d k : dict_mem k d = true ↔ is_Some (dict_get k d).
Proof. unfold dict_mem. by rewrite bool_decide_eq_true. Qed.

Lemma dict_mem_false d k : dict_mem k d = false ↔ dict_get k d = None.
Proof.
  unfold dict_mem. rewrite bool_decide_eq_false.
  by rewrite <- eq_None_not_Some.
Qed.

Lemma dict_keys_set_present d k v :
  is_Some (dict_get k d) → dict_keys (dict_set k v d) = dict_keys d.
Proof.
  unfold dict_keys. induction d as [|[k0 v0] d IH]; simpl.
  - by intros [? ?].
  - destruct (decide (k = k0)) as [->|Hne]; simpl; [done|].
    intros Hs. f_equal. by apply IH.
Qed.

Lemma dict_keys_set_absent d k v :
  dict_get k d = None → dict_keys (dict_set k v d) = dict_keys d ++ [k].
Proof.
  unfold dict_keys. induction d as [|[k0 v0] d IH]; simpl; [done|].
  destruct (decide (k = k0)) as [->|Hne]; simpl; [done|].
  intros Hs. f_equal. by apply IH.
Qed.
End DictFacts.

(** ** The process model *)

Ltac unfold_M :=
  unfold add_transition, adjacency_add, when, raise, modify, get_self,
    mbind, mret, M_bind, M_ret in *.

Lemma add_activity_activities a m :
  _activities (add_activity a m) = dict_set (name a) a (_activities m).
Proof. unfold add_activity. by repeat case_decide. Qed.

Lemma add_activity_transitions a m :
  _transitions (add_activity a m) = _transitions m.
Proof. unfold add_activity. by repeat case_decide. Qed.

Lemma add_activity_outgoing a m :
  _outgoing (add_activity a m) = setdefault_empty (name a) (_outgoing m).
Proof. unfold add_activity. by repeat case_decide. Qed.

Lemma add_activity_incoming a m :
  _incoming (add_activity a m) = setdefault_empty (name a) (_incoming m).
Proof. unfold add_activity. by repeat case_decide. Qed.

Lemma add_activity_start a m :
  _start_activities (add_activity a m) =
  if decide (activity_type a = START)
  then _start_activities m ∪ {[name a]} else _start_activities m.
Proof. unfold add_activity. by repeat case_decide. Qed.

Lemma add_activity_end a m :
  _end_activities (add_activity a m) =
  if decide (activity_type a = END)
  then _end_activities m ∪ {[name a]} else _end_activities m.
Proof.
  unfold add_activity. repeat case_decide; try done; congruence.
Qed.

Lemma add_activity_mandatory a m :
  _mandatory_activities (add_activity a m) =
  if decide (activity_type a ≠ OPTIONAL)
  then _mandatory_activities m ∪ {[name a]} else _mandatory_activities m.
Proof. unfold add_activity. by repeat case_decide. Qed.

Lemma setdefault_empty_is_Some key k d :
  is_Some (d !! k) ∨ k = key ↔ is_Some (setdefault_empty key d !! k).
Proof.
  unfold setdefault_empty. destruct (d !! key) eqn:Hk.
  - split; [intros [?| ->]; eauto | eauto].
  - destruct (decide (key = k)) as [->|Hne].
    + rewrite lookup_insert_eq. split; eauto.
    + rewrite lookup_insert_ne by done. split; [intros [?|?]; done | eauto].
Qed.

(** What [add_transition] does, case by case. *)
Lemma add_transition_unknown_source t m :
  get_activity m (name (source t)) = None →
  ∃ msg, add_transition t m = (Raise (ValueError msg), m).
Proof.
  unfold get_activity. intros Hs. apply dict_mem_false in Hs.
  unfold_M. rewrite Hs. simpl. eauto.
Qed.

Lemma add_transition_unknown_target t m :
  is_Some (get_activity m (name (source t))) →
  get_activity m (name (target t)) = None →
  ∃ msg, add_transition t m = (Raise (ValueError msg), m).
Proof.
  unfold get_activity. intros Hs Ht.
  apply dict_mem_true in Hs. apply dict_mem_false in Ht.
  unfold_M. rewrite Hs, Ht. simpl. eauto.
Qed.

Lemma add_transition_known t m so si :
  is_Some (get_activity m (name (source t))) →
  is_Some (get_activity m (name (target t))) →
  _outgoing m !! name (source t) = Some so →
  _incoming m !! name (target t) = Some si →
  add_transition t m =
  (Ok tt,
   with_incoming (<[name (target t) := si ∪ {[name (source t)]}]>)
     (with_outgoing (<[name (source t) := so ∪ {[name (target t)]}]>)
        (with_transitions (λ l, l ++ [t]) m))).
Proof.
  unfold get_activity. intros Hs Ht Ho Hi.
  apply dict_mem_true in Hs. apply dict_mem_true in Ht.
  unfold_M. rewrite Hs, Ht. simpl. rewrite Ho. simpl. by rewrite Hi.
Qed.


(** [add_transition] touches the transition list and the adjacency maps only,
    and never drops an adjacency entry. *)
Lemma add_transition_frame t m :
  let m' := (add_transition t m).2 in
  _activities m' = _activities m ∧
  _start_activities m' = _start_activities m ∧
  _end_activities m' = _end_activities m ∧
  _mandatory_activities m' = _mandatory_activities m ∧
  (∀ n, is_Some (_outgoing m !! n) → is_Some (_outgoing m' !! n)) ∧
  (∀ n, is_Some (_incoming m !! n) → is_Some (_incoming m' !! n)).
Proof.
  unfold_M.
  destruct (dict_mem (name (source t)) (_activities m)); simpl;
    [|by repeat split].
  destruct (dict_mem (name (target t)) (_activities m)); simpl;
    [|by repeat split].
  destruct (_outgoing m !! name (source t)) as [so|] eqn:Ho; simpl;
    [|by repeat split].
  assert (∀ n, is_Some (_outgoing m !! n) →
    is_Some (<[name (source t) := so ∪ {[name (target t)]}]> (_outgoing m) !! n))
    as Hout.
  { intros n Hn. destruct (decide (name (source t) = n)) as [->|Hne].
    - rewrite lookup_insert_eq; eauto.
    - by rewrite lookup_insert_ne. }
  destruct (_incoming m !! name (target t)) as [si|] eqn:Hi; simpl;
    [|by repeat split].
  repeat split; try done.
  intros n Hn. destruct (decide (name (target t) = n)) as [->|Hne].
  - rewrite lookup_insert_eq; eauto.
  - by rewrite lookup_insert_ne.
Qed.

Lemma Built_adjacency_complete hist m : Built hist m → adjacency_complete m.
Proof.
  induction 1 as [n0 dn0 de0 ve0 | hist m a _ IH | hist m t _ IH]; intros n; unfold get_activity.
  - simpl. by intros [? ?].
  - rewrite add_activity_activities, add_activity_outgoing, add_activity_incoming.
    intros Hn. rewrite <- !setdefault_empty_is_Some.
    destruct (decide (name a = n)) as [->|Hne]; [by split; right|].
    rewrite dict_get_set_ne in Hn by done.
    destruct (IH n Hn). by split; left.
  - destruct (add_transition_frame t m) as (Ha & _ & _ & _ & Ho & Hi).
    rewrite Ha. intros Hn. destruct (IH n Hn). split; [by apply Ho | by apply Hi].
Qed.

Lemma Built_mandatory hist m :
  Built hist m →
  ∀ n, n ∈ _mandatory_activities m ↔
       ∃ a, a ∈ hist ∧ name a = n ∧ activity_type a ≠ OPTIONAL.
Proof.
  induction 1 as [n0 dn0 de0 ve0 | hist m a _ IH | hist m t _ IH]; intros n.
  - simpl. split; [set_solver|]. intros (a & Ha & _). by apply elem_of_nil in Ha.
  - rewrite add_activity_mandatory. setoid_rewrite elem_of_app.
    setoid_rewrite list_elem_of_singleton. case_decide as Hty.
    + rewrite elem_of_union, elem_of_singleton, IH. split.
      * intros [(b & ? & ? & ?) | ->]; [exists b | exists a]; tauto.
      * intros (b & [Hb | ->] & Hn & Hb'); [left; eauto | by right].
    + rewrite IH. split.
      * intros (b & ? & ? & ?). exists b. tauto.
      * intros (b & [Hb | ->] & Hn & Hb'); [eauto | done].
  - destruct (add_transition_frame t m) as (_ & _ & _ & Hm & _). rewrite Hm. apply IH.
Qed.

Lemma Built_get_activity hist m :
  Built hist m → NoDup (name <$> hist) →
  ∀ n a, get_activity m n = Some a ↔ a ∈ hist ∧ name a = n.
Proof.
  unfold get_activity.
  induction 1 as [n0 dn0 de0 ve0 | hist m a _ IH | hist m t _ IH]; intros Hnd n b.
  - simpl. split; [done|]. intros [Hb _]. by apply elem_of_nil in Hb.
  - rewrite fmap_app in Hnd. apply NoDup_app in Hnd as (Hnd & Hfresh & _).
    rewrite add_activity_activities, elem_of_app, list_elem_of_singleton.
    destruct (decide (name a = n)) as [<-|Hne].
    + rewrite dict_get_set_eq. split.
      * intros [= <-]. by split; [right|].
      * intros [[Hb | ->] Hn]; [|done].
        exfalso. apply (Hfresh (name a)); [|apply list_elem_of_here].
        rewrite <- Hn. by apply list_elem_of_fmap_2.
    + rewrite dict_get_set_ne by done. rewrite (IH Hnd). split.
      * intros [? ?]. by split; [left|].
      * intros [[Hb | ->] Hn]; [done | congruence].
  - destruct (add_transition_frame t m) as (Ha & _). rewrite Ha. by apply IH.
Qed.

Lemma Built_mandatory_is_not_optional hist m :
  Built hist m → NoDup (name <$> hist) → mandatory_is_not_optional m.
Proof.
  intros HB Hnd n. rewrite (Built_mandatory _ _ HB).
  split.
  - intros (a & Ha & H1 & H2). exists a.
    split; [|done]. apply (Built_get_activity _ _ HB Hnd). by split.
  - intros (a & Ha & H2). exists a.
    apply (Built_get_activity _ _ HB Hnd) in Ha as [? ?]. by repeat split.
Qed.

Lemma dict_get_Some_elem {V} (d : dict string V) k v :
  dict_get k d = Some v → (k, v) ∈ d.
Proof.
  induction d as [|[k0 v0] d IH]; simpl; [done|].
  destruct (decide (k = k0)) as [->|Hne].
  - intros [= ->]. apply list_elem_of_here.
  - intros Hg. apply list_elem_of_further, IH, Hg.
Qed.

Lemma dict_elem_get {V} (d : dict string V) k v :
  NoDup (dict_keys d) → (k, v) ∈ d → dict_get k d = Some v.
Proof.
  unfold dict_keys. induction d as [|[k0 v0] d IH]; simpl.
  - intros _ Hin. by apply elem_of_nil in Hin.
  - intros [Hk0 Hnd]%NoDup_cons [[= -> ->] | Hin]%elem_of_cons.
    + by rewrite decide_True.
    + rewrite decide_False; [by apply IH|].
      intros ->. apply Hk0. by apply (list_elem_of_fmap_2 fst _ (k0, v)).
Qed.

Lemma dict_set_elem {V} (d : dict string V) k v k' v' :
  (k', v') ∈ dict_set k v d → (k' = k ∧ v' = v) ∨ (k', v') ∈ d.
Proof.
  induction d as [|[k0 v0] d IH]; simpl.
  - rewrite list_elem_of_singleton. intros [= -> ->]. by left.
  - destruct (decide (k = k0)) as [->|Hne]; rewrite !elem_of_cons.
    + intros [[= -> ->] | Hin]; [by left | by right; right].
    + intros [Heq | Hin]; [by right; left|].
      destruct (IH Hin) as [?|?]; [by left | by right; right].
Qed.

Lemma dict_set_NoDup {V} (d : dict string V) k v :
  NoDup (dict_keys d) → NoDup (dict_keys (dict_set k v d)).
Proof.
  intros Hnd. destruct (dict_get k d) as [v0|] eqn:Hg.
  - by rewrite dict_keys_set_present.
  - rewrite dict_keys_set_absent by done. apply NoDup_app.
    split; [done|]. split; [|apply NoDup_singleton].
    intros x Hx ->%list_elem_of_singleton. by apply dict_get_None_keys in Hg.
Qed.

Lemma Built_keyed_by_name hist m : Built hist m → keyed_by_name m.
Proof.
  unfold keyed_by_name.
  induction 1 as [n0 dn0 de0 ve0 | hist m a _ [IH1 IH2] | hist m t _ IH].
  - simpl. split; [apply NoDup_nil_2|]. intros k a Hin. by apply elem_of_nil in Hin.
  - rewrite add_activity_activities. split; [by apply dict_set_NoDup|].
    intros k b [[-> ->] | Hin]%dict_set_elem; [done | by apply IH2].
  - destruct (add_transition_frame t m) as (Ha & _). by rewrite Ha.
Qed.

(** C9: an activity with a non-empty alias set that lacks its own name does
    not match the event equal to its name; in a model holding it,
    [get_activity_for_event] never maps that event to the activity of that
    name, and in the model holding it alone the event is not mapped at all. *)
Theorem aliases_disable_matching_by_name (a : Activity) :
  sap_event_types a ≠ ∅ →
  name a ∉ sap_event_types a →
  matches_event a (name a) = false ∧
  (∀ m b, Reachable m → get_activity m (name a) = Some a →
          get_activity_for_event m (name a) = Some b → name b ≠ name a) ∧
  (∃ m, Reachable m ∧ get_activity m (name a) = Some a ∧
        get_activity_for_event m (name a) = None).
Proof.
  intros Hne Hnotin.
  assert (matches_event a (name a) = false) as Hno.
  { unfold matches_event. rewrite bool_decide_eq_false_2 by done.
    by apply bool_decide_eq_false_2. }
  split; [done|]. split.
  - intros m b [hist HB] Ha Hb Hname.
    destruct (Built_keyed_by_name _ _ HB) as [Hnd Hkey].
    unfold get_activity_for_event in Hb. apply find_some in Hb as [Hin Hmatch].
    apply list_elem_of_In, list_elem_of_fmap in Hin as ([k b'] & -> & Hin).
    simpl in *. pose proof (Hkey _ _ Hin) as Hk. subst k.
    rewrite Hname in Hin. apply (dict_elem_get _ _ _ Hnd) in Hin.
    unfold get_activity in Ha. congruence.
  - exists (add_activity a (ProcessModel_init "" "" "" "")). split; [|split].
    + eexists. apply (Built_add_activity []), Built_init.
    + unfold get_activity. rewrite add_activity_activities. apply dict_get_set_eq.
    + unfold get_activity_for_event. rewrite add_activity_activities.
      simpl. by rewrite Hno.
Qed.

Lemma aliases_disable_matching_by_name_witness :
  matches_event OrderCreated_VA01 "OrderCreated" = false.
Proof.
  refine (proj1 (aliases_disable_matching_by_name OrderCreated_VA01 _ _)).
  - simpl. intros H. by apply (non_empty_singleton_L (C := gset string)) in H.
  - simpl. intros H%elem_of_singleton. discriminate.
Defined.

(** C10: [add_activity] only ever adds names to the start, end and mandatory
    sets.  As long as every name is added once, the mandatory set is exactly
    the set of activities that are not optional; adding a name that is
    already mandatory again as optional leaves it in the mandatory set and
    breaks that reading. *)
Theorem add_activity_never_removes hist m a :
  Built hist m →
  (_start_activities m ⊆ _start_activities (add_activity a m) ∧
   _end_activities m ⊆ _end_activities (add_activity a m) ∧
   _mandatory_activities m ⊆ _mandatory_activities (add_activity a m)) ∧
  (NoDup (name <$> hist ++ [a]) →
   mandatory_is_not_optional (add_activity a m)) ∧
  (name a ∈ _mandatory_activities m → activity_type a = OPTIONAL →
   name a ∈ _mandatory_activities (add_activity a m) ∧
   ¬ mandatory_is_not_optional (add_activity a m)).
Proof.
  intros HB. split; [|split].
  - rewrite add_activity_start, add_activity_end, add_activity_mandatory.
    repeat case_decide; set_solver.
  - intros Hnd.
    apply (Built_mandatory_is_not_optional (hist ++ [a])); [|done].
    by apply Built_add_activity.
  - intros Hin Hopt.
    assert (name a ∈ _mandatory_activities (add_activity a m)) as Hin'.
    { rewrite add_activity_mandatory. case_decide; set_solver. }
    split; [done|]. intros Hinv. apply Hinv in Hin' as (b & Hb & Hty).
    unfold get_activity in Hb.
    rewrite add_activity_activities, dict_get_set_eq in Hb. congruence.
Qed.

Lemma add_activity_never_removes_witness :
  "OrderCreated" ∈ _mandatory_activities (add_activity OrderCreated_optional o2c_linear) ∧
  ¬ mandatory_is_not_optional (add_activity OrderCreated_optional o2c_linear).
Proof.
  refine (proj2 (proj2 (add_activity_never_removes
            [OrderCreated; DeliveryCreated; GoodsIssued; InvoiceCreated]
            o2c_linear OrderCreated_optional _)) _ _).
  - unfold o2c_linear, o2c_activities.
    do 3 apply Built_add_transition.
    apply (Built_add_activity [OrderCreated; DeliveryCreated; GoodsIssued]).
    apply (Built_add_activity [OrderCreated; DeliveryCreated]).
    apply (Built_add_activity [OrderCreated]).
    apply (Built_add_activity []). apply Built_init.
  - vm_compute. set_solver.
  - reflexivity.
Defined.

(** C7: on a reachable model [add_transition] raises exactly when the source
    or the target name is not a key of the activity map, and a call that
    raises leaves the model as it was. *)
Theorem add_transition_fail_fast m t :
  Reachable m →
  (raises (add_transition t m).1 ↔
   get_activity m (name (source t)) = None ∨
   get_activity m (name (target t)) = None) ∧
  (raises (add_transition t m).1 → (add_transition t m).2 = m).
Proof.
  intros [hist HB]. pose proof (Built_adjacency_complete _ _ HB) as Hadj.
  destruct (get_activity m (name (source t))) as [sa|] eqn:Hs.
  - destruct (get_activity m (name (target t))) as [ta|] eqn:Ht.
    + destruct (Hadj (name (source t))) as [[so Ho] _]; [by rewrite Hs|].
      destruct (Hadj (name (target t))) as [_ [si Hi]]; [by rewrite Ht|].
      rewrite (add_transition_known t m so si) by (by rewrite ?Hs, ?Ht).
      simpl. split; [|done]. split; [done | by intros [?|?]].
    + destruct (add_transition_unknown_target t m) as [msg ->];
        [by rewrite Hs | done |]. simpl. split; [|done]. split; [by right | done].
  - destruct (add_transition_unknown_source t m Hs) as [msg ->].
    simpl. split; [|done]. split; [by left | done].
Qed.

Lemma add_transition_fail_fast_witness :
  raises (add_transition (transition_of OrderCreated (activity_of "Shipped" END ∅))
            o2c_activities).1 ∧
  (add_transition (transition_of OrderCreated (activity_of "Shipped" END ∅))
     o2c_activities).2 = o2c_activities.
Proof.
  assert (Reachable o2c_activities) as HR.
  { eexists. unfold o2c_activities.
    apply (Built_add_activity [OrderCreated; DeliveryCreated; GoodsIssued]).
    apply (Built_add_activity [OrderCreated; DeliveryCreated]).
    apply (Built_add_activity [OrderCreated]).
    apply (Built_add_activity []). apply Built_init. }
  destruct (add_transition_fail_fast o2c_activities
              (transition_of OrderCreated (activity_of "Shipped" END ∅)) HR)
    as [Hiff Hsame].
  assert (raises (add_transition
            (transition_of OrderCreated (activity_of "Shipped" END ∅))
            o2c_activities).1) as Hr.
  { apply Hiff. right. reflexivity. }
  split; [exact Hr | exact (Hsame Hr)].
Defined.

(** C4 (as the code has it): a second [add_transition] with the same source
    and target names succeeds, leaves the activity map and both adjacency
    maps as the first call left them, and appends the transition to the
    transition list once more. *)
Theorem add_transition_twice m t1 t2 m1 :
  Reachable m →
  name (source t2) = name (source t1) →
  name (target t2) = name (target t1) →
  add_transition t1 m = (Ok tt, m1) →
  ∃ m2, add_transition t2 m1 = (Ok tt, m2) ∧
        _activities m2 = _activities m1 ∧
        _outgoing m2 = _outgoing m1 ∧
        _incoming m2 = _incoming m1 ∧
        _transitions m2 = _transitions m1 ++ [t2] ∧
        _transitions m1 = _transitions m ++ [t1].
Proof.
  intros [hist HB] Hsrc Htgt H1.
  pose proof (Built_adjacency_complete _ _ HB) as Hadj.
  destruct (get_activity m (name (source t1))) as [sa|] eqn:Hs; cycle 1.
  { destruct (add_transition_unknown_source t1 m Hs) as [msg Hr]. congruence. }
  destruct (get_activity m (name (target t1))) as [ta|] eqn:Ht; cycle 1.
  { destruct (add_transition_unknown_target t1 m) as [msg Hr];
      [by rewrite Hs | done | congruence]. }
  destruct (Hadj (name (source t1))) as [[so Ho] _]; [by rewrite Hs|].
  destruct (Hadj (name (target t1))) as [_ [si Hi]]; [by rewrite Ht|].
  rewrite (add_transition_known t1 m so si) in H1 by (by rewrite ?Hs, ?Ht).
  injection H1 as <-.
  eexists. split.
  - apply (add_transition_known t2 _
             (so ∪ {[name (target t1)]}) (si ∪ {[name (source t1)]})).
    + unfold get_activity in *. simpl. rewrite Hsrc, Hs. eauto.
    + unfold get_activity in *. simpl. rewrite Htgt, Ht. eauto.
    + simpl. rewrite Hsrc. apply lookup_insert_eq.
    + simpl. rewrite Htgt. apply lookup_insert_eq.
  - simpl. rewrite Hsrc, Htgt. repeat split.
    + rewrite insert_insert_eq. f_equal.
      by rewrite <- (assoc_L (∪)), (idemp_L (∪)).
    + rewrite insert_insert_eq. f_equal.
      by rewrite <- (assoc_L (∪)), (idemp_L (∪)).
Qed.

Lemma add_transition_twice_witness :
  ∃ m2,
    add_transition (transition_of OrderCreated DeliveryCreated)
      (add_transition (transition_of OrderCreated DeliveryCreated)
         o2c_activities).2 = (Ok tt, m2) ∧
    _activities m2 = _activities (add_transition
      (transition_of OrderCreated DeliveryCreated) o2c_activities).2 ∧
    _outgoing m2 = _outgoing (add_transition
      (transition_of OrderCreated DeliveryCreated) o2c_activities).2 ∧
    _incoming m2 = _incoming (add_transition
      (transition_of OrderCreated DeliveryCreated) o2c_activities).2 ∧
    _transitions m2 = _transitions (add_transition
      (transition_of OrderCreated DeliveryCreated) o2c_activities).2
      ++ [transition_of OrderCreated DeliveryCreated] ∧
    _transitions (add_transition
      (transition_of OrderCreated DeliveryCreated) o2c_activities).2
    = _transitions o2c_activities ++ [transition_of OrderCreated DeliveryCreated].
Proof.
  apply (add_transition_twice o2c_activities).
  - eexists. unfold o2c_activities.
    apply (Built_add_activity [OrderCreated; DeliveryCreated; GoodsIssued]).
    apply (Built_add_activity [OrderCreated; DeliveryCreated]).
    apply (Built_add_activity [OrderCreated]).
    apply (Built_add_activity []). apply Built_init.
  - reflexivity.
  - reflexivity.
  - vm_compute. reflexivity.
Defined.

(** C4, the claim as stated fails: after two identical calls the transition
    list holds the transition twice, so the model differs from the one the
    first call left. *)
Lemma add_transition_twice_duplicates :
  let t := transition_of OrderCreated DeliveryCreated in
  let m1 := (add_transition t o2c_activities).2 in
  let m2 := (add_transition t m1).2 in
  (add_transition t o2c_activities).1 = Ok tt ∧
  (add_transition t m1).1 = Ok tt ∧
  _transitions m1 = [t] ∧
  _transitions m2 = [t; t] ∧
  _transitions m2 ≠ _transitions m1.
Proof.
  intros t m1 m2.
  assert (_transitions m1 = [t]) as H1 by (vm_compute; reflexivity).
  assert (_transitions m2 = [t; t]) as H2 by (vm_compute; reflexivity).
  split; [vm_compute; reflexivity|].
  split; [vm_compute; reflexivity|].
  split; [done|]. split; [done|].
  rewrite H1, H2. discriminate.
Qed.

(** ** Rounding *)

Global Instance round_half_even_proper : Proper (Qeq ==> eq) round_half_even.
Proof.
  intros q1 q2 Hq. unfold round_half_even.
  rewrite (Qfloor_comp _ _ Hq).
  assert (q1 - inject_Z (Qfloor q2) == q2 - inject_Z (Qfloor q2))%Q as ->
    by (by rewrite Hq).
  done.
Qed.

Lemma round_half_even_cases (q : Q) :
  (round_half_even q = Qfloor q ∧ (q - inject_Z (Qfloor q) <= 1 # 2)%Q) ∨
  (round_half_even q = (Qfloor q + 1)%Z ∧ (1 # 2 <= q - inject_Z (Qfloor q))%Q).
Proof.
  unfold round_half_even.
  destruct (Qcompare_spec (q - inject_Z (Qfloor q)) (1 # 2)) as [He|Hl|Hg].
  - destruct (Z.even (Qfloor q)); [left | right]; (split; [done|]);
      rewrite He; apply Qle_refl.
  - left. split; [done|]. by apply Qlt_le_weak.
  - right. split; [done|]. by apply Qlt_le_weak.
Qed.

(** The nearest integer is at most one half away. *)
Lemma round_half_even_error (q : Q) :
  (Qabs (inject_Z (round_half_even q) - q) <= 1 # 2)%Q.
Proof.
  pose proof (Qfloor_le q) as Hlo. pose proof (Qlt_floor q) as Hhi.
  rewrite inject_Z_plus in Hhi. change (inject_Z 1) with 1%Q in Hhi.
  apply Qabs_Qle_condition.
  destruct (round_half_even_cases q) as [[-> H]|[-> H]];
    rewrite ?inject_Z_plus; change (inject_Z 1) with 1%Q; split; lra.
Qed.

Lemma round_half_even_tie (q : Q) :
  (Qabs (inject_Z (round_half_even q) - q) == 1 # 2)%Q →
  Z.even (round_half_even q) = true.
Proof.
  pose proof (Qfloor_le q) as Hlo. pose proof (Qlt_floor q) as Hhi.
  rewrite inject_Z_plus in Hhi. change (inject_Z 1) with 1%Q in Hhi.
  unfold round_half_even.
  destruct (Qcompare_spec (q - inject_Z (Qfloor q)) (1 # 2)) as [He|Hl|Hg].
  - intros _. destruct (Z.even (Qfloor q)) eqn:Hev; [done|].
    rewrite Z.even_add, Hev. done.
  - intros Habs. exfalso. rewrite Qabs_neg in Habs by lra. lra.
  - intros Habs. exfalso. rewrite inject_Z_plus in Habs.
    change (inject_Z 1) with 1%Q in Habs. rewrite Qabs_pos in Habs by lra. lra.
Qed.

Lemma Qfloor_ge (q : Q) (k : Z) : (inject_Z k <= q)%Q → (k ≤ Qfloor q)%Z.
Proof. intros H. rewrite <- (Qfloor_Z k). by apply Qfloor_resp_le. Qed.

Lemma round_half_even_ge (q : Q) (k : Z) :
  (inject_Z k <= q)%Q → (k ≤ round_half_even q)%Z.
Proof.
  intros H%Qfloor_ge. destruct (round_half_even_cases q) as [[-> _]|[-> _]]; lia.
Qed.

Lemma round_half_even_le (q : Q) (k : Z) :
  (q <= inject_Z k)%Q → (round_half_even q ≤ k)%Z.
Proof.
  intros H. pose proof (Qfloor_le q) as Hlo.
  destruct (round_half_even_cases q) as [[-> _]|[-> Hhalf]].
  - rewrite Zle_Qle. lra.
  - assert (Qfloor q < k)%Z; [|lia]. rewrite Zlt_Qlt. lra.
Qed.

Lemma round_half_even_Z (k : Z) : round_half_even (inject_Z k) = k.
Proof.
  apply Z.le_antisymm.
  - apply round_half_even_le, Qle_refl.
  - apply round_half_even_ge, Qle_refl.
Qed.

(** A number less than one half away from an integer rounds to it. *)
Lemma round_half_even_near (q : Q) (k : Z) :
  (Qabs (q - inject_Z k) < 1 # 2)%Q → round_half_even q = k.
Proof.
  intros Hk. pose proof (round_half_even_error q) as Hr.
  apply Qabs_Qlt_condition in Hk. apply Qabs_Qle_condition in Hr.
  assert (inject_Z (round_half_even q) - inject_Z k < 1)%Q as H1 by lra.
  assert (inject_Z k - inject_Z (round_half_even q) < 1)%Q as H2 by lra.
  unfold Qminus in H1, H2. rewrite <- inject_Z_opp, <- inject_Z_plus in H1, H2.
  change 1%Q with (inject_Z 1) in H1, H2. rewrite <- Zlt_Qlt in H1, H2. lia.
Qed.

Lemma round_half_even_mono (q1 q2 : Q) :
  (q1 <= q2)%Q → (round_half_even q1 ≤ round_half_even q2)%Z.
Proof.
  intros Hle. pose proof (Qfloor_resp_le _ _ Hle) as Hf.
  destruct (Z.eq_dec (Qfloor q1) (Qfloor q2)) as [Heq|Hne].
  - unfold round_half_even. rewrite Heq.
    destruct (Qcompare_spec (q1 - inject_Z (Qfloor q2)) (1 # 2)) as [He|Hl|Hg];
      destruct (Qcompare_spec (q2 - inject_Z (Qfloor q2)) (1 # 2)) as [He'|Hl'|Hg'];
      try lia; try (exfalso; lra); destruct (Z.even (Qfloor q2)); lia.
  - destruct (round_half_even_cases q1) as [[-> _]|[-> _]];
      destruct (round_half_even_cases q2) as [[-> _]|[-> _]]; lia.
Qed.

(** ** Floating-point numbers *)

Lemma Qpow2_pos (e : Z) : (0 < 2 ^ e)%Q.
Proof. by apply Qpower_0_lt. Qed.

Lemma Qpow2_succ (e : Z) : (2 ^ (e + 1) == 2 * 2 ^ e)%Q.
Proof. rewrite Qpower_plus by done. change (2 ^ 1)%Q with 2%Q. ring. Qed.

Lemma Qpow2_le (n m : Z) : (n ≤ m)%Z → (2 ^ n <= 2 ^ m)%Q.
Proof. intros. by apply Qpower_le_compat_l. Qed.

Lemma Qpow2_lt (n m : Z) : (n < m)%Z → (2 ^ n < 2 ^ m)%Q.
Proof. intros. by apply Qpower_lt_compat_l. Qed.

Lemma Qpow2_Z (n : Z) : (0 ≤ n)%Z → (2 ^ n == inject_Z (2 ^ n))%Q.
Proof. intros. by rewrite Zpower_Qpower. Qed.

(** [Qlog2 q] is the exponent of the binade of a positive [q]. *)
Lemma Qlog2_spec (q : Q) :
  (0 < q)%Q → (2 ^ Qlog2 q <= q)%Q ∧ (q < 2 ^ (Qlog2 q + 1))%Q.
Proof.
  intros Hq. destruct q as [n d]. unfold Qlog2. cbn [Qnum Qden].
  assert (0 < n)%Z as Hn by (unfold Qlt in Hq; cbn in Hq; lia).
  destruct (Z.log2_spec n Hn) as [Hn1 Hn2].
  destruct (Z.log2_spec (Z.pos d) (Pos2Z.is_pos d)) as [Hd1 Hd2].
  pose proof (Z.log2_nonneg n) as Ha. pose proof (Z.log2_nonneg (Z.pos d)) as Hb.
  set (a := Z.log2 n) in *. set (b := Z.log2 (Z.pos d)) in *.
  assert (n # d == inject_Z n / inject_Z (Z.pos d))%Q as Hnd
    by (rewrite (Qmake_Qdiv n d); reflexivity).
  assert (0 < inject_Z (Z.pos d))%Q as Hdpos by (by rewrite <- (Zlt_Qlt 0)).
  assert (2 ^ a <= inject_Z n)%Q as Hn1'
    by (rewrite Qpow2_Z by done; by rewrite <- Zle_Qle).
  assert (inject_Z n < 2 ^ Z.succ a)%Q as Hn2'
    by (rewrite Qpow2_Z by lia; by rewrite <- Zlt_Qlt).
  assert (2 ^ b <= inject_Z (Z.pos d))%Q as Hd1'
    by (rewrite Qpow2_Z by done; by rewrite <- Zle_Qle).
  assert (inject_Z (Z.pos d) < 2 ^ Z.succ b)%Q as Hd2'
    by (rewrite Qpow2_Z by lia; by rewrite <- Zlt_Qlt).
  clear Hn1 Hn2 Hd1 Hd2.
  assert (n # d < 2 ^ (a - b + 1))%Q as Hup.
  { rewrite Hnd. apply Qlt_shift_div_r; [done|].
    apply Qlt_le_trans with (2 ^ Z.succ a)%Q; [done|].
    replace (Z.succ a) with ((a - b + 1) + b)%Z by lia.
    rewrite (Qpower_plus 2 (a - b + 1) b) by done.
    apply Qmult_le_l; [apply Qpow2_pos | done]. }
  assert (2 ^ (a - b - 1) <= n # d)%Q as Hlo.
  { rewrite Hnd. apply Qle_shift_div_l; [done|].
    apply Qle_trans with (2 ^ a)%Q; [|done].
    replace a with ((a - b - 1) + Z.succ b)%Z at 2 by lia.
    rewrite (Qpower_plus 2 (a - b - 1) (Z.succ b)) by done.
    apply Qmult_le_l; [apply Qpow2_pos | by apply Qlt_le_weak]. }
  destruct (Qle_bool (2 ^ (a - b)) (n # d)) eqn:Hc.
  - apply Qle_bool_iff in Hc. done.
  - split; [done|]. replace (a - b - 1 + 1)%Z with (a - b)%Z by lia.
    apply Qnot_le_lt. intros Hle. apply Qle_bool_iff in Hle. congruence.
Qed.

Lemma Qlog2_ge (q : Q) (k : Z) : (0 < q)%Q → (2 ^ k <= q)%Q → (k ≤ Qlog2 q)%Z.
Proof.
  intros Hq Hk. destruct (Qlog2_spec q Hq) as [_ Hup].
  assert (k < Qlog2 q + 1)%Z; [|lia].
  apply (Qpower_lt_compat_l_inv 2); [|done]. by apply Qle_lt_trans with q.
Qed.

Lemma Qlog2_lt (q : Q) (k : Z) : (0 < q)%Q → (q < 2 ^ k)%Q → (Qlog2 q < k)%Z.
Proof.
  intros Hq Hk. destruct (Qlog2_spec q Hq) as [Hlo _].
  apply (Qpower_lt_compat_l_inv 2); [|done]. by apply Qle_lt_trans with q.
Qed.

Lemma Qlog2_proper_pos (q1 q2 : Q) :
  (0 < q1)%Q → (q1 == q2)%Q → Qlog2 q1 = Qlog2 q2.
Proof.
  intros H1 Heq. assert (0 < q2)%Q as H2 by (by rewrite <- Heq).
  destruct (Qlog2_spec q1 H1) as [Hlo1 Hup1].
  destruct (Qlog2_spec q2 H2) as [Hlo2 Hup2].
  apply Z.le_antisymm.
  - apply Qlog2_ge; [done|]. by rewrite <- Heq.
  - apply Qlog2_ge; [done|]. by rewrite Heq.
Qed.

Lemma Qabs_lt_0 (q : Q) : ¬ (q == 0)%Q → (0 < Qabs q)%Q.
Proof.
  intros Hn0. apply Qabs_case; intros Hq.
  - apply Qle_lteq in Hq as [Hlt|Heq]; [done|]. by destruct Hn0.
  - apply Qle_lteq in Hq as [Hlt|Heq]; [lra | by destruct Hn0].
Qed.

Lemma ulp_exp_pos (q : Q) :
  (0 < q)%Q → ulp_exp q = Z.max (Qlog2 q - 52) (-1074).
Proof.
  intros Hq. unfold ulp_exp. f_equal. f_equal.
  apply Qlog2_proper_pos; [|apply Qabs_pos; lra].
  apply Qabs_lt_0. intros H0. rewrite H0 in Hq. by apply Qlt_irrefl in Hq.
Qed.

Lemma fl_unfold (q : Q) :
  fl q = (inject_Z (round_half_even (q / 2 ^ ulp_exp q)) * 2 ^ ulp_exp q)%Q.
Proof. reflexivity. Qed.

Lemma fl_0 (q : Q) : (q == 0)%Q → (fl q == 0)%Q.
Proof.
  intros Hq. rewrite fl_unfold. generalize (ulp_exp q). intros s.
  assert (q / 2 ^ s == inject_Z 0)%Q as ->.
  { rewrite Hq. unfold Qdiv. change (inject_Z 0) with 0%Q. ring. }
  rewrite round_half_even_Z. change (inject_Z 0) with 0%Q. ring.
Qed.

Global Instance fl_proper : Proper (Qeq ==> Qeq) fl.
Proof.
  intros q1 q2 Hq. destruct (Qeq_dec q1 0) as [H0|Hn0].
  - rewrite (fl_0 q1 H0), (fl_0 q2); [done|]. by rewrite <- Hq.
  - rewrite !fl_unfold. unfold ulp_exp.
    assert (Qlog2 (Qabs q1) = Qlog2 (Qabs q2)) as ->.
    { apply Qlog2_proper_pos; [by apply Qabs_lt_0 | by rewrite Hq]. }
    by rewrite Hq.
Qed.

Lemma fl_nonneg (q : Q) : (0 <= q)%Q → (0 <= fl q)%Q.
Proof.
  intros Hq. rewrite fl_unfold. apply Qmult_le_0_compat; [|apply Qlt_le_weak, Qpow2_pos].
  change 0%Q with (inject_Z 0). rewrite <- Zle_Qle. apply round_half_even_ge.
  change (inject_Z 0) with 0%Q. apply Qle_shift_div_l; [apply Qpow2_pos | lra].
Qed.

Lemma fl_nonpos (q : Q) : (q <= 0)%Q → (fl q <= 0)%Q.
Proof.
  intros Hq. rewrite fl_unfold.
  assert (inject_Z (round_half_even (q / 2 ^ ulp_exp q)) <= 0)%Q as Hr.
  { change 0%Q with (inject_Z 0). rewrite <- Zle_Qle. apply round_half_even_le.
    change (inject_Z 0) with 0%Q. apply Qle_shift_div_r; [apply Qpow2_pos | lra]. }
  pose proof (Qpow2_pos (ulp_exp q)). nra.
Qed.

(** Rounding to nearest is off by at most half a unit in the last place. *)
Lemma fl_error (q : Q) : (Qabs (fl q - q) <= 2 ^ (ulp_exp q - 1))%Q.
Proof.
  rewrite fl_unfold. set (s := ulp_exp q).
  pose proof (round_half_even_error (q / 2 ^ s)) as Hr.
  pose proof (Qpow2_pos s) as Hs.
  assert (2 ^ (s - 1) == (1 # 2) * 2 ^ s)%Q as ->.
  { rewrite Qpower_minus by done. change (2 ^ 1)%Q with 2%Q. field. }
  assert (inject_Z (round_half_even (q / 2 ^ s)) * 2 ^ s - q
          == (inject_Z (round_half_even (q / 2 ^ s)) - q / 2 ^ s) * 2 ^ s)%Q as ->.
  { field. intros H0. rewrite H0 in Hs. by apply Qlt_irrefl in Hs. }
  rewrite Qabs_Qmult, (Qabs_pos (2 ^ s)) by (by apply Qlt_le_weak).
  apply Qmult_le_compat_r; [done | by apply Qlt_le_weak].
Qed.

(** Numbers below 4 are rounded with an error of at most [2 ^ -52]. *)
Lemma fl_error_small (q : Q) :
  (Qabs q < 4)%Q → (Qabs (fl q - q) <= 2 ^ (-52))%Q.
Proof.
  intros Hq. destruct (Qeq_dec q 0) as [H0|Hn0].
  - rewrite (fl_0 q H0), H0. by vm_compute.
  - apply Qle_trans with (2 ^ (ulp_exp q - 1))%Q; [apply fl_error|].
    apply Qpow2_le. unfold ulp_exp.
    pose proof (Qabs_lt_0 q Hn0) as Hpos.
    pose proof (Qlog2_lt (Qabs q) 2 Hpos Hq). lia.
Qed.

(** Rounding does not cross a power of two. *)
Lemma fl_ge_pow2 (q : Q) (k : Z) :
  (-1074 ≤ k)%Z → (2 ^ k <= q)%Q → (2 ^ k <= fl q)%Q.
Proof.
  intros Hk Hq. pose proof (Qpow2_pos k) as Hkpos.
  assert (0 < q)%Q as Hpos by lra.
  rewrite fl_unfold, (ulp_exp_pos q) by done.
  pose proof (Qlog2_ge q k Hpos Hq) as He.
  destruct (Qlog2_spec q Hpos) as [Hlo _].
  set (e := Qlog2 q) in *. set (s := Z.max (e - 52) (-1074)).
  assert (s ≤ e)%Z as Hse by lia.
  pose proof (Qpow2_pos s) as Hs.
  assert (2 ^ (e - s) <= q / 2 ^ s)%Q as Hq'.
  { rewrite Qpower_minus by done. unfold Qdiv.
    apply Qmult_le_compat_r; [done|]. apply Qlt_le_weak, Qinv_lt_0_compat, Hs. }
  rewrite (Qpow2_Z (e - s)) in Hq' by lia. change (inject_Z 2) with 2%Q in Hq'.
  apply round_half_even_ge in Hq'. rewrite Zle_Qle in Hq'.
  rewrite <- (Qpow2_Z (e - s)) in Hq' by lia.
  apply Qle_trans with (2 ^ e)%Q; [by apply Qpow2_le|].
  apply Qle_trans with (2 ^ (e - s) * 2 ^ s)%Q.
  - rewrite <- Qpower_plus by done. replace (e - s + s)%Z with e by lia.
    apply Qle_refl.
  - apply Qmult_le_compat_r; [done | by apply Qlt_le_weak].
Qed.

Lemma fl_le_pow2 (q : Q) (k : Z) :
  (-1074 ≤ k)%Z → (0 < q)%Q → (q <= 2 ^ k)%Q → (fl q <= 2 ^ k)%Q.
Proof.
  intros Hk Hpos Hq. rewrite fl_unfold, (ulp_exp_pos q) by done.
  destruct (Qlog2_spec q Hpos) as [Hlo _].
  assert (Qlog2 q ≤ k)%Z as He.
  { apply (Qpower_le_compat_l_inv 2); [|done]. by apply Qle_trans with q. }
  set (e := Qlog2 q) in *. set (s := Z.max (e - 52) (-1074)).
  assert (s ≤ k)%Z as Hsk by lia.
  pose proof (Qpow2_pos s) as Hs.
  assert (q / 2 ^ s <= 2 ^ (k - s))%Q as Hq'.
  { rewrite Qpower_minus by done. unfold Qdiv.
    apply Qmult_le_compat_r; [done|]. apply Qlt_le_weak, Qinv_lt_0_compat, Hs. }
  rewrite (Qpow2_Z (k - s)) in Hq' by lia. change (inject_Z 2) with 2%Q in Hq'.
  apply round_half_even_le in Hq'. rewrite Zle_Qle in Hq'.
  rewrite <- (Qpow2_Z (k - s)) in Hq' by lia.
  apply Qle_trans with (2 ^ (k - s) * 2 ^ s)%Q.
  - apply Qmult_le_compat_r; [done | by apply Qlt_le_weak].
  - rewrite <- Qpower_plus by done. replace (k - s + s)%Z with k by lia.
    apply Qle_refl.
Qed.

(** Rounding to nearest is monotone (stated for normal numbers). *)
Lemma fl_mono (x y : Q) :
  (2 ^ (-1022) <= x)%Q → (x <= y)%Q → (fl x <= fl y)%Q.
Proof.
  intros Hx Hxy. pose proof (Qpow2_pos (-1022)) as Hmin.
  assert (0 < x)%Q as Hxpos by lra. assert (0 < y)%Q as Hypos by lra.
  destruct (Qlog2_spec x Hxpos) as [Hxlo Hxup].
  destruct (Qlog2_spec y Hypos) as [Hylo Hyup].
  pose proof (Qlog2_ge x (-1022) Hxpos Hx) as Hex.
  assert (Qlog2 x ≤ Qlog2 y)%Z as Hexy.
  { apply Qlog2_ge; [done|]. by apply Qle_trans with x. }
  destruct (Z.eq_dec (Qlog2 x) (Qlog2 y)) as [Heq|Hne].
  - rewrite !fl_unfold, !ulp_exp_pos by done. rewrite Heq.
    set (s := Z.max (Qlog2 y - 52) (-1074)). pose proof (Qpow2_pos s) as Hs.
    apply Qmult_le_compat_r; [|by apply Qlt_le_weak].
    rewrite <- Zle_Qle. apply round_half_even_mono. unfold Qdiv.
    apply Qmult_le_compat_r; [done|]. apply Qlt_le_weak, Qinv_lt_0_compat, Hs.
  - apply Qle_trans with (2 ^ (Qlog2 x + 1))%Q.
    + apply fl_le_pow2; [lia | done | by apply Qlt_le_weak].
    + apply fl_ge_pow2; [lia|]. apply Qle_trans with (2 ^ Qlog2 y)%Q; [|done].
      apply Qpow2_le. lia.
Qed.

(** ** The fitness score *)

Global Instance py_round_proper n : Proper (Qeq ==> Qeq) (λ q, py_round q n).
Proof. intros q1 q2 Hq. unfold py_round. by rewrite Hq. Qed.

Lemma fl_exact_0 : (fl 0 == 0)%Q.
Proof. by apply fl_0. Qed.

Lemma fl_exact_1 : (fl 1 == 1)%Q.
Proof. by vm_compute. Qed.

(** Rounding is monotone on the hundredths between 0 and 1. *)
Lemma fl_hundredths_le (a b : Z) :
  (0 ≤ a)%Z → (a ≤ b)%Z → (fl (inject_Z a / 100) <= fl (inject_Z b / 100))%Q.
Proof.
  intros Ha Hab. destruct (Z.eq_dec a 0%Z) as [->|Hne].
  - rewrite (fl_0 (inject_Z 0 / 100)) by done. apply fl_nonneg.
    apply Qle_shift_div_l; [done|]. rewrite Qmult_0_l.
    change 0%Q with (inject_Z 0). rewrite <- Zle_Qle. lia.
  - apply fl_mono.
    + apply Qle_trans with (1 / 100)%Q; [by vm_compute|].
      unfold Qdiv. apply Qmult_le_compat_r; [|done].
      change 1%Q with (inject_Z 1). rewrite <- Zle_Qle. lia.
    + unfold Qdiv. apply Qmult_le_compat_r; [|done]. by rewrite <- Zle_Qle.
Qed.

Lemma fl_hundredths_le_1 (a : Z) :
  (a ≤ 100)%Z → (fl (inject_Z a / 100) <= 1)%Q.
Proof.
  intros Ha. destruct (Z.le_gt_cases a 0%Z) as [Hle|Hgt].
  - apply Qle_trans with 0%Q; [|done]. apply fl_nonpos.
    apply Qle_shift_div_r; [done|]. rewrite Qmult_0_l.
    change 0%Q with (inject_Z 0). rewrite <- Zle_Qle. lia.
  - apply (fl_le_pow2 _ 0); [lia | |].
    + apply Qlt_shift_div_l; [done|]. rewrite Qmult_0_l.
      change 0%Q with (inject_Z 0). rewrite <- Zlt_Qlt. lia.
    + apply Qle_shift_div_r; [done|]. change (2 ^ 0 * 100)%Q with (inject_Z 100).
      by rewrite <- Zle_Qle.
Qed.

(** The entries of the class table against the exact hundredths. *)
Lemma class_penalty_points (self : ConformanceChecker) (sev : Severity) :
  SEVERITY_PENALTIES self = ConformanceChecker_SEVERITY_PENALTIES →
  severity_penalty self sev = fl (inject_Z (penalty_points sev) / 100).
Proof. intros Htable. unfold severity_penalty. rewrite Htable. by destruct sev. Qed.

Lemma class_penalty_close (sev : Severity) :
  (Qabs (fl (inject_Z (penalty_points sev) / 100)
         - inject_Z (penalty_points sev) / 100) <= 2 ^ (-52))%Q ∧
  (0 <= fl (inject_Z (penalty_points sev) / 100))%Q.
Proof. destruct sev; by vm_compute. Qed.

Lemma penalty_points_pos sev : (0 < penalty_points sev)%Z.
Proof. by destruct sev. Qed.

Lemma penalty_points_le sev : (penalty_points sev ≤ 30)%Z.
Proof. by destruct sev. Qed.

Lemma total_points_nonneg devs : (0 ≤ total_points devs)%Z.
Proof.
  induction devs as [|d devs IH]; simpl; [done|].
  pose proof (penalty_points_pos (severity d)). lia.
Qed.

Lemma total_points_app devs1 devs2 :
  total_points (devs1 ++ devs2) = (total_points devs1 + total_points devs2)%Z.
Proof. induction devs1 as [|d devs1 IH]; simpl; lia. Qed.

Lemma total_points_counts devs :
  (inject_Z (total_points devs) ==
   30 * count_severity CRITICAL devs + 15 * count_severity MAJOR devs
   + 5 * count_severity MINOR devs + 1 * count_severity INFO devs)%Q.
Proof.
  unfold count_severity. induction devs as [|d devs IH]; simpl; [reflexivity|].
  rewrite inject_Z_plus, IH, !filter_cons.
  destruct (severity d); repeat case_decide; try congruence;
    simpl length; rewrite ?Nat2Z.inj_succ, <- ?Z.add_1_r, ?inject_Z_plus;
    cbn [penalty_points]; ring.
Qed.

Lemma total_penalty_snoc (self : ConformanceChecker) devs d :
  total_penalty self (devs ++ [d])
  = fl (total_penalty self devs + severity_penalty self (severity d)).
Proof. unfold total_penalty. by rewrite foldl_app. Qed.

(** The float sum of the class penalties: while the exact sum is at most 2 it
    is off by at most [2 ^ -50] per hundredth, and once the exact sum exceeds
    1 it is at least 1. *)
Lemma total_penalty_close (self : ConformanceChecker) devs :
  SEVERITY_PENALTIES self = ConformanceChecker_SEVERITY_PENALTIES →
  ((total_points devs ≤ 200)%Z →
   (Qabs (total_penalty self devs - inject_Z (total_points devs) / 100)
    <= inject_Z (total_points devs) * 2 ^ (-50))%Q) ∧
  ((100 < total_points devs)%Z → (1 <= total_penalty self devs)%Q).
Proof.
  intros Htable. induction devs as [|d devs [IH1 IH2]] using rev_ind.
  { split; [intros _; by vm_compute | by cbn]. }
  rewrite total_points_app, total_penalty_snoc, (class_penalty_points _ _ Htable).
  cbn [total_points foldr]. rewrite Z.add_0_r.
  pose proof (total_points_nonneg devs) as Hnn.
  pose proof (penalty_points_pos (severity d)) as Hpos.
  pose proof (penalty_points_le (severity d)) as Hle.
  destruct (class_penalty_close (severity d)) as [Hpen Hpen0].
  set (P := total_points devs) in *. set (p := penalty_points (severity d)) in *.
  set (t := total_penalty self devs) in *.
  set (pen := fl (inject_Z p / 100)) in *.
  change (2 ^ (-52))%Q with (1 # 4503599627370496)%Q in Hpen.
  change (2 ^ (-50))%Q with (1 # 1125899906842624)%Q in *.
  clearbody pen t. unfold Qdiv in *. change (/ 100)%Q with (1 # 100)%Q in *.
  assert ((P + p ≤ 200)%Z →
          (Qabs (fl (t + pen) - inject_Z (P + p) * (1 # 100))
           <= inject_Z (P + p) * (1 # 1125899906842624))%Q) as Hclose.
  { intros Hsmall. specialize (IH1 ltac:(lia)).
    assert (0 <= inject_Z P <= 200)%Q as [HP0 HP200].
    { change 0%Q with (inject_Z 0). change 200%Q with (inject_Z 200).
      rewrite <- !Zle_Qle. lia. }
    assert (1 <= inject_Z p <= 30)%Q as [Hp1 Hp30].
    { change 1%Q with (inject_Z 1). change 30%Q with (inject_Z 30).
      rewrite <- !Zle_Qle. lia. }
    apply Qabs_Qle_condition in IH1, Hpen.
    assert (Qabs (t + pen) < 4)%Q as Hlt4.
    { apply Qabs_Qlt_condition. split; lra. }
    pose proof (fl_error_small _ Hlt4) as Herr.
    change (2 ^ (-52))%Q with (1 # 4503599627370496)%Q in Herr.
    apply Qabs_Qle_condition in Herr.
    rewrite inject_Z_plus. apply Qabs_Qle_condition. split; lra. }
  split; [done|]. intros Hbig.
  destruct (Z.le_gt_cases P 100%Z) as [HP|HP].
  - specialize (Hclose ltac:(lia)). apply Qabs_Qle_condition in Hclose.
    assert (101 <= inject_Z (P + p) <= 130)%Q as [H101 H130].
    { change 101%Q with (inject_Z 101). change 130%Q with (inject_Z 130).
      rewrite <- !Zle_Qle. lia. }
    lra.
  - specialize (IH2 ltac:(lia)). apply (fl_ge_pow2 _ 0); [lia|].
    change (2 ^ 0)%Q with 1%Q. lra.
Qed.

(** The fitness of a checker that uses the class table, in closed form: the
    float nearest to the exact score. *)
Lemma calculate_fitness_points (self : ConformanceChecker) devs :
  SEVERITY_PENALTIES self = ConformanceChecker_SEVERITY_PENALTIES →
  (_calculate_fitness self devs
   == fl (inject_Z (Z.max 0 (100 - total_points devs)) / 100))%Q.
Proof.
  intros Htable. destruct devs as [|d devs]; [by vm_compute|].
  unfold _calculate_fitness.
  destruct (total_penalty_close self (d :: devs) Htable) as [H1 H2].
  pose proof (total_points_nonneg (d :: devs)) as Hnn.
  set (P := total_points (d :: devs)) in *.
  set (t := total_penalty self (d :: devs)) in *.
  change (2 ^ (-50))%Q with (1 # 1125899906842624)%Q in *.
  clearbody t. unfold Qdiv in H1. change (/ 100)%Q with (1 # 100)%Q in H1.
  destruct (Z.le_gt_cases P 100%Z) as [HP|HP].
  - specialize (H1 ltac:(lia)). rewrite Z.max_r by lia.
    assert (0 <= inject_Z P <= 100)%Q as [HP0 HP100].
    { change 0%Q with (inject_Z 0). change 100%Q with (inject_Z 100).
      rewrite <- !Zle_Qle. lia. }
    apply Qabs_Qle_condition in H1.
    assert (Qabs (1 - t) < 4)%Q as Hlt4.
    { apply Qabs_Qlt_condition. split; lra. }
    pose proof (fl_error_small _ Hlt4) as Herr.
    change (2 ^ (-52))%Q with (1 # 4503599627370496)%Q in Herr.
    apply Qabs_Qle_condition in Herr.
    unfold py_round. change (10 ^ Z.of_nat 4)%Z with 10000%Z.
    assert (round_half_even (Qmax 0 (fl (1 - t)) * inject_Z 10000)
            = (100 * (100 - P))%Z) as ->.
    { apply round_half_even_near. unfold Z.sub.
      rewrite inject_Z_mult, inject_Z_plus, inject_Z_opp.
      change (inject_Z 100) with 100%Q. change (inject_Z 10000) with 10000%Q.
      apply Qabs_Qlt_condition.
      destruct (Q.max_spec 0 (fl (1 - t))) as [[Hm ->]|[Hm ->]]; split; lra. }
    apply fl_proper. rewrite inject_Z_mult.
    change (inject_Z 100) with 100%Q. change (inject_Z 10000) with 10000%Q. field.
  - specialize (H2 HP). rewrite Z.max_l by lia.
    assert (fl (1 - t) <= 0)%Q as Hneg by (apply fl_nonpos; lra).
    rewrite (py_round_proper 4 _ 0%Q).
    + by vm_compute.
    + by apply Q.max_l.
Qed.

(** C1: the fitness of an empty deviation list is exactly 1.0.  Otherwise
    [total_penalty] starts at 0.0 and grows by the penalty of each deviation
    in turn (a float addition), the penalty of a severity without an entry in
    the table being 0.10; the score [1.0 - total_penalty] is clamped at 0.0
    and rounded to four decimals: the result is the float nearest to [k /
    10000] for the integer [k] that makes [k / 10000] nearest to the clamped
    score, the even one of two nearest.  Under the class table Critical costs
    0.30, Major 0.15, Minor 0.05 and Info 0.01, and the result is the float
    nearest to the exact score: the rounding removes what the float sum is
    off by. *)
Theorem calculate_fitness_spec (self : ConformanceChecker) (devs : list Deviation) :
  _calculate_fitness self [] = 1%Q ∧
  total_penalty self [] = 0%Q ∧
  (∀ d, total_penalty self (devs ++ [d])
        = fl (total_penalty self devs + severity_penalty self (severity d))) ∧
  (∀ sev, dict_get sev (SEVERITY_PENALTIES self) = None →
          severity_penalty self sev = fl (1 # 10)) ∧
  (float_penalties (SEVERITY_PENALTIES self) → devs ≠ [] →
   let clamped := Qmax 0 (fl (1 - total_penalty self devs)) in
   ∃ k : Z,
     (_calculate_fitness self devs == fl (inject_Z k / 10000))%Q ∧
     (Qabs (inject_Z k / 10000 - clamped) <= 1 # 20000)%Q ∧
     ((Qabs (inject_Z k / 10000 - clamped) == 1 # 20000)%Q → Z.even k = true)) ∧
  (SEVERITY_PENALTIES self = ConformanceChecker_SEVERITY_PENALTIES →
   severity_penalty self CRITICAL = fl (30 # 100) ∧
   severity_penalty self MAJOR = fl (15 # 100) ∧
   severity_penalty self MINOR = fl (5 # 100) ∧
   severity_penalty self INFO = fl (1 # 100) ∧
   (_calculate_fitness self devs
    == fl (Qmax 0 (1 - (30 # 100) * count_severity CRITICAL devs
                     - (15 # 100) * count_severity MAJOR devs
                     - (5 # 100) * count_severity MINOR devs
                     - (1 # 100) * count_severity INFO devs)))%Q).
Proof.
  split; [reflexivity|]. split; [reflexivity|].
  split; [intros d; apply total_penalty_snoc|]. split; [|split].
  - intros sev Hsev. unfold severity_penalty. by rewrite Hsev.
  - intros _ Hne clamped.
    exists (round_half_even (clamped * inject_Z 10000)).
    pose proof (round_half_even_error (clamped * inject_Z 10000)) as Herr.
    pose proof (round_half_even_tie (clamped * inject_Z 10000)) as Htie.
    set (k := round_half_even (clamped * inject_Z 10000)) in *.
    assert (inject_Z k / 10000 - clamped
            == (inject_Z k - clamped * inject_Z 10000) * (1 # 10000))%Q as Heq.
    { change (inject_Z 10000) with 10000%Q. field. }
    assert (Qabs (inject_Z k / 10000 - clamped)
            == Qabs (inject_Z k - clamped * inject_Z 10000) * (1 # 10000))%Q as Habs.
    { rewrite Heq, Qabs_Qmult. reflexivity. }
    split; [|split].
    + destruct devs; [done|]. reflexivity.
    + rewrite Habs. lra.
    + intros Hhalf. apply Htie. rewrite Habs in Hhalf. lra.
  - intros Htable. unfold severity_penalty. rewrite Htable.
    do 4 (split; [reflexivity|]). fold (severity_penalty self).
    rewrite (calculate_fitness_points _ _ Htable). apply fl_proper.
    pose proof (total_points_counts devs) as Hc.
    pose proof (total_points_nonneg devs) as Hnn.
    destruct (Z.le_gt_cases (total_points devs) 100%Z) as [HP|HP].
    + rewrite Z.max_r by lia. rewrite Zle_Qle in HP.
      change (inject_Z 100) with 100%Q in HP.
      rewrite Q.max_r by lra. unfold Z.sub.
      rewrite inject_Z_plus, inject_Z_opp, Hc. field.
    + rewrite Z.max_l by lia. rewrite Zlt_Qlt in HP.
      change (inject_Z 100) with 100%Q in HP.
      rewrite Q.max_l by lra. reflexivity.
Qed.

Lemma calculate_fitness_spec_witness :
  (_calculate_fitness o2c_checker
     [deviation_of SKIPPED_ACTIVITY CRITICAL "OrderCreated";
      deviation_of MISSING_ACTIVITY CRITICAL "OrderCreated";
      deviation_of INVALID_START CRITICAL "DeliveryCreated"] == fl (10 # 100))%Q ∧
  ¬ (Qmax 0 (fl (1 - total_penalty o2c_checker
       [deviation_of SKIPPED_ACTIVITY CRITICAL "OrderCreated";
        deviation_of MISSING_ACTIVITY CRITICAL "OrderCreated";
        deviation_of INVALID_START CRITICAL "DeliveryCreated"]))
     == fl (10 # 100))%Q.
Proof.
  split; [|by vm_compute].
  destruct (calculate_fitness_spec o2c_checker
    [deviation_of SKIPPED_ACTIVITY CRITICAL "OrderCreated";
     deviation_of MISSING_ACTIVITY CRITICAL "OrderCreated";
     deviation_of INVALID_START CRITICAL "DeliveryCreated"])
    as (_ & _ & _ & _ & _ & Hclass).
  destruct (Hclass eq_refl) as (_ & _ & _ & _ & ->). reflexivity.
Defined.

(** C6: under the class table, appending a deviation never raises the
    fitness, and the fitness always lies between 0 and 1. *)
Theorem fitness_monotone_and_bounded (self : ConformanceChecker)
    (devs : list Deviation) (d : Deviation) :
  SEVERITY_PENALTIES self = ConformanceChecker_SEVERITY_PENALTIES →
  (_calculate_fitness self (devs ++ [d]) <= _calculate_fitness self devs)%Q ∧
  (0 <= _calculate_fitness self devs)%Q ∧
  (_calculate_fitness self devs <= 1)%Q.
Proof.
  intros Htable. rewrite !(calculate_fitness_points _ _ Htable).
  pose proof (total_points_nonneg devs) as Hnn.
  pose proof (penalty_points_pos (severity d)) as Hpos.
  split; [|split].
  - apply fl_hundredths_le; [lia|]. rewrite total_points_app. simpl. lia.
  - apply fl_nonneg. apply Qle_shift_div_l; [done|]. rewrite Qmult_0_l.
    change 0%Q with (inject_Z 0). rewrite <- Zle_Qle. lia.
  - apply fl_hundredths_le_1. lia.
Qed.

Lemma fitness_monotone_and_bounded_witness :
  (_calculate_fitness o2c_checker
     ([deviation_of WRONG_ORDER MAJOR "GoodsIssued"]
      ++ [deviation_of INVALID_START CRITICAL "DeliveryCreated"])
   <= _calculate_fitness o2c_checker
        [deviation_of WRONG_ORDER MAJOR "GoodsIssued"])%Q.
Proof.
  exact (proj1 (fitness_monotone_and_bounded o2c_checker
                  [deviation_of WRONG_ORDER MAJOR "GoodsIssued"]
                  (deviation_of INVALID_START CRITICAL "DeliveryCreated")
                  eq_refl)).
Defined.

(** ** Sorting *)

Section SortFacts.
Context {A K : Type} (rank : K → nat) (key : A → K).

Local Abbreviation lt := (λ a b : K, rank a <? rank b).
Local Abbreviation before := (λ x y : A, rank (key x) ≤ rank (key y)).

Lemma insert_by_key_perm x l : insert_by_key lt key x l ≡ₚ x :: l.
Proof.
  induction l as [|y l IH]; simpl; [done|].
  destruct (lt (key y) (key x)); [|done].
  rewrite IH. apply Permutation_swap.
Qed.

Lemma sort_by_key_perm l : sort_by_key lt key l ≡ₚ l.
Proof.
  induction l as [|x l IH]; simpl; [done|].
  unfold sort_by_key in *. by rewrite insert_by_key_perm, IH.
Qed.

Lemma insert_by_key_sorted x l :
  StronglySorted before l → StronglySorted before (insert_by_key lt key x l).
Proof.
  induction l as [|y l IH]; simpl; intros Hs.
  - repeat constructor.
  - apply StronglySorted_inv in Hs as [Hs Hy].
    destruct (Nat.ltb_spec (rank (key y)) (rank (key x))) as [Hlt|Hge].
    + constructor; [by apply IH|].
      rewrite insert_by_key_perm. constructor; [lia | done].
    + constructor; [by constructor|].
      constructor; [done|].
      eapply Forall_impl; [exact Hy|]. intros z Hz. simpl in *. lia.
Qed.

Lemma sort_by_key_sorted l : StronglySorted before (sort_by_key lt key l).
Proof.
  induction l as [|x l IH]; simpl; [constructor|].
  by apply insert_by_key_sorted.
Qed.

(** Stability: the elements of one rank keep their order. *)
Lemma insert_by_key_stable (k : nat) x l :
  filter (λ a, rank (key a) = k) (insert_by_key lt key x l)
  = filter (λ a, rank (key a) = k) (x :: l).
Proof.
  induction l as [|y l IH]; simpl; [done|].
  destruct (Nat.ltb_spec (rank (key y)) (rank (key x))) as [Hlt|Hge]; [|done].
  rewrite (filter_cons _ y), IH, !filter_cons.
  repeat case_decide; try done; lia.
Qed.

Lemma sort_by_key_stable (k : nat) l :
  filter (λ a, rank (key a) = k) (sort_by_key lt key l)
  = filter (λ a, rank (key a) = k) l.
Proof.
  induction l as [|x l IH]; simpl; [done|].
  rewrite insert_by_key_stable, !filter_cons. fold (sort_by_key lt key l).
  by rewrite IH.
Qed.
End SortFacts.

Lemma StronglySorted_weaken {A} (R R' : A → A → Prop) l :
  (∀ x y, R x y → R' x y) → StronglySorted R l → StronglySorted R' l.
Proof.
  intros HR. induction 1 as [|x l _ IH Hx]; constructor; [done|].
  eapply Forall_impl; [exact Hx | apply HR].
Qed.

Lemma sort_by_key_ext {A K} (lt lt' : K → K → bool) (key : A → K) l :
  (∀ a b, lt a b = lt' a b) → sort_by_key lt key l = sort_by_key lt' key l.
Proof.
  intros Hext. induction l as [|x l IH]; simpl; [done|].
  unfold sort_by_key in *. rewrite IH. generalize (foldr (insert_by_key lt' key) [] l).
  intros l'. induction l' as [|y l' IH']; simpl; [done|].
  by rewrite Hext, IH'.
Qed.

(** ** The deviation detector and the checker *)

Lemma Severity_lt_order a b :
  Severity_lt a b = true ↔ Severity_order a < Severity_order b.
Proof. unfold Severity_lt. apply Nat.ltb_lt. Qed.

Lemma Severity_order_inj a b : Severity_order a = Severity_order b → a = b.
Proof. by destruct a, b. Qed.

Section Detector.
Variable set_iter : gset string → list string.
Variable fromisoformat : string → option datetime.

(** C5: [Severity.__lt__] is the strict total order
    Critical < Major < Minor < Info.  The result of [detect_deviations] is
    empty when the trace names no activity; otherwise it is a permutation of
    the concatenated outputs of the six passes, sorted by severity, in which
    the deviations of each severity keep the order the passes emitted them
    in. *)
Theorem detect_deviations_sorted_stable (self : DeviationDetector)
    (trace : list Event) (cid : string) :
  let activities := _extract_activities (detector_model self) trace in
  let emitted := detected_passes set_iter fromisoformat self activities trace cid in
  let out := detect_deviations set_iter fromisoformat self trace cid in
  (Severity_lt CRITICAL MAJOR = true ∧ Severity_lt MAJOR MINOR = true ∧
   Severity_lt MINOR INFO = true ∧
   (∀ a, Severity_lt a a = false) ∧
   (∀ a b c, Severity_lt a b = true → Severity_lt b c = true →
             Severity_lt a c = true) ∧
   (∀ a b, a ≠ b → Severity_lt a b = true ∨ Severity_lt b a = true)) ∧
  StronglySorted (λ d1 d2, Severity_lt (severity d2) (severity d1) = false) out ∧
  (activities = [] → out = []) ∧
  (activities ≠ [] →
   out ≡ₚ emitted ∧
   ∀ sev, filter (λ d, severity d = sev) out
          = filter (λ d, severity d = sev) emitted).
Proof.
  intros activities emitted out. split; [|split; [|split]].
  - repeat split; try done.
    + by intros [].
    + intros a b c. rewrite !Severity_lt_order. lia.
    + intros a b Hne. rewrite !Severity_lt_order.
      destruct (Nat.lt_trichotomy (Severity_order a) (Severity_order b))
        as [?|[Heq|?]]; [by left | | by right].
      by apply Severity_order_inj in Heq.
  - assert (∀ l, StronglySorted
             (λ d1 d2, Severity_lt (severity d2) (severity d1) = false)
             (sort_by_key Severity_lt severity l)) as Hsorted.
    { intros l.
      eapply (StronglySorted_weaken
                (λ d1 d2, Severity_order (severity d1) ≤ Severity_order (severity d2)));
        [|apply (sort_by_key_sorted Severity_order severity)].
      intros d1 d2 Hle. unfold Severity_lt. apply Nat.ltb_ge, Hle. }
    unfold out, detect_deviations. fold activities.
    destruct activities; [constructor | apply Hsorted].
  - intros Hnil. unfold out, detect_deviations. fold activities. by rewrite Hnil.
  - intros Hne. unfold out, detect_deviations. fold activities.
    destruct activities as [|a0 activities0] eqn:Hact; [done|].
    fold emitted. split.
    + apply (sort_by_key_perm Severity_order severity).
    + intros sev.
      pose proof (sort_by_key_stable Severity_order severity
                    (Severity_order sev) emitted) as Hst.
      erewrite (list_filter_iff _ (λ d, Severity_order (severity d) = Severity_order sev)).
      * erewrite (list_filter_iff (λ d, severity d = sev)
                   (λ d, Severity_order (severity d) = Severity_order sev) emitted).
        -- exact Hst.
        -- intros d. split; [by intros -> | apply Severity_order_inj].
      * intros d. split; [by intros -> | apply Severity_order_inj].
Qed.

(** C2: in strict mode a case is conformant exactly when no deviation was
    detected, in default mode exactly when no detected deviation is
    Critical; it is fully conformant exactly when no deviation was
    detected. *)
Theorem check_trace_conformance (self : ConformanceChecker)
    (trace : list Event) (cid : string) :
  let r := check_trace set_iter fromisoformat self trace cid in
  deviations r = detect_deviations set_iter fromisoformat (_detector self) trace cid ∧
  (is_fully_conformant r = true ↔ deviations r = []) ∧
  (_strict_mode self = true →
   (is_conformant r = true ↔ deviations r = [])) ∧
  (_strict_mode self = false →
   (is_conformant r = true ↔
    Forall (λ d, severity d ≠ CRITICAL) (deviations r))).
Proof.
  intros r. unfold r, check_trace. simpl.
  set (devs := detect_deviations _ _ _ _ _).
  split; [done|]. split; [|split].
  - rewrite Nat.eqb_eq. apply length_zero_iff_nil.
  - intros ->. rewrite Nat.eqb_eq. apply length_zero_iff_nil.
  - intros ->. rewrite Nat.eqb_eq, length_zero_iff_nil.
    induction devs as [|d devs IH].
    + split; [constructor | done].
    + rewrite filter_cons, Forall_cons. case_decide as Hd.
      * split; [done | intros [? _]; done].
      * rewrite IH. tauto.
Qed.
End Detector.

Lemma check_trace_conformance_witness :
  is_conformant (check_trace elements (λ _, None) o2c_checker
                   wrong_order_trace "case-1") = true ↔
  Forall (λ d, severity d ≠ CRITICAL)
    (deviations (check_trace elements (λ _, None) o2c_checker
                   wrong_order_trace "case-1")).
Proof.
  exact (proj2 (proj2 (proj2 (check_trace_conformance elements (λ _, None)
           o2c_checker wrong_order_trace "case-1"))) eq_refl).
Defined.

Lemma detect_deviations_sorted_stable_witness :
  detect_deviations elements (λ _, None) (_detector o2c_checker)
    wrong_order_trace "case-1"
  ≡ₚ detected_passes elements (λ _, None) (_detector o2c_checker)
       (_extract_activities o2c_linear wrong_order_trace)
       wrong_order_trace "case-1".
Proof.
  refine (proj1 (proj2 (proj2 (proj2 (detect_deviations_sorted_stable
            elements (λ _, None) (_detector o2c_checker)
            wrong_order_trace "case-1"))) _)).
  vm_compute. discriminate.
Defined.

(** ** The flat log *)

Lemma dict_set_absent {V} (d : dict string V) k v :
  dict_get k d = None → dict_set k v d = d ++ [(k, v)].
Proof.
  induction d as [|[k0 v0] d IH]; simpl; [done|].
  destruct (decide (k = k0)) as [->|Hne]; [done|].
  intros Hg. by rewrite IH.
Qed.

Lemma dict_set_set {V} (d : dict string V) k v v' :
  dict_set k v (dict_set k v' d) = dict_set k v d.
Proof.
  induction d as [|[k0 v0] d IH]; simpl.
  - by rewrite decide_True.
  - destruct (decide (k = k0)) as [->|Hne]; simpl.
    + by rewrite decide_True.
    + by rewrite decide_False, IH.
Qed.

Section MappedDict.
Context {V : Type}.
Implicit Types (f : string → V) (ks : list string).

Lemma dict_get_fmap_keys f ks k :
  dict_get k ((λ c, (c, f c)) <$> ks)
  = if decide (k ∈ ks) then Some (f k) else None.
Proof.
  induction ks as [|k0 ks IH].
  - rewrite decide_False; [done | apply not_elem_of_nil].
  - rewrite fmap_cons. cbn [dict_get].
    destruct (decide (k = k0)) as [->|Hne].
    + rewrite decide_True; [done | apply list_elem_of_here].
    + rewrite IH. destruct (decide (k ∈ ks)) as [Hin|Hnin].
      * rewrite decide_True; [done | by apply list_elem_of_further].
      * rewrite decide_False; [done|].
        by intros [?|?]%elem_of_cons.
Qed.

Lemma dict_set_fmap_present f ks k v :
  NoDup ks → k ∈ ks →
  dict_set k v ((λ c, (c, f c)) <$> ks)
  = (λ c, (c, if decide (c = k) then v else f c)) <$> ks.
Proof.
  induction ks as [|k0 ks IH]; simpl.
  - intros _ Hin. by apply elem_of_nil in Hin.
  - intros [Hk0 Hnd]%NoDup_cons Hin. destruct (decide (k = k0)) as [->|Hne].
    + rewrite decide_True by done. f_equal.
      apply list_fmap_ext. intros i c Hc. rewrite decide_False; [done|].
      intros ->. apply Hk0. by eapply list_elem_of_lookup_2.
    + rewrite (decide_False (P := k0 = k)) by done. f_equal.
      apply IH; [done|]. apply elem_of_cons in Hin as [?|?]; done.
Qed.
End MappedDict.

Lemma first_occurrences_snoc ids x :
  first_occurrences (ids ++ [x])
  = if decide (x ∈ first_occurrences ids) then first_occurrences ids
    else first_occurrences ids ++ [x].
Proof. unfold first_occurrences. by rewrite foldl_app. Qed.

Lemma elem_of_first_occurrences ids x : x ∈ first_occurrences ids ↔ x ∈ ids.
Proof.
  revert x. induction ids as [|y ids IH] using rev_ind; intros x; [done|].
  rewrite first_occurrences_snoc, elem_of_app, list_elem_of_singleton.
  case_decide as Hy; [|rewrite elem_of_app, list_elem_of_singleton]; rewrite IH.
  - apply IH in Hy. split; [by left | intros [?| ->]; done].
  - done.
Qed.

Lemma NoDup_first_occurrences ids : NoDup (first_occurrences ids).
Proof.
  induction ids as [|y ids IH] using rev_ind; [apply NoDup_nil_2|].
  rewrite first_occurrences_snoc. case_decide as Hy; [done|].
  apply NoDup_app. split; [done|]. split; [|apply NoDup_singleton].
  intros x Hx ->%list_elem_of_singleton. done.
Qed.

Lemma events_of_case_snoc cid events e :
  events_of_case cid (events ++ [e])
  = events_of_case cid events
    ++ (if decide (flat_case_id e = cid) then [flat_to_event e] else []).
Proof.
  unfold events_of_case. rewrite filter_app, fmap_app. f_equal.
  rewrite filter_cons, filter_nil. by case_decide.
Qed.

(** The grouping loop: one entry per case, in the order of first occurrence,
    holding the events of the case in the order of the log. *)
Lemma filter_none {A} (P : A → Prop) `{∀ x, Decision (P x)} (l : list A) :
  (∀ x, x ∈ l → ¬ P x) → filter P l = [].
Proof.
  induction l as [|x l IH]; intros Hl; [done|].
  rewrite filter_cons, decide_False by (apply Hl, list_elem_of_here).
  apply IH. intros y Hy. by apply Hl, list_elem_of_further.
Qed.

Lemma group_by_case_spec events :
  group_by_case events
  = (λ cid, (cid, events_of_case cid events))
    <$> first_occurrences (flat_case_id <$> events).
Proof.
  induction events as [|e events IH] using rev_ind; [done|].
  unfold group_by_case. rewrite foldl_app. cbn [foldl]. fold (group_by_case events).
  fold (flat_case_id e). fold (flat_to_event e).
  rewrite IH, fmap_app. change (flat_case_id <$> [e]) with [flat_case_id e].
  rewrite first_occurrences_snoc.
  set (ks := first_occurrences (flat_case_id <$> events)).
  set (cid := flat_case_id e).
  pose proof (NoDup_first_occurrences (flat_case_id <$> events)) as Hnd.
  fold ks in Hnd.
  assert (∀ c, c ∈ ks → c ∈ flat_case_id <$> events) as Hks.
  { intros c. apply elem_of_first_occurrences. }
  assert (∀ c, c ∈ flat_case_id <$> events → c ∈ ks) as Hks'.
  { intros c. apply elem_of_first_occurrences. }
  unfold dict_mem. rewrite dict_get_fmap_keys.
  destruct (decide (cid ∈ ks)) as [Hin|Hnin].
  - rewrite bool_decide_eq_true_2 by eauto.
    rewrite dict_get_fmap_keys, decide_True by done. cbn [default].
    rewrite dict_set_fmap_present by done.
    apply list_fmap_ext. intros i c Hc. f_equal.
    rewrite events_of_case_snoc. fold cid.
    destruct (decide (c = cid)) as [->|Hne].
    + by rewrite decide_True.
    + rewrite decide_False by done. by rewrite app_nil_r.
  - rewrite bool_decide_eq_false_2 by (by intros [? ?]).
    rewrite dict_get_set_eq. cbn [default]. rewrite dict_set_set.
    rewrite dict_set_absent
      by (by rewrite dict_get_fmap_keys, decide_False).
    rewrite fmap_app. f_equal.
    + apply list_fmap_ext. intros i c Hc. f_equal.
      rewrite events_of_case_snoc. fold cid.
      rewrite decide_False; [by rewrite app_nil_r|].
      intros Heq. apply Hnin. rewrite Heq.
      by eapply list_elem_of_lookup_2.
    + cbn [fmap list_fmap]. f_equal. f_equal. rewrite events_of_case_snoc. fold cid.
      rewrite decide_True by done.
      assert (events_of_case cid events = []) as ->; [|done].
      unfold events_of_case.
      assert (filter (λ e0, flat_case_id e0 = cid) events = []) as ->; [|done].
      apply filter_none. intros e0 He0 Heq. apply Hnin, Hks'.
      rewrite <- Heq. by apply list_elem_of_fmap_2.
Qed.

(** Sorting by a strict weak order: the outcome is sorted, and elements that
    tie with each other keep their order. *)
Section SortOrder.
Context {A K : Type} (lt : K → K → bool) (key : A → K).

Lemma insert_by_key_permutation x l : insert_by_key lt key x l ≡ₚ x :: l.
Proof.
  induction l as [|y l IH]; simpl; [done|].
  destruct (lt (key y) (key x)); [|done].
  rewrite IH. apply Permutation_swap.
Qed.

Lemma sort_by_key_permutation l : sort_by_key lt key l ≡ₚ l.
Proof.
  induction l as [|x l IH]; simpl; [done|].
  unfold sort_by_key in *. by rewrite insert_by_key_permutation, IH.
Qed.

Hypothesis lt_asym : ∀ a b, lt a b = true → lt b a = false.
Hypothesis lt_negtrans :
  ∀ a b c, lt a b = false → lt b c = false → lt a c = false.

Local Abbreviation not_after := (λ x y : A, lt (key y) (key x) = false).
Local Abbreviation ties k := (λ a : A, lt (key a) k = false ∧ lt k (key a) = false).

Lemma insert_by_order_sorted x l :
  StronglySorted not_after l → StronglySorted not_after (insert_by_key lt key x l).
Proof.
  induction l as [|y l IH]; simpl; intros Hs.
  - repeat constructor.
  - apply StronglySorted_inv in Hs as [Hs Hy].
    destruct (lt (key y) (key x)) eqn:Hlt.
    + constructor; [by apply IH|].
      rewrite insert_by_key_permutation. constructor; [by apply lt_asym | done].
    + constructor; [by constructor|]. constructor; [done|].
      eapply Forall_impl; [exact Hy|]. intros z Hz. cbn in *.
      by apply (lt_negtrans _ (key y)).
Qed.

Lemma sort_by_order_sorted l : StronglySorted not_after (sort_by_key lt key l).
Proof.
  induction l as [|x l IH]; simpl; [constructor|].
  by apply insert_by_order_sorted.
Qed.

Lemma insert_by_order_stable (k : K) x l :
  filter (ties k) (insert_by_key lt key x l) = filter (ties k) (x :: l).
Proof.
  induction l as [|y l IH]; simpl; [done|].
  destruct (lt (key y) (key x)) eqn:Hlt; [|done].
  rewrite (filter_cons _ y), IH, !filter_cons.
  destruct (decide (ties k y)) as [[Hy1 Hy2]|Hy]; [|done].
  destruct (decide (ties k x)) as [[Hx1 Hx2]|Hx]; [|done].
  rewrite (lt_negtrans _ _ _ Hy1 Hx2) in Hlt. done.
Qed.

Lemma sort_by_order_stable (k : K) l :
  filter (ties k) (sort_by_key lt key l) = filter (ties k) l.
Proof.
  induction l as [|x l IH]; simpl; [done|].
  rewrite insert_by_order_stable, !filter_cons. fold (sort_by_key lt key l).
  by rewrite IH.
Qed.
End SortOrder.

(** When every comparison the sort makes succeeds, the sort that may raise
    is the stable insertion sort. *)
Section SortTotal.
Context {A K : Type} (lt_opt : K → K → option bool) (lt : K → K → bool)
        (key : A → K) (P : A → Prop).
Hypothesis lt_opt_lt :
  ∀ a b, P a → P b → lt_opt (key a) (key b) = Some (lt (key a) (key b)).

Lemma try_insert_by_key_total x l :
  P x → Forall P l →
  try_insert_by_key lt_opt key x l = Some (insert_by_key lt key x l).
Proof.
  intros Hx. induction l as [|y l IH]; intros Hl; [done|].
  apply Forall_cons in Hl as [Hy Hl]. cbn [try_insert_by_key insert_by_key].
  rewrite (lt_opt_lt _ _ Hy Hx). cbn [mbind option_bind].
  destruct (lt (key y) (key x)); [|done].
  by rewrite (IH Hl).
Qed.

Lemma try_sort_by_key_total l :
  Forall P l → try_sort_by_key lt_opt key l = Some (sort_by_key lt key l).
Proof.
  induction l as [|x l IH]; intros Hl; [done|].
  apply Forall_cons in Hl as [Hx Hl]. cbn [try_sort_by_key].
  rewrite (IH Hl). cbn [mbind option_bind].
  apply try_insert_by_key_total; [done|].
  eapply Forall_forall. intros y Hy.
  rewrite sort_by_key_permutation in Hy.
  by eapply Forall_forall in Hl.
Qed.
End SortTotal.

Lemma StronglySorted_lookup {A} (R : A → A → Prop) l i j x y :
  StronglySorted R l → l !! i = Some x → l !! j = Some y → i < j → R x y.
Proof.
  intros Hs. revert i j. induction Hs as [|a l Hs IH Ha]; intros i j Hi Hj Hlt.
  - done.
  - destruct j as [|j]; [lia|]. destruct i as [|i]; simpl in *.
    + injection Hi as <-. eapply Forall_forall in Ha; [exact Ha|].
      by eapply list_elem_of_lookup_2.
    + apply (IH i j); [done | done | lia].
Qed.

Lemma filter_ext_in {A} (P Q : A → Prop) `{∀ x, Decision (P x)}
    `{∀ x, Decision (Q x)} (l : list A) :
  (∀ x, x ∈ l → P x ↔ Q x) → filter P l = filter Q l.
Proof.
  induction l as [|x l IH]; intros Hl; [done|].
  rewrite !filter_cons, IH by (intros y Hy; by apply Hl, list_elem_of_further).
  pose proof (Hl x (list_elem_of_here _ _)). repeat case_decide; tauto.
Qed.

(** The order of the strings *)
Lemma String_ltb_asym (a b : string) :
  String.ltb a b = true → String.ltb b a = false.
Proof.
  unfold String.ltb. rewrite (String.compare_antisym b a).
  by destruct (String.compare a b).
Qed.

Lemma String_ltb_trans (a b c : string) :
  String.ltb a b = true → String.ltb b c = true → String.ltb a c = true.
Proof.
  unfold String.ltb.
  destruct (String.compare a b) eqn:Hab; try done.
  destruct (String.compare b c) eqn:Hbc; try done. intros _ _.
  apply OrderedTypeEx.String_as_OT.cmp_lt in Hab, Hbc.
  pose proof (OrderedTypeEx.String_as_OT.lt_trans _ _ _ Hab Hbc) as Hac.
  apply OrderedTypeEx.String_as_OT.cmp_lt in Hac.
  unfold OrderedTypeEx.String_as_OT.cmp in Hac. by rewrite Hac.
Qed.

Lemma String_ltb_total (a b : string) :
  String.ltb a b = false → String.ltb b a = false → a = b.
Proof.
  unfold String.ltb. rewrite (String.compare_antisym b a).
  destruct (String.compare a b) eqn:Hab; try done.
  intros _ _. by apply String.compare_eq_iff.
Qed.

Lemma String_ltb_negtrans (a b c : string) :
  String.ltb a b = false → String.ltb b c = false → String.ltb a c = false.
Proof.
  intros Hab Hbc. destruct (String.ltb a c) eqn:Hac; [|done].
  destruct (String.ltb b a) eqn:Hba.
  - by rewrite (String_ltb_trans b a c Hba Hac) in Hbc.
  - rewrite (String_ltb_total a b Hab Hba) in Hac. congruence.
Qed.

(** [SortKey_before] is a strict weak order. *)
Lemma SortKey_before_asym (a b : SortKey) :
  SortKey_before a b = true → SortKey_before b a = false.
Proof.
  destruct a as [[x|x]|x], b as [[y|y]|y]; cbn; try done.
  - rewrite N.ltb_lt, N.ltb_ge. lia.
  - rewrite Z.ltb_lt, Z.ltb_ge. lia.
  - apply String_ltb_asym.
Qed.

Lemma SortKey_before_negtrans (a b c : SortKey) :
  SortKey_before a b = false → SortKey_before b c = false →
  SortKey_before a c = false.
Proof.
  destruct a as [[x|x]|x], b as [[y|y]|y], c as [[z|z]|z]; cbn; try done.
  - rewrite !N.ltb_ge. lia.
  - rewrite !Z.ltb_ge. lia.
  - apply String_ltb_negtrans.
Qed.

(** Timestamps of one kind are compared without an exception, and in the
    order [earlier]; timestamps of two kinds are not compared. *)
Lemma SortKey_lt_same_kind (e1 e2 : Event) :
  timestamp_kind (ev_timestamp e1) = timestamp_kind (ev_timestamp e2) →
  SortKey_lt (timestamp_key e1) (timestamp_key e2)
  = Some (SortKey_before (timestamp_key e1) (timestamp_key e2)).
Proof.
  unfold timestamp_key.
  destruct (ev_timestamp e1) as [|[t1|t1]|[|c1 s1]],
           (ev_timestamp e2) as [|[t2|t2]|[|c2 s2]]; done.
Qed.

Lemma SortKey_lt_is_Some (e1 e2 : Event) :
  is_Some (SortKey_lt (timestamp_key e1) (timestamp_key e2)) ↔
  timestamp_kind (ev_timestamp e1) = timestamp_kind (ev_timestamp e2).
Proof.
  unfold timestamp_key.
  destruct (ev_timestamp e1) as [|[t1|t1]|[|c1 s1]],
           (ev_timestamp e2) as [|[t2|t2]|[|c2 s2]]; cbn;
    split; try done; try (by intros [? ?]); by eexists.
Qed.

Lemma SortKey_before_earlier (e1 e2 : Event) :
  timestamp_kind (ev_timestamp e1) = timestamp_kind (ev_timestamp e2) →
  SortKey_before (timestamp_key e1) (timestamp_key e2)
  = earlier (ev_timestamp e1) (ev_timestamp e2).
Proof.
  unfold timestamp_key.
  destruct (ev_timestamp e1) as [|[t1|t1]|[|c1 s1]],
           (ev_timestamp e2) as [|[t2|t2]|[|c2 s2]]; try done; cbn; intros _.
  - by destruct t1.
  - by destruct t1.
Qed.

Lemma earlier_other_kind (a b : TimestampValue) :
  timestamp_kind a ≠ timestamp_kind b → earlier a b = false.
Proof.
  destruct a as [|[t1|t1]|[|c1 s1]], b as [|[t2|t2]|[|c2 s2]]; done.
Qed.

Lemma not_before_not_earlier (e1 e2 : Event) :
  SortKey_before (timestamp_key e1) (timestamp_key e2) = false →
  earlier (ev_timestamp e1) (ev_timestamp e2) = false.
Proof.
  intros Hb.
  destruct (decide (timestamp_kind (ev_timestamp e1)
                    = timestamp_kind (ev_timestamp e2))) as [Hk|Hk].
  - by rewrite <- SortKey_before_earlier.
  - by apply earlier_other_kind.
Qed.

Lemma mapM_fmap_total {A B C} (f : B → option C) (g : A → B) (h : A → C)
    (l : list A) :
  (∀ x, x ∈ l → f (g x) = Some (h x)) → mapM f (g <$> l) = Some (h <$> l).
Proof.
  intros Hf. apply mapM_Some_2. induction l as [|x l IH]; [constructor|].
  rewrite !fmap_cons. constructor.
  - apply Hf, list_elem_of_here.
  - apply IH. intros y Hy. by apply Hf, list_elem_of_further.
Qed.

(** The sort of a case whose timestamps are of one kind. *)
Lemma try_sort_homogeneous (evs : list Event) :
  homogeneous evs →
  try_sort_by_key SortKey_lt timestamp_key evs
  = Some (sort_by_key SortKey_before timestamp_key evs).
Proof.
  intros Hh.
  apply (try_sort_by_key_total SortKey_lt SortKey_before timestamp_key (.∈ evs)).
  - intros a b Ha Hb. by apply SortKey_lt_same_kind, Hh.
  - by apply Forall_forall.
Qed.

(** The event log of a flat log none of whose cases mixes kinds of
    timestamps. *)
Lemma flat_event_log_homogeneous events :
  (∀ cid, homogeneous (events_of_case cid events)) →
  flat_event_log events
  = Ok ((λ cid,
           {| lc_case_id := Some cid;
              lc_events := sort_by_key SortKey_before timestamp_key
                             (events_of_case cid events) |})
        <$> first_occurrences (flat_case_id <$> events)).
Proof.
  intros Hev. unfold flat_event_log. rewrite group_by_case_spec.
  erewrite mapM_fmap_total; [reflexivity|].
  intros cid _. cbn beta iota. by rewrite try_sort_homogeneous.
Qed.

(** A log is free of mixed cases when the events of each case agree on the
    kind of their timestamps. *)
Lemma homogeneous_cases (events : list FlatEvent) :
  Forall (λ e1, Forall (λ e2, flat_case_id e1 = flat_case_id e2 →
                              timestamp_kind (fe_timestamp e1)
                              = timestamp_kind (fe_timestamp e2)) events) events →
  ∀ cid, homogeneous (events_of_case cid events).
Proof.
  intros Hall cid e1 e2. unfold events_of_case.
  intros (f1 & -> & [Hc1 H1]%list_elem_of_filter)%list_elem_of_fmap
         (f2 & -> & [Hc2 H2]%list_elem_of_filter)%list_elem_of_fmap.
  rewrite Forall_forall in Hall. specialize (Hall f1 H1).
  rewrite Forall_forall in Hall. apply (Hall f2 H2). congruence.
Qed.

(** A homogeneous case is one without two timestamps of different kinds. *)
Lemma homogeneous_iff (evs : list Event) :
  homogeneous evs ↔
  ¬ ∃ e1 e2, e1 ∈ evs ∧ e2 ∈ evs ∧
             timestamp_kind (ev_timestamp e1) ≠ timestamp_kind (ev_timestamp e2).
Proof.
  split.
  - intros Hh (e1 & e2 & H1 & H2 & Hne). by apply Hne, Hh.
  - intros Hn e1 e2 H1 H2.
    destruct (decide (timestamp_kind (ev_timestamp e1)
                      = timestamp_kind (ev_timestamp e2))) as [|Hne]; [done|].
    destruct Hn. by exists e1, e2.
Qed.

(** The cases of a flat log none of whose cases mixes kinds of timestamps:
    one per case identifier, in the order of first occurrence, each stably
    sorted. *)
Lemma flat_event_log_sorted (events : list FlatEvent) :
  (∀ cid, homogeneous (events_of_case cid events)) →
  ∃ event_log,
    flat_event_log events = Ok event_log ∧
    lc_case_id <$> event_log
    = Some <$> first_occurrences (flat_case_id <$> events) ∧
    Forall (sorted_case events) event_log.
Proof.
  intros Hev. eexists. split; [by apply flat_event_log_homogeneous|]. split.
  - by rewrite <- list_fmap_compose.
  - apply Forall_fmap, Forall_forall. intros cid _.
    exists cid. cbn.
    pose proof (sort_by_key_permutation SortKey_before timestamp_key
                  (events_of_case cid events)) as Hperm.
    assert (StronglySorted
              (λ e1 e2, earlier (ev_timestamp e2) (ev_timestamp e1) = false)
              (sort_by_key SortKey_before timestamp_key
                 (events_of_case cid events))) as Hsorted.
    { eapply StronglySorted_weaken;
        [|apply (sort_by_order_sorted SortKey_before timestamp_key
                   SortKey_before_asym SortKey_before_negtrans)].
      intros e1 e2. apply not_before_not_earlier. }
    split; [done|]. split; [done|]. split; [exact Hsorted|]. split.
    + intros e0 He0.
      assert (∀ l, l ≡ₚ events_of_case cid events →
                filter (λ e, tied (ev_timestamp e) (ev_timestamp e0)) l
                = filter (λ e, SortKey_before (timestamp_key e) (timestamp_key e0)
                               = false ∧
                               SortKey_before (timestamp_key e0) (timestamp_key e)
                               = false) l) as Hties.
      { intros l Hl. apply filter_ext_in. intros e He. rewrite Hl in He.
        unfold tied.
        rewrite <- !SortKey_before_earlier by (by apply (Hev cid)). done. }
      rewrite (Hties _ Hperm), (Hties _ (reflexivity _)).
      apply (sort_by_order_stable SortKey_before timestamp_key
               SortKey_before_negtrans).
    + intros i j e1 e2 t Hi Hj H1 H2 Ht.
      destruct (decide (i < j)) as [|Hge]; [done|]. exfalso.
      destruct (decide (i = j)) as [->|Hne]; [congruence|].
      assert (j < i) as Hji by lia.
      pose proof (StronglySorted_lookup _ _ _ _ _ _ Hsorted Hj Hi Hji) as Hle.
      cbn beta in Hle. rewrite H1, H2 in Hle. cbn in Hle.
      apply N.ltb_ge in Hle. lia.
Qed.

Section FlatLog.
Variable set_iter : gset string → list string.
Variable fromisoformat : string → option datetime.

(** C8 (as the code has it): for a flat log none of whose cases mixes kinds
    of timestamps, [check_flat_log] checks one case per case identifier, in
    the order of first occurrence; the events of a case are its events of
    the log, stably sorted by timestamp: no event stands before an earlier
    one, and events that tie stay in the order of the log.  A missing or
    empty timestamp counts as [datetime.min], so that an event without a
    timestamp comes before every event stamped later than [datetime.min]. *)
Theorem check_flat_log_groups_and_sorts (self : ConformanceChecker)
    (events : list FlatEvent) :
  (∀ cid, homogeneous (events_of_case cid events)) →
  ∃ event_log,
    flat_event_log events = Ok event_log ∧
    check_flat_log set_iter fromisoformat self events
    = Ok (check_log set_iter fromisoformat self event_log) ∧
    lc_case_id <$> event_log
    = Some <$> first_occurrences (flat_case_id <$> events) ∧
    Forall (sorted_case events) event_log.
Proof.
  intros Hev.
  destruct (flat_event_log_sorted events Hev) as (event_log & Hlog & Hids & Hs).
  exists event_log. split; [done|]. split; [|done].
  unfold check_flat_log. by rewrite Hlog.
Qed.
End FlatLog.

Lemma check_flat_log_groups_and_sorts_witness :
  ∃ event_log,
    flat_event_log interleaved_flat_log = Ok event_log ∧
    check_flat_log elements (λ _, None) o2c_checker interleaved_flat_log
    = Ok (check_log elements (λ _, None) o2c_checker event_log) ∧
    lc_case_id <$> event_log
    = Some <$> first_occurrences (flat_case_id <$> interleaved_flat_log) ∧
    Forall (sorted_case interleaved_flat_log) event_log.
Proof.
  apply check_flat_log_groups_and_sorts.
  apply homogeneous_cases. apply (bool_decide_unpack _). by vm_compute.
Defined.

(** C8, the claim as stated fails: an event stamped [datetime.min] that comes
    first in the log stays before an event of its case without a timestamp. *)
Lemma stamped_min_stays_before_unstamped :
  ∃ evs,
    flat_event_log stamped_min_then_unstamped
    = Ok [ {| lc_case_id := Some "4711"; lc_events := evs |} ] ∧
    evs = [ {| ev_activity := Some "OrderCreated"; ev_type := None;
               ev_timestamp := TsDatetime datetime_min |};
            {| ev_activity := Some "DeliveryCreated"; ev_type := None;
               ev_timestamp := TsNone |} ] ∧
    ¬ unstamped_first evs.
Proof.
  eexists. split; [reflexivity|]. split; [reflexivity|].
  intros Hfirst.
  pose proof (Hfirst 1 0 _ _ datetime_min eq_refl eq_refl eq_refl eq_refl).
  lia.
Qed.

(** A string timestamp next to a missing one: the sort compares a [str] with
    [datetime.min] and raises.  So does an aware datetime next to a missing
    timestamp: [datetime.min] is naive. *)
Lemma string_timestamp_next_to_missing_raises :
  check_flat_log elements (λ _, None) o2c_checker string_then_unstamped
  = Raise TypeError.
Proof. reflexivity. Qed.

Lemma aware_timestamp_next_to_missing_raises :
  check_flat_log elements (λ _, None) o2c_checker aware_then_unstamped
  = Raise TypeError.
Proof. reflexivity. Qed.

(** ** The expected sequence *)

Section Returns.
Variable set_iter : gset string → list string.
Variable m : ProcessModel.

Local Abbreviation U := (_mandatory_activities m).
Local Abbreviation body fuel :=
  (λ predecessor st,
     if decide (predecessor ∈ _mandatory_activities m)
     then visit set_iter m fuel predecessor st
     else Some st).

(** *** The traversal returns *)

Lemma size_unvisited_mono (V V' : gset string) :
  V ⊆ V' → size (U ∖ V') ≤ size (U ∖ V).
Proof.
  intros HV. apply subseteq_size. intros x [Hx Hx']%elem_of_difference.
  apply elem_of_difference. split; [done|]. intros Hv. by apply Hx', HV.
Qed.

Lemma size_unvisited_fresh (V : gset string) n :
  n ∈ U → n ∉ V → size (U ∖ (V ∪ {[n]})) < size (U ∖ V).
Proof.
  intros HU HV. apply subset_size. apply strict_spec_alt. split.
  - apply difference_mono_l, union_subseteq_l.
  - intros Heq. assert (n ∈ U ∖ V) as Hn by (by apply elem_of_difference).
    rewrite <- Heq in Hn. apply elem_of_difference in Hn as [_ Hn].
    apply Hn, elem_of_union_r, elem_of_singleton. done.
Qed.

Lemma for_each_total {S} (f : string → S → option S) (measure : S → nat)
    (bound : nat) ps st :
  (∀ p st, measure st < bound →
           ∃ st', f p st = Some st' ∧ measure st' ≤ measure st) →
  measure st < bound →
  ∃ st', for_each f ps st = Some st' ∧ measure st' ≤ measure st.
Proof.
  intros Hf. revert st. induction ps as [|p ps IH]; intros st Hst; simpl.
  - eauto.
  - destruct (Hf p st Hst) as (st1 & -> & Hle). simpl.
    destruct (IH st1) as (st2 & -> & Hle2); [lia|]. exists st2. split; [done | lia].
Qed.

Lemma visit_total fuel n st :
  size (U ∖ st.1) + (if decide (n ∈ U) then 0 else 1) < fuel →
  ∃ st', visit set_iter m fuel n st = Some st' ∧
         size (U ∖ st'.1) ≤ size (U ∖ st.1).
Proof.
  revert n st. induction fuel as [|fuel IH]; intros n [V L] Hfuel; [lia|].
  cbn [visit fst snd] in *. destruct (decide (n ∈ V)) as [Hin|Hnin]; [eauto|].
  assert (size (U ∖ (V ∪ {[n]})) < fuel) as Hless.
  { destruct (decide (n ∈ U)) as [HU|HU].
    - pose proof (size_unvisited_fresh V n HU Hnin). lia.
    - pose proof (size_unvisited_mono V (V ∪ {[n]}) (union_subseteq_l _ _)).
      lia. }
  destruct (for_each_total (body fuel) (λ st, size (U ∖ st.1)) fuel
              (set_iter (default ∅ (_incoming m !! n))) (V ∪ {[n]}, L))
    as (st2 & -> & Hle2); [|done|].
  { intros p st Hst. destruct (decide (p ∈ U)) as [Hp|Hp]; [|eauto].
    apply IH. rewrite decide_True by done. lia. }
  cbn [mbind option_bind fst snd] in *.
  pose proof (size_unvisited_mono V (V ∪ {[n]}) (union_subseteq_l _ _))
    as Hmono.
  destruct (decide (n ∈ U)); eexists; (split; [done|]); cbn [fst]; lia.
Qed.

Lemma get_expected_sequence_returns :
  get_expected_sequence_fuel set_iter m (recursion_bound m)
  = Some (get_expected_sequence set_iter m).
Proof.
  unfold get_expected_sequence, get_expected_sequence_fuel.
  destruct (for_each_total (visit set_iter m (recursion_bound m))
              (λ st, size (U ∖ st.1) + 1) (recursion_bound m)
              (set_iter (_end_activities m)) (∅, []))
    as (st & -> & _); [| |done].
  - intros p st Hst.
    destruct (visit_total (recursion_bound m) p st) as (st' & -> & Hle).
    + case_decide; lia.
    + exists st'. split; [done | lia].
  - unfold recursion_bound. cbn [fst].
    assert (size (U ∖ ∅) ≤ size U)
      by (apply subseteq_size, subseteq_difference_l; done).
    lia.
Qed.

(** More fuel does not change what the traversal returns. *)
Lemma for_each_mono {S} (f f' : string → S → option S) ps st r :
  (∀ p st r, f p st = Some r → f' p st = Some r) →
  for_each f ps st = Some r → for_each f' ps st = Some r.
Proof.
  intros Hf. revert st. induction ps as [|p ps IH]; intros st; simpl; [done|].
  destruct (f p st) as [st1|] eqn:Hp; [|done]. rewrite (Hf _ _ _ Hp). simpl.
  apply IH.
Qed.

Lemma visit_unfold fuel n st :
  visit set_iter m (S fuel) n st
  = if decide (n ∈ st.1) then Some st
    else
      st ← for_each (body fuel)
             (set_iter (default ∅ (_incoming m !! n))) (st.1 ∪ {[n]}, st.2);
      if decide (n ∈ U) then Some (st.1, st.2 ++ [n]) else Some st.
Proof. reflexivity. Qed.

Lemma visit_fuel_S fuel n st r :
  visit set_iter m fuel n st = Some r → visit set_iter m (S fuel) n st = Some r.
Proof.
  revert n st r. induction fuel as [|fuel IH]; intros n st r; [done|].
  rewrite (visit_unfold (S fuel)), (visit_unfold fuel).
  destruct (decide (n ∈ st.1)); [done|].
  destruct (for_each (body fuel) _ _) as [st2|] eqn:Hloop; [|done].
  erewrite for_each_mono; [by intros ->|..|exact Hloop].
  intros p st1 r1. cbn beta. case_decide; [apply IH | done].
Qed.

Lemma visit_fuel_le fuel fuel' n st r :
  fuel ≤ fuel' →
  visit set_iter m fuel n st = Some r → visit set_iter m fuel' n st = Some r.
Proof.
  induction 1 as [|fuel' _ IH]; [done|]. intros Hv. by apply visit_fuel_S, IH.
Qed.

Lemma get_expected_sequence_enough_fuel fuel :
  recursion_bound m ≤ fuel →
  get_expected_sequence_fuel set_iter m fuel
  = Some (get_expected_sequence set_iter m).
Proof.
  intros Hle. pose proof get_expected_sequence_returns as Hret.
  unfold get_expected_sequence_fuel in *.
  apply fmap_Some in Hret as (st & Hrun & ->).
  erewrite for_each_mono; [reflexivity|..|exact Hrun].
  intros p st1 r1. by apply visit_fuel_le.
Qed.
End Returns.

Lemma predecessors_first_snoc m l n :
  predecessors_first m l →
  (∀ p, p ∈ default ∅ (_incoming m !! n) → p ∈ _mandatory_activities m → p ∈ l) →
  predecessors_first m (l ++ [n]).
Proof.
  intros Hl Hn i x p Hi Hp HU.
  destruct (decide (i < length l)) as [Hlt|Hge].
  - rewrite lookup_app_l in Hi by done.
    destruct (Hl i x p Hi Hp HU) as (j & Hj & Hjp). exists j. split; [done|].
    rewrite lookup_app_l; [done | lia].
  - rewrite lookup_app_r in Hi by lia.
    apply list_lookup_singleton_Some in Hi as [Hi ->].
    pose proof (Hn p Hp HU) as Hin. apply list_elem_of_lookup in Hin as [j Hj].
    pose proof (lookup_lt_Some _ _ _ Hj). exists j. split; [lia|].
    by rewrite lookup_app_l.
Qed.

Section Topological.
Variable set_iter : gset string → list string.
Hypothesis set_iter_elem : ∀ s x, x ∈ set_iter s ↔ x ∈ s.
Variable m : ProcessModel.
Hypothesis m_acyclic : acyclic m.

Local Abbreviation U := (_mandatory_activities m).
Local Abbreviation R := (mandatory_pred m).
Local Abbreviation body fuel :=
  (λ predecessor st,
     if decide (predecessor ∈ _mandatory_activities m)
     then visit set_iter m fuel predecessor st
     else Some st).

Local Abbreviation extends := (dfs_extends m).

Lemma extends_refl active st :
  dfs_inv m active st.1 st.2 → extends active st st.
Proof.
  intros Hinv. split; [done|]. split; [done|]. exists [].
  split; [by rewrite app_nil_r|]. intros x Hx. by apply elem_of_nil in Hx.
Qed.

Lemma extends_trans active st1 st2 st3 :
  extends active st1 st2 → extends active st2 st3 → extends active st1 st3.
Proof.
  intros (_ & Hsub1 & ext1 & He1 & Hf1) (Hinv & Hsub2 & ext2 & He2 & Hf2).
  split; [done|]. split; [by etrans|]. exists (ext1 ++ ext2). split.
  - by rewrite He2, He1, <- app_assoc.
  - intros x [Hx|Hx]%elem_of_app; [by apply Hf1|].
    intros Hv. by apply (Hf2 x Hx), Hsub1.
Qed.

Lemma tc_mandatory_source x y : tc R x y → x ∈ U.
Proof. intros Htc. destruct Htc as [x y (_ & Hx & _)|x y z (_ & Hx & _) _]; done. Qed.

(** A loop of calls of [visit] on activities that reach every active
    activity. *)
Lemma for_each_extends (f : string → gset string * list string →
                            option (gset string * list string))
    (Q : string → Prop) active ps st st' :
  (∀ p st st', p ∈ ps → dfs_inv m active st.1 st.2 → f p st = Some st' →
               extends active st st' ∧ (Q p → p ∈ st'.1)) →
  dfs_inv m active st.1 st.2 →
  for_each f ps st = Some st' →
  extends active st st' ∧ ∀ p, p ∈ ps → Q p → p ∈ st'.1.
Proof.
  revert st. induction ps as [|p ps IH]; intros st Hf Hinv Hrun; simpl in Hrun.
  - injection Hrun as <-. split; [by apply extends_refl|].
    intros p Hp. by apply elem_of_nil in Hp.
  - destruct (f p st) as [st1|] eqn:Hp; [|done]. simpl in Hrun.
    destruct (Hf p st st1) as [Hext1 Hq1]; [apply list_elem_of_here|done..|].
    destruct (IH st1) as [Hext2 Hq2]; [|apply Hext1|done|].
    { intros q s s' Hq. apply Hf. by apply list_elem_of_further. }
    split; [by eapply extends_trans|].
    intros q [->|Hq]%elem_of_cons Hqq; [|by apply Hq2].
    destruct Hext2 as (_ & Hsub & _). by apply Hsub, Hq1.
Qed.

Lemma visit_extends fuel n active st st' :
  dfs_inv m active st.1 st.2 →
  (∀ g, g ∈ active → tc R n g) →
  reaches_end m n →
  visit set_iter m fuel n st = Some st' →
  extends active st st' ∧ n ∈ st'.1.
Proof.
  revert n active st st'.
  induction fuel as [|fuel IH];
    intros n active [V L] st' Hinv Hreach Hend Hrun; [done|].
  cbn [visit fst snd] in *.
  destruct (decide (n ∈ V)) as [Hin|Hnin].
  { injection Hrun as <-. split; [by apply extends_refl | done]. }
  set (active' := if decide (n ∈ U) then active ∪ {[n]} else active).
  assert (dfs_inv m active' (V ∪ {[n]}) L) as Hinv1.
  { destruct Hinv as [Hl Hnd Hfin Hord Hre]. split; [|done| |done|done].
    - intros x Hx. destruct (Hl x Hx). split; [by apply elem_of_union_l | done].
    - intros v [Hv| ->%elem_of_singleton]%elem_of_union HvU.
      + destruct (Hfin v Hv HvU) as [?|Hact]; [by left|]. right.
        unfold active'. case_decide; [by apply elem_of_union_l | done].
      + right. unfold active'. rewrite decide_True by done.
        by apply elem_of_union_r, elem_of_singleton. }
  destruct (for_each (body fuel) (set_iter (default ∅ (_incoming m !! n)))
              (V ∪ {[n]}, L)) as [[V2 L2]|] eqn:Hloop; [|done].
  cbn [mbind option_bind fst snd] in Hrun.
  destruct (for_each_extends (body fuel) (λ p, p ∈ U) active'
              (set_iter (default ∅ (_incoming m !! n))) (V ∪ {[n]}, L) (V2, L2))
    as [(Hinv2 & Hsub2 & ext & Hext & Hfresh) Hvisited]; [|done|done|].
  { intros p st1 st2 Hp Hinvp Hrunp.
    destruct (decide (p ∈ U)) as [HpU|HpU].
    - apply set_iter_elem in Hp.
      destruct (IH p active' st1 st2 Hinvp) as [He Hpin]; [| |done|done].
      + intros g Hg. unfold active' in Hg.
        destruct (decide (n ∈ U)) as [HnU|HnU].
        * apply elem_of_union in Hg as [Hg| ->%elem_of_singleton].
          -- apply tc_l with n; [done | by apply Hreach].
          -- by apply tc_once.
        * exfalso. apply HnU. by apply (tc_mandatory_source n g), Hreach.
      + destruct Hend as (e & He & Hpath). exists e. split; [done|].
        by apply rtc_l with n.
    - injection Hrunp as <-. split; [by apply extends_refl | done]. }
  cbn [fst snd] in *.
  assert (n ∈ V2) as HnV2
    by (by apply Hsub2, elem_of_union_r, elem_of_singleton).
  assert (V ⊆ V2) as HVV2 by (etrans; [apply union_subseteq_l | done]).
  destruct (decide (n ∈ U)) as [HnU|HnU]; injection Hrun as <-;
    unfold active' in *; cbn [fst snd].
  - split; [|done]. split; [|split; [done|]].
    + destruct Hinv2 as [Hl Hnd Hfin Hord Hre]. split; cbn [fst snd].
      * intros x [Hx| ->%list_elem_of_singleton]%elem_of_app; [by apply Hl|done].
      * apply NoDup_app. split; [done|]. split; [|apply NoDup_singleton].
        intros x Hx ->%list_elem_of_singleton. rewrite Hext in Hx.
        apply elem_of_app in Hx as [Hx|Hx].
        -- destruct Hinv as [HlV _ _ _ _]. by destruct (HlV n Hx).
        -- apply (Hfresh n Hx). by apply elem_of_union_r, elem_of_singleton.
      * intros v Hv HvU. rewrite elem_of_app, list_elem_of_singleton.
        destruct (Hfin v Hv HvU) as [?|[?| ->%elem_of_singleton]%elem_of_union];
          [by left; left | by right | by left; right].
      * apply predecessors_first_snoc; [done|]. intros p Hp HpU.
        destruct (Hfin p) as [?|Hact]; [|done|done|].
        { apply Hvisited; [by apply set_iter_elem | done]. }
        exfalso. assert (R p n) as Hpn by done.
        apply elem_of_union in Hact as [Hact| ->%elem_of_singleton].
        -- apply (m_acyclic p). apply tc_l with n; [done | by apply Hreach].
        -- apply (m_acyclic n). by apply tc_once.
      * intros x [Hx| ->%list_elem_of_singleton]%elem_of_app; [by apply Hre|done].
    + exists (ext ++ [n]). cbn [fst snd].
      split; [by rewrite Hext, <- app_assoc|].
      intros x [Hx| ->%list_elem_of_singleton]%elem_of_app; [|done].
      intros HxV. by apply (Hfresh x Hx), elem_of_union_l.
  - split; [|done]. split; [done|]. split; [done|]. exists ext. split; [done|].
    intros x Hx HxV. by apply (Hfresh x Hx), elem_of_union_l.
Qed.
End Topological.

(** The index map of a duplicate-free list. *)
Lemma index_map_lookup (l : list string) :
  NoDup l →
  ∀ i n, l !! i = Some n ↔
         dict_get n (foldl (λ d '(idx, n), dict_set n idx d) [] (imap pair l))
         = Some i.
Proof.
  induction l as [|x l IH] using rev_ind; intros Hnd i n.
  - by rewrite lookup_nil.
  - apply NoDup_app in Hnd as (Hnd & Hfresh & _).
    rewrite imap_app, foldl_app. cbn [imap foldl]. rewrite Nat.add_0_r.
    destruct (decide (x = n)) as [->|Hne].
    + rewrite dict_get_set_eq. split.
      * intros Hi. destruct (decide (i < length l)) as [Hlt|Hge].
        -- rewrite lookup_app_l in Hi by done. exfalso.
           apply (Hfresh n); [by eapply list_elem_of_lookup_2 | apply list_elem_of_here].
        -- rewrite lookup_app_r in Hi by lia.
           apply list_lookup_singleton_Some in Hi as [Hi _]. f_equal. lia.
      * intros [= <-]. rewrite lookup_app_r by lia. by rewrite Nat.sub_diag.
    + rewrite dict_get_set_ne by done. rewrite <- (IH Hnd). split.
      * intros Hi. destruct (decide (i < length l)) as [Hlt|Hge].
        -- by rewrite lookup_app_l in Hi.
        -- rewrite lookup_app_r in Hi by lia.
           apply list_lookup_singleton_Some in Hi as [_ ?]. done.
      * intros Hi. rewrite lookup_app_l; [done|]. by eapply lookup_lt_Some.
Qed.

(** C3: on a model whose mandatory subgraph is acyclic,
    [get_expected_sequence] returns (whatever the recursion depth allowed
    beyond [recursion_bound]) a duplicate-free list of mandatory activities,
    each reached backward from an end activity; the list holds every
    activity from which a mandatory end activity is reached in the mandatory
    subgraph and, before each of its members, every mandatory predecessor of
    it; [get_dependency_order] maps exactly the listed names, each to its
    index. *)
Theorem get_expected_sequence_topological
    (set_iter : gset string → list string) (m : ProcessModel) :
  (∀ s x, x ∈ set_iter s ↔ x ∈ s) →
  acyclic m →
  (∀ fuel, recursion_bound m ≤ fuel →
           get_expected_sequence_fuel set_iter m fuel
           = Some (get_expected_sequence set_iter m)) ∧
  NoDup (get_expected_sequence set_iter m) ∧
  (∀ n, n ∈ get_expected_sequence set_iter m →
        n ∈ _mandatory_activities m ∧ reaches_end m n) ∧
  (∀ e n, e ∈ _end_activities m → e ∈ _mandatory_activities m →
          rtc (mandatory_pred m) n e →
          n ∈ get_expected_sequence set_iter m) ∧
  predecessors_first m (get_expected_sequence set_iter m) ∧
  (∀ i n, get_expected_sequence set_iter m !! i = Some n ↔
          dict_get n (get_dependency_order set_iter m) = Some i).
Proof.
  intros Hiter Hacyclic.
  pose proof (get_expected_sequence_returns set_iter m) as Hret.
  split; [by apply get_expected_sequence_enough_fuel|].
  unfold get_expected_sequence_fuel in Hret.
  apply fmap_Some in Hret as ([V seq] & Hrun & Hseq). cbn [snd] in Hseq.
  destruct (for_each_extends m (visit set_iter m (recursion_bound m))
              (λ _, True) ∅ (set_iter (_end_activities m)) (∅, []) (V, seq))
    as [([Hlisted Hnd Hfin Hord Hre] & _) Hends]; [| |done|].
  { intros p st st' Hp Hinv Hvisit.
    destruct (visit_extends set_iter Hiter m Hacyclic (recursion_bound m)
                p ∅ st st' Hinv) as [Hext Hpin]; [| |done|done].
    - intros g Hg. by apply not_elem_of_empty in Hg.
    - exists p. split; [by apply Hiter | done]. }
  { split; cbn [fst snd].
    - intros x Hx. by apply elem_of_nil in Hx.
    - apply NoDup_nil_2.
    - intros v Hv. by apply not_elem_of_empty in Hv.
    - intros i n p Hi. by rewrite lookup_nil in Hi.
    - intros x Hx. by apply elem_of_nil in Hx. }
  cbn [fst snd] in *. rewrite Hseq.
  split; [done|].
  split; [intros n Hn; split; [by destruct (Hlisted n Hn) | by apply Hre]|].
  split; [|split; [done|]].
  - intros e n He HeU Hpath.
    induction Hpath as [e | n y e (Hn & HnU & _) _ IH].
    + destruct (Hfin e) as [?|Hact]; [|done|done|].
      * apply Hends; [by apply Hiter | done].
      * by apply not_elem_of_empty in Hact.
    + apply list_elem_of_lookup in IH as [i Hi]; [|done..].
      destruct (Hord i y n Hi Hn HnU) as (j & _ & Hj).
      by eapply list_elem_of_lookup_2.
  - unfold get_dependency_order. rewrite Hseq. by apply index_map_lookup.
Qed.

(** A model whose mandatory predecessors all rank lower is acyclic. *)
Lemma acyclic_of_rank m (rank : string → nat) :
  (∀ p n, mandatory_pred m p n → rank p < rank n) → acyclic m.
Proof.
  intros Hrank x Hx.
  assert (∀ a b, tc (mandatory_pred m) a b → rank a < rank b) as Htc.
  { intros a b Hab. induction Hab as [a b Hab | a b c Hab _ IH].
    - by apply Hrank.
    - apply Hrank in Hab. lia. }
  apply Htc in Hx. lia.
Qed.

Lemma o2c_linear_acyclic : acyclic o2c_linear.
Proof.
  apply (acyclic_of_rank _ o2c_rank). intros p n (Hp & HpU & HnU).
  assert (_mandatory_activities o2c_linear
          = {["OrderCreated"; "DeliveryCreated"; "GoodsIssued"; "InvoiceCreated"]})
    as HU by (vm_compute; reflexivity).
  assert (_incoming o2c_linear
          = <["OrderCreated" := ∅]> (<["DeliveryCreated" := {["OrderCreated"]}]>
              (<["GoodsIssued" := {["DeliveryCreated"]}]>
                 (<["InvoiceCreated" := {["GoodsIssued"]}]> ∅))))
    as Hinc by (vm_compute; reflexivity).
  rewrite HU in HnU. rewrite Hinc in Hp. clear HpU HU Hinc.
  repeat (apply elem_of_union in HnU as [HnU|HnU]);
    apply elem_of_singleton in HnU; subst n; simplify_map_eq.
  all: try (by apply not_elem_of_empty in Hp).
  all: apply elem_of_singleton in Hp; subst p; vm_compute; lia.
Qed.

Example o2c_linear_expected_sequence :
  get_expected_sequence elements o2c_linear
  = ["OrderCreated"; "DeliveryCreated"; "GoodsIssued"; "InvoiceCreated"].
Proof. vm_compute. reflexivity. Qed.

Lemma get_expected_sequence_topological_witness :
  (∀ fuel, recursion_bound o2c_linear ≤ fuel →
           get_expected_sequence_fuel elements o2c_linear fuel
           = Some (get_expected_sequence elements o2c_linear)) ∧
  NoDup (get_expected_sequence elements o2c_linear) ∧
  (∀ n, n ∈ get_expected_sequence elements o2c_linear →
        n ∈ _mandatory_activities o2c_linear ∧ reaches_end o2c_linear n) ∧
  (∀ e n, e ∈ _end_activities o2c_linear → e ∈ _mandatory_activities o2c_linear →
          rtc (mandatory_pred o2c_linear) n e →
          n ∈ get_expected_sequence elements o2c_linear) ∧
  predecessors_first o2c_linear (get_expected_sequence elements o2c_linear) ∧
  (∀ i n, get_expected_sequence elements o2c_linear !! i = Some n ↔
          dict_get n (get_dependency_order elements o2c_linear) = Some i).
Proof.
  apply (get_expected_sequence_topological elements o2c_linear).
  - intros s x. apply elem_of_elements.
  - apply o2c_linear_acyclic.
Defined.

(** * Further properties of the process model *)

Lemma setdefault_empty_idemp key d :
  setdefault_empty key (setdefault_empty key d) = setdefault_empty key d.
Proof.
  unfold setdefault_empty. destruct (d !! key) eqn:Hk.
  - by rewrite Hk.
  - by rewrite lookup_insert_eq.
Qed.

Lemma setdefault_empty_default key d k :
  default ∅ (setdefault_empty key d !! k) = default ∅ (d !! k).
Proof.
  unfold setdefault_empty. destruct (d !! key) eqn:Hk; [done|].
  destruct (decide (key = k)) as [->|Hne].
  - by rewrite lookup_insert_eq, Hk.
  - by rewrite lookup_insert_ne.
Qed.

Lemma ProcessModel_ext (m1 m2 : ProcessModel) :
  pm_name m1 = pm_name m2 → pm_display_name m1 = pm_display_name m2 →
  pm_description m1 = pm_description m2 → version m1 = version m2 →
  _activities m1 = _activities m2 → _transitions m1 = _transitions m2 →
  _start_activities m1 = _start_activities m2 →
  _end_activities m1 = _end_activities m2 →
  _mandatory_activities m1 = _mandatory_activities m2 →
  _outgoing m1 = _outgoing m2 → _incoming m1 = _incoming m2 →
  m1 = m2.
Proof. destruct m1, m2. cbn. intros. by subst. Qed.

Lemma add_activity_meta a m :
  pm_name (add_activity a m) = pm_name m ∧
  pm_display_name (add_activity a m) = pm_display_name m ∧
  pm_description (add_activity a m) = pm_description m ∧
  version (add_activity a m) = version m.
Proof. unfold add_activity. by repeat case_decide. Qed.

(** X1: Adding an activity is an insertion into the activity map that can be
    read back, leaves the other names alone and, repeated, changes nothing. *)
Theorem add_activity_idempotent (a : Activity) (m : ProcessModel) :
  add_activity a (add_activity a m) = add_activity a m ∧
  get_activity (add_activity a m) (name a) = Some a ∧
  (∀ n, n ≠ name a → get_activity (add_activity a m) n = get_activity m n).
Proof.
  split; [|split].
  - destruct (add_activity_meta a (add_activity a m)) as (H1 & H2 & H3 & H4).
    apply ProcessModel_ext; try done.
    + by rewrite !add_activity_activities, dict_set_set.
    + by rewrite !add_activity_transitions.
    + rewrite !add_activity_start. case_decide; [|done].
      by rewrite <- (assoc_L (∪)), (idemp_L (∪)).
    + rewrite !add_activity_end. case_decide; [|done].
      by rewrite <- (assoc_L (∪)), (idemp_L (∪)).
    + rewrite !add_activity_mandatory. case_decide; [|done].
      by rewrite <- (assoc_L (∪)), (idemp_L (∪)).
    + by rewrite !add_activity_outgoing, setdefault_empty_idemp.
    + by rewrite !add_activity_incoming, setdefault_empty_idemp.
  - unfold get_activity. rewrite add_activity_activities. apply dict_get_set_eq.
  - intros n Hn. unfold get_activity. rewrite add_activity_activities.
    by apply dict_get_set_ne.
Qed.

(** On a built model [add_transition] either leaves the model as it is (and
    raises) or returns after three updates. *)
Lemma add_transition_cases hist m t :
  Built hist m →
  ((get_activity m (name (source t)) = None ∨
    get_activity m (name (target t)) = None) ∧
   raises (add_transition t m).1 ∧ (add_transition t m).2 = m) ∨
  (∃ so si,
     is_Some (get_activity m (name (source t))) ∧
     is_Some (get_activity m (name (target t))) ∧
     _outgoing m !! name (source t) = Some so ∧
     _incoming m !! name (target t) = Some si ∧
     add_transition t m =
     (Ok tt,
      with_incoming (<[name (target t) := si ∪ {[name (source t)]}]>)
        (with_outgoing (<[name (source t) := so ∪ {[name (target t)]}]>)
           (with_transitions (λ l, l ++ [t]) m)))).
Proof.
  intros HB. pose proof (Built_adjacency_complete _ _ HB) as Hadj.
  destruct (get_activity m (name (source t))) as [sa|] eqn:Hs.
  - destruct (get_activity m (name (target t))) as [ta|] eqn:Ht.
    + destruct (Hadj (name (source t))) as [[so Ho] _]; [by rewrite Hs|].
      destruct (Hadj (name (target t))) as [_ [si Hi]]; [by rewrite Ht|].
      right. exists so, si. repeat split; eauto.
      apply add_transition_known; by rewrite ?Hs, ?Ht.
    + left. destruct (add_transition_unknown_target t m) as [msg ->];
        [by rewrite Hs | done |]. split; [by right | done].
  - left. destruct (add_transition_unknown_source t m Hs) as [msg ->].
    split; [by left | done].
Qed.

(** X2: A successful [add_transition] makes its edge valid in both directions
    of the adjacency and changes the validity of no other pair. *)
Theorem add_transition_valid (m m' : ProcessModel) (t : Transition) :
  Reachable m →
  add_transition t m = (Ok tt, m') →
  ∀ a b,
    (is_valid_transition m' a b = true ↔
     is_valid_transition m a b = true ∨
     (a = name (source t) ∧ b = name (target t))) ∧
    (a ∈ get_valid_previous_activities m' b ↔
     a ∈ get_valid_previous_activities m b ∨
     (a = name (source t) ∧ b = name (target t))).
Proof.
  intros [hist HB] Hrun a b.
  destruct (add_transition_cases hist m t HB)
    as [(_ & Hr & _) | (so & si & _ & _ & Ho & Hi & Heq)].
  { rewrite Hrun in Hr. done. }
  rewrite Heq in Hrun. injection Hrun as <-.
  unfold is_valid_transition, get_valid_previous_activities.
  rewrite !bool_decide_eq_true. cbn. split.
  - destruct (decide (name (source t) = a)) as [<-|Hne].
    + rewrite lookup_insert_eq, Ho. cbn.
      rewrite elem_of_union, elem_of_singleton. naive_solver.
    + rewrite lookup_insert_ne by done. naive_solver.
  - destruct (decide (name (target t) = b)) as [<-|Hne].
    + rewrite lookup_insert_eq, Hi. cbn.
      rewrite elem_of_union, elem_of_singleton. naive_solver.
    + rewrite lookup_insert_ne by done. naive_solver.
Qed.

Lemma add_transition_valid_witness :
  is_valid_transition o2c_linear "GoodsIssued" "InvoiceCreated" = true.
Proof.
  assert (Reachable (add_transition (transition_of DeliveryCreated GoodsIssued)
            (add_transition (transition_of OrderCreated DeliveryCreated)
               o2c_activities).2).2) as HR.
  { eexists. unfold o2c_activities. do 2 apply Built_add_transition.
    apply (Built_add_activity [OrderCreated; DeliveryCreated; GoodsIssued]).
    apply (Built_add_activity [OrderCreated; DeliveryCreated]).
    apply (Built_add_activity [OrderCreated]).
    apply (Built_add_activity []). apply Built_init. }
  apply (add_transition_valid _ o2c_linear
           (transition_of GoodsIssued InvoiceCreated) HR).
  - vm_compute. reflexivity.
  - right. split; reflexivity.
Defined.

Lemma get_activity_add_activity a m n :
  get_activity (add_activity a m) n
  = if decide (name a = n) then Some a else get_activity m n.
Proof.
  unfold get_activity. rewrite add_activity_activities. case_decide as Hn.
  - subst n. apply dict_get_set_eq.
  - by apply dict_get_set_ne.
Qed.

(** X3: In a reachable model the start and the end activities are mandatory, the
    mandatory names are activities of the model, and the adjacency maps have
    an entry for exactly the activities of the model. *)
Theorem reachable_model_sets (m : ProcessModel) :
  Reachable m →
  _start_activities m ⊆ _mandatory_activities m ∧
  _end_activities m ⊆ _mandatory_activities m ∧
  (∀ n, n ∈ _mandatory_activities m → is_Some (get_activity m n)) ∧
  (∀ n, is_Some (_outgoing m !! n) ↔ is_Some (get_activity m n)) ∧
  (∀ n, is_Some (_incoming m !! n) ↔ is_Some (get_activity m n)).
Proof.
  intros [hist HB].
  induction HB as [n0 dn0 de0 ve0 | hist m a _ IH | hist m t HB IH].
  - cbn. split; [done|]. split; [done|]. split; [|split].
    + intros k Hk. by apply not_elem_of_empty in Hk.
    + intros k. rewrite lookup_empty. unfold get_activity. cbn.
      split; by intros [? ?].
    + intros k. rewrite lookup_empty. unfold get_activity. cbn.
      split; by intros [? ?].
  - destruct IH as (Hs & He & Hm & Ho & Hi).
    rewrite add_activity_start, add_activity_end, add_activity_mandatory,
      add_activity_outgoing, add_activity_incoming.
    split; [|split; [|split; [|split]]].
    + repeat case_decide; try congruence.
      * by apply union_mono_r.
      * etrans; [exact Hs | apply union_subseteq_l].
      * done.
    + repeat case_decide; try congruence.
      * by apply union_mono_r.
      * etrans; [exact He | apply union_subseteq_l].
      * done.
    + intros n Hn. rewrite get_activity_add_activity.
      destruct (decide (name a = n)) as [|Hna]; [eauto|]. apply Hm.
      destruct (decide (activity_type a ≠ OPTIONAL)); [|done].
      apply elem_of_union in Hn as [?| ->%elem_of_singleton]; done.
    + intros n. rewrite <- setdefault_empty_is_Some, get_activity_add_activity, Ho.
      destruct (decide (name a = n)) as [|Hna]; [|naive_solver].
      split; [eauto | by right].
    + intros n. rewrite <- setdefault_empty_is_Some, get_activity_add_activity, Hi.
      destruct (decide (name a = n)) as [|Hna]; [|naive_solver].
      split; [eauto | by right].
  - destruct IH as (Hs & He & Hm & Ho & Hi).
    destruct (add_transition_cases hist m t HB)
      as [(_ & _ & ->) | (so & si & HsS & HtS & Hso & Hsi & ->)]; [done|].
    cbn. unfold get_activity in *. cbn.
    split; [done|]. split; [done|]. split; [done|]. split.
    + intros n. destruct (decide (name (source t) = n)) as [<-|Hne].
      * rewrite lookup_insert_eq. split; eauto.
      * by rewrite lookup_insert_ne.
    + intros n. destruct (decide (name (target t) = n)) as [<-|Hne].
      * rewrite lookup_insert_eq. split; eauto.
      * by rewrite lookup_insert_ne.
Qed.

Lemma o2c_linear_built :
  Built [OrderCreated; DeliveryCreated; GoodsIssued; InvoiceCreated] o2c_linear.
Proof.
  unfold o2c_linear, o2c_activities. do 3 apply Built_add_transition.
  apply (Built_add_activity [OrderCreated; DeliveryCreated; GoodsIssued]).
  apply (Built_add_activity [OrderCreated; DeliveryCreated]).
  apply (Built_add_activity [OrderCreated]).
  apply (Built_add_activity []). apply Built_init.
Qed.

Lemma reachable_model_sets_witness :
  _end_activities o2c_linear ⊆ _mandatory_activities o2c_linear.
Proof.
  exact (proj1 (proj2 (reachable_model_sets o2c_linear
           (ex_intro _ _ o2c_linear_built)))).
Defined.

(** Invariant tying the adjacency maps of a built model to its transition
    list. *)
Lemma Built_adjacency hist m :
  Built hist m →
  ∀ a b,
    (b ∈ default ∅ (_outgoing m !! a) ↔
     ∃ t, t ∈ _transitions m ∧ name (source t) = a ∧ name (target t) = b) ∧
    (a ∈ default ∅ (_incoming m !! b) ↔ b ∈ default ∅ (_outgoing m !! a)) ∧
    (b ∈ default ∅ (_outgoing m !! a) →
     is_Some (get_activity m a) ∧ is_Some (get_activity m b)).
Proof.
  induction 1 as [n0 dn0 de0 ve0 | hist m x _ IH | hist m t HB IH]; intros a b.
  - cbn. rewrite !lookup_empty. cbn. split; [|split].
    + split; [by intros ?%not_elem_of_empty|].
      by intros (t & ?%elem_of_nil & _).
    + done.
    + by intros ?%not_elem_of_empty.
  - destruct (IH a b) as (H1 & H2 & H3).
    rewrite add_activity_outgoing, add_activity_incoming,
      add_activity_transitions, !setdefault_empty_default,
      !get_activity_add_activity.
    split; [done|]. split; [done|]. intros Hb. destruct (H3 Hb).
    split; case_decide; eauto.
  - destruct (IH a b) as (H1 & H2 & H3).
    destruct (add_transition_cases hist m t HB)
      as [(_ & _ & ->) | (so & si & HsS & HtS & Hso & Hsi & ->)]; [done|].
    cbn. unfold get_activity in *. cbn.
    assert (b ∈ default ∅ (<[name (source t) := so ∪ {[name (target t)]}]>
                              (_outgoing m) !! a)
            ↔ b ∈ default ∅ (_outgoing m !! a)
              ∨ (a = name (source t) ∧ b = name (target t))) as Hout.
    { destruct (decide (name (source t) = a)) as [<-|Hne].
      - rewrite lookup_insert_eq, Hso. cbn.
        rewrite elem_of_union, elem_of_singleton. naive_solver.
      - rewrite lookup_insert_ne by done. naive_solver. }
    assert (a ∈ default ∅ (<[name (target t) := si ∪ {[name (source t)]}]>
                              (_incoming m) !! b)
            ↔ a ∈ default ∅ (_incoming m !! b)
              ∨ (a = name (source t) ∧ b = name (target t))) as Hin.
    { destruct (decide (name (target t) = b)) as [<-|Hne].
      - rewrite lookup_insert_eq, Hsi. cbn.
        rewrite elem_of_union, elem_of_singleton. naive_solver.
      - rewrite lookup_insert_ne by done. naive_solver. }
    rewrite Hout, Hin. split; [|split].
    + rewrite H1. setoid_rewrite elem_of_app.
      setoid_rewrite list_elem_of_singleton. split.
      * intros [(t' & ? & ? & ?) | [-> ->]]; [exists t' | exists t]; tauto.
      * intros (t' & [Ht' | ->] & <- & <-); [left; eauto | by right].
    + by rewrite H2.
    + intros [Hb | [-> ->]]; [by apply H3 | done].
Qed.

(** X4: In a reachable model a transition is valid exactly when the transition
    list holds an edge with these endpoint names; the two adjacency maps
    mirror each other; and the endpoints of a valid transition are
    activities of the model. *)
Theorem adjacency_matches_transitions (m : ProcessModel) :
  Reachable m →
  ∀ a b,
    (is_valid_transition m a b = true ↔
     ∃ t, t ∈ _transitions m ∧ name (source t) = a ∧ name (target t) = b) ∧
    (a ∈ get_valid_previous_activities m b ↔
     b ∈ get_valid_next_activities m a) ∧
    (is_valid_transition m a b = true →
     is_Some (get_activity m a) ∧ is_Some (get_activity m b)).
Proof.
  intros [hist HB] a b.
  unfold is_valid_transition, get_valid_previous_activities,
    get_valid_next_activities. rewrite bool_decide_eq_true.
  by apply (Built_adjacency hist).
Qed.

Lemma adjacency_matches_transitions_witness :
  "OrderCreated" ∈ get_valid_previous_activities o2c_linear "DeliveryCreated" ↔
  "DeliveryCreated" ∈ get_valid_next_activities o2c_linear "OrderCreated".
Proof.
  exact (proj1 (proj2 (adjacency_matches_transitions o2c_linear
           (ex_intro _ _ o2c_linear_built) "OrderCreated" "DeliveryCreated"))).
Defined.

(** Name lookup and event lookup on a dictionary keyed by name. *)
Lemma find_by_name (d : dict string Activity) (e : string) :
  (∀ k a, (k, a) ∈ d → name a = k ∧ sap_event_types a = ∅) →
  List.find (λ activity, matches_event activity e) (dict_values d)
  = dict_get e d.
Proof.
  induction d as [|[k a] d IH]; intros Hd; [done|].
  destruct (Hd k a) as [Hk Hal]; [apply list_elem_of_here|].
  cbn. unfold matches_event at 1. rewrite Hal, bool_decide_eq_true_2 by done.
  rewrite Hk. destruct (decide (e = k)) as [->|Hne].
  - by rewrite bool_decide_eq_true_2.
  - rewrite bool_decide_eq_false_2 by done. apply IH.
    intros k' a' Hin. apply Hd. by apply list_elem_of_further.
Qed.

(** X5: When no activity of a reachable model declares SAP event types, an event
    is mapped to the activity of that name: [get_activity_for_event] is
    [get_activity]. *)
Theorem event_lookup_without_aliases (m : ProcessModel) (e : string) :
  Reachable m →
  (∀ k a, (k, a) ∈ _activities m → sap_event_types a = ∅) →
  get_activity_for_event m e = get_activity m e.
Proof.
  intros [hist HB] Hal. destruct (Built_keyed_by_name _ _ HB) as [_ Hkey].
  apply find_by_name. intros k a Hin. split; [by apply Hkey | by eapply Hal].
Qed.

Lemma event_lookup_without_aliases_witness :
  get_activity_for_event o2c_linear "GoodsIssued"
  = get_activity o2c_linear "GoodsIssued".
Proof.
  apply event_lookup_without_aliases.
  - exact (ex_intro _ _ o2c_linear_built).
  - intros k a Hin. vm_compute in Hin.
    repeat (apply elem_of_cons in Hin as [Hin|Hin];
            [by injection Hin as -> ->|]).
    by apply elem_of_nil in Hin.
Defined.

(** * The model builder *)

Lemma Built_add_transition_adjacency hist m t m' :
  Built hist m →
  add_transition t m = (Ok tt, m') →
  _activities m' = _activities m ∧
  _mandatory_activities m' = _mandatory_activities m ∧
  _transitions m' = _transitions m ++ [t] ∧
  ∀ a b,
    b ∈ default ∅ (_outgoing m' !! a) ↔
    b ∈ default ∅ (_outgoing m !! a)
    ∨ (a = name (source t) ∧ b = name (target t)).
Proof.
  intros HB Hrun.
  destruct (add_transition_cases hist m t HB)
    as [(_ & Hr & _) | (so & si & _ & _ & Hso & Hsi & Heq)].
  { rewrite Hrun in Hr. done. }
  rewrite Heq in Hrun. injection Hrun as <-. cbn.
  split; [done|]. split; [done|]. split; [done|]. intros a b.
  destruct (decide (name (source t) = a)) as [<-|Hne].
  - rewrite lookup_insert_eq, Hso. cbn.
    rewrite elem_of_union, elem_of_singleton. naive_solver.
  - rewrite lookup_insert_ne by done. naive_solver.
Qed.

Lemma BuilderBuilt_inv b :
  BuilderBuilt b →
  builder_activities b = _activities (builder_model b) ∧
  ∃ hist, Built hist (builder_model b).
Proof.
  induction 1 as [n dn de ve | b n dn t al de _ [IHa [hist IHb]]
                 | b s t mand cond _ [IHa [hist IHb]]].
  - split; [done|]. eexists. apply Built_init.
  - cbn. rewrite add_activity_activities, IHa. split; [done|].
    eexists. by apply Built_add_activity.
  - unfold builder_add_transition, mbind, M_bind, get_self, raise, on_model.
    destruct (dict_get s (builder_activities b)) as [src|]; [|cbn; eauto].
    destruct (dict_get t (builder_activities b)) as [tgt|]; [|cbn; eauto].
    cbn. destruct (add_transition_frame
      {| source := src; target := tgt; is_mandatory_transition := mand;
         condition := cond |} (builder_model b)) as (Ha & _).
    rewrite Ha. split; [done|]. eexists. by apply Built_add_transition.
Qed.

(** What the builder's [add_transition] does, read off the builder's own
    activity map. *)
Lemma builder_add_transition_run b s t mand cond :
  BuilderBuilt b →
  match dict_get s (builder_activities b), dict_get t (builder_activities b) with
  | Some src, Some tgt =>
      ∃ b', builder_add_transition s t mand cond b = (Ok tt, b') ∧
            builder_activities b' = builder_activities b ∧
            _mandatory_activities (builder_model b')
            = _mandatory_activities (builder_model b) ∧
            _transitions (builder_model b')
            = _transitions (builder_model b)
              ++ [ {| source := src; target := tgt;
                      is_mandatory_transition := mand; condition := cond |} ] ∧
            ∀ x y, is_valid_transition (builder_model b') x y = true ↔
                   is_valid_transition (builder_model b) x y = true
                   ∨ (x = s ∧ y = t)
  | _, _ =>
      ∃ msg, builder_add_transition s t mand cond b = (Raise (ValueError msg), b)
  end.
Proof.
  intros HBB. destruct (BuilderBuilt_inv b HBB) as [Ha [hist HB]].
  unfold builder_add_transition, mbind, M_bind, get_self, raise, on_model.
  destruct (dict_get s (builder_activities b)) as [src|] eqn:Hs; [|cbn; eauto].
  destruct (dict_get t (builder_activities b)) as [tgt|] eqn:Ht; [|cbn; eauto].
  cbn. set (tr := {| source := src; target := tgt;
                     is_mandatory_transition := mand; condition := cond |}).
  destruct (Built_keyed_by_name _ _ HB) as [_ Hkey].
  rewrite Ha in Hs, Ht.
  pose proof (Hkey _ _ (dict_get_Some_elem _ _ _ Hs)) as Hns.
  pose proof (Hkey _ _ (dict_get_Some_elem _ _ _ Ht)) as Hnt.
  destruct (add_transition_cases hist (builder_model b) tr HB)
    as [([Hn|Hn] & _) | (so & si & _ & _ & _ & _ & Heq)].
  - unfold get_activity in Hn. cbn in Hn. rewrite Hns in Hn. congruence.
  - unfold get_activity in Hn. cbn in Hn. rewrite Hnt in Hn. congruence.
  - destruct (Built_add_transition_adjacency hist _ tr _ HB Heq)
      as (Hacts & Hman & Htrs & Hout).
    rewrite Heq. cbn [fst snd]. eexists. split; [reflexivity|]. cbn [builder_activities builder_model].
    split; [done|]. split; [done|]. split; [done|]. intros x y.
    unfold is_valid_transition. rewrite !bool_decide_eq_true, Hout.
    cbn. by rewrite Hns, Hnt.
Qed.

(** X6: The builder keeps its own activity map equal to the model's, so its
    [add_transition] raises exactly when a name was not defined through the
    builder, leaving builder and model untouched; otherwise it returns, and
    the model's own check never fires. *)
Theorem builder_add_transition_fail_fast (b : ProcessModelBuilder)
    (s t : string) (mand : bool) (cond : string) :
  BuilderBuilt b →
  builder_activities b = _activities (build b) ∧
  (raises (builder_add_transition s t mand cond b).1 ↔
   get_activity (build b) s = None ∨ get_activity (build b) t = None) ∧
  (raises (builder_add_transition s t mand cond b).1 →
   (builder_add_transition s t mand cond b).2 = b) ∧
  (¬ raises (builder_add_transition s t mand cond b).1 →
   (builder_add_transition s t mand cond b).1 = Ok tt ∧
   is_valid_transition
     (build (builder_add_transition s t mand cond b).2) s t = true).
Proof.
  intros HBB. destruct (BuilderBuilt_inv b HBB) as [Ha _].
  split; [done|]. unfold build, get_activity. rewrite <- Ha.
  pose proof (builder_add_transition_run b s t mand cond HBB) as Hrun.
  destruct (dict_get s (builder_activities b)) as [src|] eqn:Hs.
  - destruct (dict_get t (builder_activities b)) as [tgt|] eqn:Ht.
    + destruct Hrun as (b' & -> & _ & _ & _ & Hval). cbn.
      split; [split; [done | by intros [?|?]]|]. split; [done|].
      intros _. split; [done|]. apply Hval. by right.
    + destruct Hrun as (msg & ->). cbn.
      split; [split; [by right | done]|]. split; [done|]. by intros [].
  - destruct Hrun as (msg & ->). cbn.
    split; [split; [by left | done]|]. split; [done|]. by intros [].
Qed.

Lemma builder_add_transition_fail_fast_witness :
  raises (builder_add_transition "OrderCreated" "Shipped" true ""
            (builder_add_activity "OrderCreated" "Order Created" START None ""
               (ProcessModelBuilder_init "o2c" "Order to Cash" "" "1.0.0"))).1.
Proof.
  apply (builder_add_transition_fail_fast
           (builder_add_activity "OrderCreated" "Order Created" START None ""
              (ProcessModelBuilder_init "o2c" "Order to Cash" "" "1.0.0"))).
  - apply BuilderBuilt_add_activity, BuilderBuilt_init.
  - right. reflexivity.
Defined.

(** ** Loops of the builder *)

Lemma M_seq_ok {S} (c1 c2 : M S unit) s s1 s2 :
  c1 s = (Ok tt, s1) → c2 s1 = (Ok tt, s2) → (c1;; c2) s = (Ok tt, s2).
Proof. intros H1 H2. unfold mbind, M_bind. by rewrite H1. Qed.

(** A loop whose body returns from every state that satisfies the invariant
    of the items already handled returns, and the invariant holds of the
    whole list. *)
Lemma for_M_inv {S A} (I : list A → S → Prop) (body : A → M S unit)
    (l : list A) (s : S) :
  I [] s →
  (∀ pre x post s0, l = pre ++ x :: post → I pre s0 →
     ∃ s1, body x s0 = (Ok tt, s1) ∧ I (pre ++ [x]) s1) →
  ∃ s', for_M l body s = (Ok tt, s') ∧ I l s'.
Proof.
  intros H0 Hstep.
  assert (∀ post pre s0, l = pre ++ post → I pre s0 →
            ∃ s', for_M post body s0 = (Ok tt, s') ∧ I l s') as Hgen.
  { induction post as [|x post IH]; intros pre s0 Hl Hpre.
    - rewrite app_nil_r in Hl. subst. by exists s0.
    - destruct (Hstep pre x post s0 Hl Hpre) as (s1 & Hb & H1).
      destruct (IH (pre ++ [x]) s1) as (s2 & Hf & H2);
        [by rewrite <- app_assoc | done |].
      exists s2. split; [|done]. cbn [for_M]. by apply (M_seq_ok _ _ _ s1). }
  by apply (Hgen l [] s).
Qed.

Lemma zip_tail_seq (d : string) (l : list string) :
  zip l (tail l)
  = (λ i, (default d (l !! i), default d (l !! (i + 1))))
    <$> seq 0 (length l - 1).
Proof.
  induction l as [|a l IH]; [done|]. destruct l as [|b l]; [done|].
  change (zip (a :: b :: l) (tail (a :: b :: l)))
    with ((a, b) :: zip (b :: l) (tail (b :: l))).
  rewrite IH.
  change (length (a :: b :: l) - 1) with (S (length l)).
  change (length (b :: l) - 1) with (length l - 0). rewrite Nat.sub_0_r.
  cbn [seq]. rewrite fmap_cons. f_equal.
  rewrite <- fmap_S_seq, <- list_fmap_compose.
  apply list_fmap_ext. intros i x _. cbn. by rewrite Nat.add_1_r.
Qed.

Lemma omap_fmap_compose {A B C} (f : B → option C) (g : A → B) (l : list A) :
  omap f (g <$> l) = omap (λ x, f (g x)) l.
Proof. induction l as [|x l IH]; [done|]. cbn. by rewrite IH. Qed.

(** X7: [add_sequence]: a list of at most one name is accepted whatever the name;
    a list of names that were all defined through the builder appends the
    transitions between consecutive names, in order, and makes exactly these
    pairs valid in addition. *)
Theorem builder_add_sequence_defined (b : ProcessModelBuilder)
    (names : list string) (mand : bool) :
  BuilderBuilt b →
  (length names ≤ 1 → builder_add_sequence names mand b = (Ok tt, b)) ∧
  (Forall (λ n, is_Some (dict_get n (builder_activities b))) names →
   ∃ b',
     builder_add_sequence names mand b = (Ok tt, b') ∧
     builder_activities b' = builder_activities b ∧
     _transitions (build b')
     = _transitions (build b)
       ++ sequence_transitions (builder_activities b) names mand ∧
     length (sequence_transitions (builder_activities b) names mand)
     = length names - 1 ∧
     ∀ x y, is_valid_transition (build b') x y = true ↔
            is_valid_transition (build b) x y = true
            ∨ ∃ i, names !! i = Some x ∧ names !! (i + 1) = Some y).
Proof.
  intros HBB. split.
  { intros Hlen. unfold builder_add_sequence.
    destruct names as [|a [|a' names]]; [done | done | simpl in Hlen; lia]. }
  intros Hdef. rewrite Forall_forall in Hdef.
  set (tr := λ i, transition_between (builder_activities b) (default "" (names !! i))
                    (default "" (names !! (i + 1))) mand).
  destruct (for_M_inv
    (λ pre s,
       BuilderBuilt s ∧ builder_activities s = builder_activities b ∧
       _transitions (build s) = _transitions (build b) ++ omap tr pre ∧
       length (omap tr pre) = length pre ∧
       ∀ x y, is_valid_transition (build s) x y = true ↔
              is_valid_transition (build b) x y = true
              ∨ ∃ i, i ∈ pre ∧ names !! i = Some x ∧ names !! (i + 1) = Some y)
    (λ i, builder_add_transition (default "" (names !! i))
            (default "" (names !! (i + 1))) mand "")
    (seq 0 (length names - 1)) b) as (b' & Hrun & HB' & Hacts & Htrs & Hlen & Hval).
  - split; [done|]. split; [done|]. split; [by rewrite app_nil_r|].
    split; [done|]. intros x y. split; [by left|].
    by intros [?|(i & ?%elem_of_nil & _)].
  - intros pre i post s Hl (HBs & Hs & Hts & Hls & Hvs).
    assert (i ∈ seq 0 (length names - 1)) as Hi.
    { rewrite Hl. apply elem_of_app. right. apply list_elem_of_here. }
    apply elem_of_seq in Hi.
    destruct (lookup_lt_is_Some_2 names i) as [n1 Hn1]; [lia|].
    destruct (lookup_lt_is_Some_2 names (i + 1)) as [n2 Hn2]; [lia|].
    rewrite Hn1, Hn2. cbn [default].
    destruct (Hdef n1) as [src Hsrc]; [by eapply list_elem_of_lookup_2|].
    destruct (Hdef n2) as [tgt Htgt]; [by eapply list_elem_of_lookup_2|].
    pose proof (builder_add_transition_run s n1 n2 mand "" HBs) as Hrun.
    rewrite Hs, Hsrc, Htgt in Hrun.
    destruct Hrun as (s' & Hrun & Hs' & _ & Hts' & Hvs').
    pose proof (BuilderBuilt_add_transition s n1 n2 mand "" HBs) as HBs'.
    rewrite Hrun in HBs'. exists s'. split; [done|].
    assert (tr i = Some {| source := src; target := tgt;
                           is_mandatory_transition := mand; condition := "" |})
      as Htr.
    { unfold tr, transition_between. rewrite Hn1, Hn2. cbn [from_option id].
      by rewrite Hsrc, Htgt. }
    split; [done|]. split; [by rewrite Hs'|]. rewrite omap_app. cbn [omap list_omap]. rewrite Htr.
    split; [|split].
    + unfold build in *. by rewrite Hts', Hts, <- app_assoc.
    + rewrite !length_app, Hls. done.
    + intros x y. unfold build in *. rewrite Hvs', Hvs. split.
      * intros [[?|(j & Hj & ? & ?)] | [-> ->]].
        -- by left.
        -- right. exists j. split; [|done]. apply elem_of_app. by left.
        -- right. exists i. split; [|done]. apply elem_of_app. right.
           apply list_elem_of_here.
      * intros [?|(j & [Hj| ->%list_elem_of_singleton]%elem_of_app & Hx & Hy)].
        -- by left; left.
        -- left. right. by exists j.
        -- right. split; congruence.
  - exists b'. split; [exact Hrun|]. split; [done|].
    assert (sequence_transitions (builder_activities b) names mand
            = omap tr (seq 0 (length names - 1))) as Heq.
    { unfold sequence_transitions. rewrite (zip_tail_seq ""), omap_fmap_compose.
      done. }
    rewrite Heq. split; [done|]. split; [by rewrite Hlen, length_seq|].
    intros x y. rewrite Hval. split.
    + intros [?|(i & _ & ? & ?)]; [by left | right; by exists i].
    + intros [?|(i & Hx & Hy)]; [by left|]. right. exists i.
      split; [|done]. apply elem_of_seq.
      apply lookup_lt_Some in Hy. lia.
Qed.

Lemma builder_add_sequence_defined_witness :
  builder_add_sequence ["Shipped"] true
    (ProcessModelBuilder_init "o2c" "Order to Cash" "" "1.0.0")
  = (Ok tt, ProcessModelBuilder_init "o2c" "Order to Cash" "" "1.0.0").
Proof.
  apply (builder_add_sequence_defined
           (ProcessModelBuilder_init "o2c" "Order to Cash" "" "1.0.0")
           ["Shipped"] true).
  - apply BuilderBuilt_init.
  - simpl. lia.
Defined.

Lemma builder_add_transition_extends b x y mand cond :
  BuilderBuilt b →
  is_Some (dict_get x (builder_activities b)) →
  is_Some (dict_get y (builder_activities b)) →
  ∃ b', builder_add_transition x y mand cond b = (Ok tt, b') ∧
        BuilderBuilt b' ∧
        builder_activities b' = builder_activities b ∧
        _mandatory_activities (build b') = _mandatory_activities (build b) ∧
        (∀ u v, is_valid_transition (build b) u v = true →
                is_valid_transition (build b') u v = true) ∧
        is_valid_transition (build b') x y = true.
Proof.
  intros HBB [src Hsrc] [tgt Htgt].
  pose proof (builder_add_transition_run b x y mand cond HBB) as Hrun.
  rewrite Hsrc, Htgt in Hrun. destruct Hrun as (b' & Hrun & Ha & Hm & _ & Hv).
  pose proof (BuilderBuilt_add_transition b x y mand cond HBB) as HB'.
  rewrite Hrun in HB'. exists b'. split; [done|]. split; [done|].
  split; [done|]. split; [done|]. unfold build.
  split; [intros u v Huv; apply Hv; by left | apply Hv; by right].
Qed.

(** The two transitions of one step of a loop of [add_parallel_activities]. *)
Lemma builder_add_transition_pair b x y x' y' mand mand' :
  BuilderBuilt b →
  is_Some (dict_get x (builder_activities b)) →
  is_Some (dict_get y (builder_activities b)) →
  is_Some (dict_get x' (builder_activities b)) →
  is_Some (dict_get y' (builder_activities b)) →
  ∃ b', (builder_add_transition x y mand "";;
         builder_add_transition x' y' mand' "") b = (Ok tt, b') ∧
        BuilderBuilt b' ∧
        builder_activities b' = builder_activities b ∧
        _mandatory_activities (build b') = _mandatory_activities (build b) ∧
        (∀ u v, is_valid_transition (build b) u v = true →
                is_valid_transition (build b') u v = true) ∧
        is_valid_transition (build b') x y = true ∧
        is_valid_transition (build b') x' y' = true.
Proof.
  intros HBB Hx Hy Hx' Hy'.
  destruct (builder_add_transition_extends b x y mand "" HBB Hx Hy)
    as (b1 & Hr1 & HB1 & Ha1 & Hm1 & Hv1 & Hxy).
  rewrite <- Ha1 in Hx', Hy'.
  destruct (builder_add_transition_extends b1 x' y' mand' "" HB1 Hx' Hy')
    as (b2 & Hr2 & HB2 & Ha2 & Hm2 & Hv2 & Hxy').
  exists b2. split; [by apply (M_seq_ok _ _ _ b1)|]. split; [done|].
  split; [congruence|]. split; [congruence|].
  split; [intros u v Huv; by apply Hv2, Hv1|]. split; [by apply Hv2 | done].
Qed.

(** [add_parallel_activities] with every name defined returns and leaves the
    parallel activities connected in both directions. *)
Lemma builder_add_parallel_activities_run b predecessor parallel successor :
  BuilderBuilt b →
  Forall (λ n, is_Some (dict_get n (builder_activities b)))
         (predecessor :: successor :: parallel) →
  ∃ b', builder_add_parallel_activities predecessor parallel successor b
        = (Ok tt, b') ∧
        BuilderBuilt b' ∧
        builder_activities b' = builder_activities b ∧
        _mandatory_activities (build b') = _mandatory_activities (build b) ∧
        (∀ u v, is_valid_transition (build b) u v = true →
                is_valid_transition (build b') u v = true) ∧
        (∀ a, a ∈ parallel →
              is_valid_transition (build b') predecessor a = true ∧
              is_valid_transition (build b') a successor = true) ∧
        (∀ i j a1 a2, parallel !! i = Some a1 → parallel !! j = Some a2 →
                      i < j →
                      is_valid_transition (build b') a1 a2 = true ∧
                      is_valid_transition (build b') a2 a1 = true).
Proof.
  intros HBB Hdef. rewrite Forall_forall in Hdef.
  assert (is_Some (dict_get predecessor (builder_activities b))) as Hp.
  { apply Hdef, list_elem_of_here. }
  assert (is_Some (dict_get successor (builder_activities b))) as Hs.
  { apply Hdef, list_elem_of_further, list_elem_of_here. }
  assert (∀ a, a ∈ parallel → is_Some (dict_get a (builder_activities b)))
    as Hpar.
  { intros a Ha. by apply Hdef, list_elem_of_further, list_elem_of_further. }
  destruct (for_M_inv
    (λ pre s,
       BuilderBuilt s ∧ builder_activities s = builder_activities b ∧
       _mandatory_activities (build s) = _mandatory_activities (build b) ∧
       (∀ u v, is_valid_transition (build b) u v = true →
               is_valid_transition (build s) u v = true) ∧
       ∀ a, a ∈ pre →
            is_valid_transition (build s) predecessor a = true ∧
            is_valid_transition (build s) a successor = true)
    (λ activity,
       builder_add_transition predecessor activity true "";;
       builder_add_transition activity successor true "")
    parallel b) as (b1 & Hrun1 & HB1 & Ha1 & Hm1 & Hv1 & Hps1).
  { split; [done|]. split; [done|]. split; [done|]. split; [done|].
    by intros a ?%elem_of_nil. }
  { intros pre a post s Hl (HBs & Has & Hms & Hvs & Hpre).
    assert (a ∈ parallel) as Hain.
    { rewrite Hl. apply elem_of_app. right. apply list_elem_of_here. }
    destruct (builder_add_transition_pair s predecessor a a successor true true)
      as (s' & Hr & HB' & Ha' & Hm' & Hv' & Hpa & Has');
      [done | by rewrite Has | rewrite Has; by apply Hpar
       | rewrite Has; by apply Hpar | by rewrite Has |].
    exists s'. split; [done|]. split; [done|]. split; [congruence|].
    split; [congruence|]. split; [intros u v Huv; by apply Hv', Hvs|].
    intros a' [Ha'in| ->%list_elem_of_singleton]%elem_of_app; [|done].
    destruct (Hpre a' Ha'in). split; by apply Hv'. }
  destruct (for_M_inv
    (λ pre s,
       BuilderBuilt s ∧ builder_activities s = builder_activities b ∧
       _mandatory_activities (build s) = _mandatory_activities (build b) ∧
       (∀ u v, is_valid_transition (build b1) u v = true →
               is_valid_transition (build s) u v = true) ∧
       ∀ i a1 a2, (i, a1) ∈ pre → a2 ∈ drop (i + 1) parallel →
                  is_valid_transition (build s) a1 a2 = true ∧
                  is_valid_transition (build s) a2 a1 = true)
    (λ '(i, act1),
       for_M (drop (i + 1) parallel)
         (λ act2,
            builder_add_transition act1 act2 false "";;
            builder_add_transition act2 act1 false ""))
    (imap pair parallel) b1) as (b2 & Hrun2 & HB2 & Ha2 & Hm2 & Hv2 & Hpairs).
  { split; [done|]. split; [done|]. split; [done|]. split; [done|].
    by intros i a1 a2 ?%elem_of_nil. }
  { intros pre [i a1] post s Hl (HBs & Has & Hms & Hvs & Hpre).
    assert (a1 ∈ parallel) as Ha1in.
    { assert ((i, a1) ∈ imap pair parallel) as Hin.
      { rewrite Hl. apply elem_of_app. right. apply list_elem_of_here. }
      apply list_elem_of_lookup in Hin as [k Hk].
      rewrite list_lookup_imap in Hk.
      destruct (parallel !! k) as [a|] eqn:Hpk; [|done].
      injection Hk as _ ->. by eapply list_elem_of_lookup_2. }
    destruct (for_M_inv
      (λ pre' s',
         BuilderBuilt s' ∧ builder_activities s' = builder_activities b ∧
         _mandatory_activities (build s') = _mandatory_activities (build b) ∧
         (∀ u v, is_valid_transition (build s) u v = true →
                 is_valid_transition (build s') u v = true) ∧
         ∀ a2, a2 ∈ pre' →
               is_valid_transition (build s') a1 a2 = true ∧
               is_valid_transition (build s') a2 a1 = true)
      (λ act2,
         builder_add_transition a1 act2 false "";;
         builder_add_transition act2 a1 false "")
      (drop (i + 1) parallel) s) as (s' & Hr & HB' & Ha' & Hm' & Hv' & Hin').
    { split; [done|]. split; [done|]. split; [done|]. split; [done|].
      by intros a2 ?%elem_of_nil. }
    { intros pre' a2 post' t Hl' (HBt & Hat & Hmt & Hvt & Hpre').
      assert (a2 ∈ parallel) as Ha2in.
      { assert (a2 ∈ drop (i + 1) parallel) as Hin.
        { rewrite Hl'. apply elem_of_app. right. apply list_elem_of_here. }
        apply list_elem_of_lookup in Hin as [k Hk]. rewrite lookup_drop in Hk.
        by eapply list_elem_of_lookup_2. }
      destruct (builder_add_transition_pair t a1 a2 a2 a1 false false)
        as (t' & Hrt & HBt' & Hat' & Hmt' & Hvt' & H12 & H21);
        [done | rewrite Hat; by apply Hpar | rewrite Hat; by apply Hpar
         | rewrite Hat; by apply Hpar | rewrite Hat; by apply Hpar |].
      exists t'. split; [done|]. split; [done|]. split; [congruence|].
      split; [congruence|]. split; [intros u v Huv; by apply Hvt', Hvt|].
      intros a [Hain| ->%list_elem_of_singleton]%elem_of_app; [|done].
      destruct (Hpre' a Hain). split; by apply Hvt'. }
    exists s'. split; [exact Hr|]. split; [done|]. split; [done|].
    split; [done|]. split; [intros u v Huv; by apply Hv', Hvs|].
    intros j x y [Hjx|Heq%list_elem_of_singleton]%elem_of_app Hy.
    - destruct (Hpre j x y Hjx Hy). split; by apply Hv'.
    - injection Heq as -> ->. by apply Hin'. }
  exists b2. split.
  { unfold builder_add_parallel_activities. by apply (M_seq_ok _ _ _ b1). }
  split; [done|]. split; [done|]. split; [done|].
  split; [intros u v Huv; by apply Hv2, Hv1|]. split.
  - intros a Ha. destruct (Hps1 a Ha). split; by apply Hv2.
  - intros i j a1 a2 Hi Hj Hlt. apply (Hpairs i).
    + apply list_elem_of_lookup. exists i. by rewrite list_lookup_imap, Hi.
    + apply list_elem_of_lookup. exists (j - (i + 1)).
      rewrite lookup_drop. by replace (i + 1 + (j - (i + 1))) with j by lia.
Qed.

(** X8: [add_parallel_activities] connects every two of the parallel activities
    in both directions.  The traversal of [get_expected_sequence] follows
    every transition between mandatory activities, whatever the flag of the
    transition, so two mandatory parallel activities leave the model with a
    cycle of mandatory predecessors. *)
Theorem builder_add_parallel_activities_cycle (b : ProcessModelBuilder)
    (predecessor successor : string) (parallel : list string)
    (act1 act2 : string) :
  BuilderBuilt b →
  Forall (λ n, is_Some (dict_get n (builder_activities b)))
         (predecessor :: successor :: parallel) →
  act1 ∈ parallel → act2 ∈ parallel → act1 ≠ act2 →
  is_mandatory (build b) act1 = true → is_mandatory (build b) act2 = true →
  ∃ b',
    builder_add_parallel_activities predecessor parallel successor b
    = (Ok tt, b') ∧
    is_valid_transition (build b') act1 act2 = true ∧
    is_valid_transition (build b') act2 act1 = true ∧
    ¬ acyclic (build b').
Proof.
  intros HBB Hdef H1 H2 Hne Hm1 Hm2.
  destruct (builder_add_parallel_activities_run b predecessor parallel
              successor HBB Hdef)
    as (b' & Hrun & HB' & _ & Hm & _ & _ & Hpairs).
  apply list_elem_of_lookup in H1 as [i Hi].
  apply list_elem_of_lookup in H2 as [j Hj].
  assert (is_valid_transition (build b') act1 act2 = true ∧
          is_valid_transition (build b') act2 act1 = true) as [H12 H21].
  { destruct (Nat.lt_trichotomy i j) as [Hlt|[->|Hlt]].
    - by apply (Hpairs i j).
    - congruence.
    - destruct (Hpairs j i act2 act1 Hj Hi Hlt). done. }
  exists b'. split; [done|]. split; [done|]. split; [done|].
  destruct (BuilderBuilt_inv b' HB') as [_ [hist HB]].
  unfold is_mandatory in Hm1, Hm2. rewrite bool_decide_eq_true in Hm1, Hm2.
  rewrite <- Hm in Hm1, Hm2.
  unfold is_valid_transition in H12, H21.
  rewrite bool_decide_eq_true in H12, H21.
  intros Hac. apply (Hac act1).
  apply (tc_l _ _ act2); [|apply tc_once]; unfold mandatory_pred.
  - split; [|done]. by apply (Built_adjacency hist (build b') HB act1 act2).
  - split; [|done]. by apply (Built_adjacency hist (build b') HB act2 act1).
Qed.

Lemma builder_add_parallel_activities_cycle_witness :
  ∃ b',
    builder_add_parallel_activities "OrderCreated"
      ["CreditChecked"; "StockReserved"] "DeliveryCreated"
      (builder_add_activity "DeliveryCreated" "Delivery Created" END None ""
         (builder_add_activity "StockReserved" "Stock Reserved" INTERMEDIATE
            None ""
            (builder_add_activity "CreditChecked" "Credit Checked" INTERMEDIATE
               None ""
               (builder_add_activity "OrderCreated" "Order Created" START
                  None ""
                  (ProcessModelBuilder_init "o2c" "Order to Cash" "" "1.0.0")))))
    = (Ok tt, b') ∧
    is_valid_transition (build b') "CreditChecked" "StockReserved" = true ∧
    is_valid_transition (build b') "StockReserved" "CreditChecked" = true ∧
    ¬ acyclic (build b').
Proof.
  apply builder_add_parallel_activities_cycle.
  - do 4 apply BuilderBuilt_add_activity. apply BuilderBuilt_init.
  - repeat constructor; by eexists.
  - apply list_elem_of_here.
  - apply list_elem_of_further, list_elem_of_here.
  - done.
  - by vm_compute.
  - by vm_compute.
Defined.

(** * The execution state *)

Lemma list_index_None x l : list_index x l = None ↔ x ∉ l.
Proof.
  induction l as [|y l IH]; cbn [list_index].
  - split; [intros _; apply not_elem_of_nil | done].
  - rewrite not_elem_of_cons. destruct (decide (x = y)) as [->|Hne].
    + split; [done | by intros [? _]].
    + destruct (list_index x l); cbn; split; try done.
      * intros [_ Hn]. by apply IH in Hn.
      * intros _. split; [done | by apply IH].
Qed.

Lemma list_index_Some x l i :
  list_index x l = Some i ↔
  l !! i = Some x ∧ ∀ j, j < i → l !! j ≠ Some x.
Proof.
  revert i. induction l as [|y l IH]; intros i; cbn [list_index].
  - split; [done | by intros [? _]].
  - destruct (decide (x = y)) as [->|Hne].
    + split.
      * intros [= <-]. split; [done | intros j ?; lia].
      * intros [Hi Hfirst]. destruct i as [|i]; [done|].
        by destruct (Hfirst 0); [lia|].
    + destruct i as [|i].
      * split; [by destruct (list_index x l) | intros [[= ->] _]; done].
      * destruct (list_index x l) as [k|] eqn:Hk; cbn.
        -- split.
           ++ intros [= <-]. destruct (proj1 (IH k) eq_refl) as [Hl Hfirst].
              split; [done|]. intros [|j] Hj; cbn; [congruence|].
              apply Hfirst. lia.
           ++ intros [Hi Hfirst]. f_equal. f_equal. symmetry.
              assert (Some k = Some i) as [= ->]; [|done].
              apply IH. split; [done|]. intros j Hj.
              apply (Hfirst (S j)). lia.
        -- split; [done|]. intros [Hi _]. apply list_index_None in Hk.
           destruct Hk. by eapply list_elem_of_lookup_2.
Qed.

Lemma list_index_app x l l' : x ∈ l → list_index x (l ++ l') = list_index x l.
Proof.
  induction l as [|y l IH]; [by intros ?%elem_of_nil|].
  intros Hin. cbn [app list_index]. destruct (decide (x = y)); [done|].
  rewrite IH; [done|]. by apply elem_of_cons in Hin as [?|?].
Qed.

Lemma Executed_sequence hist s :
  Executed hist s →
  execution_sequence s = name <$> hist ∧
  state_executed_activities s = list_to_set (execution_sequence s) ∧
  current_activity s = last hist.
Proof.
  induction 1 as [|hist s a _ (IH1 & IH2 & _)]; [done|]. cbn.
  rewrite fmap_app, IH1, list_to_set_app_L, IH2, IH1, last_snoc. cbn.
  split; [done|]. split; [|done]. by rewrite union_empty_r_L.
Qed.

(** X9: A state reached by [execute] alone keeps its set and its list in step:
    the sequence lists the names in the order of execution, [has_executed]
    agrees with membership in it and with [get_position] not being -1,
    [get_position] is the index of the first execution, and executing more
    activities never moves the position of an executed one. *)
Theorem process_state_positions (hist : list Activity) (s : ProcessState)
    (n : string) :
  Executed hist s →
  execution_sequence s = name <$> hist ∧
  current_activity s = last hist ∧
  (has_executed s n = true ↔ n ∈ execution_sequence s) ∧
  (has_executed s n = false ↔ get_position s n = (-1)%Z) ∧
  (∀ i, get_position s n = Z.of_nat i ↔
        execution_sequence s !! i = Some n ∧
        ∀ j, j < i → execution_sequence s !! j ≠ Some n) ∧
  (∀ a, has_executed s n = true →
        get_position (execute a s) n = get_position s n).
Proof.
  intros HE. destruct (Executed_sequence hist s HE) as (Hseq & Hset & Hcur).
  assert (has_executed s n = true ↔ n ∈ execution_sequence s) as Hhas.
  { unfold has_executed. rewrite bool_decide_eq_true, Hset.
    apply elem_of_list_to_set. }
  split; [done|]. split; [done|]. split; [done|]. split; [|split].
  - rewrite <- not_true_iff_false, Hhas, <- list_index_None.
    unfold get_position. destruct (list_index n (execution_sequence s)).
    + split; [done | lia].
    + done.
  - intros i. rewrite <- list_index_Some. unfold get_position.
    destruct (list_index n (execution_sequence s)) as [k|].
    + split; [intros Hk; f_equal; lia | by intros [= ->]].
    + split; [lia | done].
  - intros a Hn. apply Hhas in Hn. unfold get_position, execute. cbn.
    by rewrite list_index_app.
Qed.

Lemma process_state_positions_witness :
  get_position (execute DeliveryCreated (execute OrderCreated ProcessState_init))
    "OrderCreated"
  = get_position (execute OrderCreated ProcessState_init) "OrderCreated".
Proof.
  refine (proj2 (proj2 (proj2 (proj2 (proj2 (process_state_positions
            [OrderCreated] (execute OrderCreated ProcessState_init)
            "OrderCreated" _))))) DeliveryCreated _).
  - apply (Executed_execute [] _ _ Executed_init).
  - by vm_compute.
Defined.

(** * What the detector reports *)

(** A loop read through an invariant of the items handled so far. *)
Lemma foldl_prefix_inv {S A} (I : list A → S → Prop) (f : S → A → S)
    (l : list A) (s0 : S) :
  I [] s0 →
  (∀ pre x post s, l = pre ++ x :: post → I pre s → I (pre ++ [x]) (f s x)) →
  I l (foldl f s0 l).
Proof.
  intros H0 Hstep.
  assert (∀ post pre s, l = pre ++ post → I pre s → I l (foldl f s post))
    as Hgen.
  { induction post as [|x post IH]; intros pre s Hl Hpre.
    - rewrite app_nil_r in Hl. by subst.
    - cbn [foldl]. apply (IH (pre ++ [x])); [by rewrite <- app_assoc|].
      by apply (Hstep pre x post). }
  by apply (Hgen l []).
Qed.

Lemma imap_pair_split {A} (l : list A) pre i x post :
  imap pair l = pre ++ (i, x) :: post → i = length pre ∧ l !! i = Some x.
Proof.
  intros Hl.
  assert (imap pair l !! length pre = Some (i, x)) as Hi.
  { rewrite Hl. by apply list_lookup_middle. }
  rewrite list_lookup_imap in Hi.
  destruct (l !! length pre) as [x'|] eqn:Hx; [|done].
  cbn in Hi. injection Hi as <- ->. done.
Qed.

Lemma reported_nil t n pos : reported [] t n pos ↔ False.
Proof. split; [by intros (d & ?%elem_of_nil & _) | done]. Qed.

Lemma reported_app l1 l2 t n pos :
  reported (l1 ++ l2) t n pos ↔ reported l1 t n pos ∨ reported l2 t n pos.
Proof. unfold reported. setoid_rewrite elem_of_app. naive_solver. Qed.

Lemma reported_singleton d t n pos :
  reported [d] t n pos ↔
  deviation_type d = t ∧ activity_name d = n ∧ position d = pos.
Proof. unfold reported. setoid_rewrite list_elem_of_singleton. naive_solver. Qed.

Lemma reported_perm l1 l2 t n pos :
  l1 ≡ₚ l2 → reported l1 t n pos ↔ reported l2 t n pos.
Proof. intros Hp. unfold reported. by setoid_rewrite Hp. Qed.

Section Reports.
Variable set_iter : gset string → list string.
Variable fromisoformat : string → option datetime.
Hypothesis set_iter_spec : ∀ (s : gset string) x, x ∈ set_iter s ↔ x ∈ s.
Variable self : DeviationDetector.
Variable trace : list Event.
Variable cid : string.

Local Abbreviation m := (detector_model self).
Local Abbreviation order := (_dependency_order self).

(** What every deviation of a pass carries. *)
Local Abbreviation sound activities d :=
  (case_id d = cid ∧
   severity d
   = get_severity (detector_scorer self) (deviation_type d) (activity_name d) ∧
   (deviation_type d = WRONG_ORDER →
    ∃ i prev,
      position d = Z.of_nat i ∧
      wrong_order_evidence (detector_model self) (_dependency_order self)
        activities (activity_name d) i prev ∧
      recommendation d
      = "Execute " +:+ prev +:+ " before " +:+ activity_name d)).

Lemma start_pass_spec activities :
  (∀ d, d ∈ _check_start_activity set_iter fromisoformat self activities trace cid →
        sound activities d) ∧
  (∀ t n pos,
     reported (_check_start_activity set_iter fromisoformat self activities
                 trace cid) t n pos ↔
     t = INVALID_START ∧ justification m order activities INVALID_START n pos).
Proof.
  unfold _check_start_activity. destruct activities as [|first rest].
  { split; [by intros d ?%elem_of_nil|]. intros t n pos. rewrite reported_nil.
    split; [done|]. by intros [_ (_ & ? & _)]. }
  destruct (is_start_activity m first) eqn:Hst; cbn [negb].
  { split; [by intros d ?%elem_of_nil|]. intros t n pos. rewrite reported_nil.
    split; [done|]. intros [_ (_ & [= ->] & _ & Hns)]. congruence. }
  destruct (get_activity m first) eqn:Hg.
  - split.
    + intros d ->%list_elem_of_singleton. cbn. split; [done|]. split; [done|].
      discriminate.
    + intros t n pos. rewrite reported_singleton. cbn. split.
      * intros (<- & <- & <-). split; [done|]. split; [done|]. split; [done|].
        split; [by rewrite Hg | done].
      * by intros (-> & -> & [= <-] & _ & _).
  - split; [by intros d ?%elem_of_nil|]. intros t n pos. rewrite reported_nil.
    split; [done|]. intros [_ (_ & [= ->] & [? Hk] & _)]. congruence.
Qed.

Lemma unexpected_pass_spec activities :
  (∀ d, d ∈ _check_unexpected_activities fromisoformat self activities trace cid →
        sound activities d) ∧
  (∀ t n pos,
     reported (_check_unexpected_activities fromisoformat self activities
                 trace cid) t n pos ↔
     t = UNEXPECTED_ACTIVITY ∧
     justification m order activities UNEXPECTED_ACTIVITY n pos).
Proof.
  unfold _check_unexpected_activities.
  match goal with |- context [foldl ?f0 [] _] => set (f := f0) end.
  pose (I := λ (pre : list (nat * string)) (devs : list Deviation),
     (∀ d, d ∈ devs → sound activities d) ∧
     ∀ t n pos, reported devs t n pos ↔
       t = UNEXPECTED_ACTIVITY ∧
       ∃ i, pos = Z.of_nat i ∧ i < length pre ∧ activities !! i = Some n ∧
            get_activity m n = None).
  assert (I (imap pair activities) (foldl f [] (imap pair activities)))
    as [Hs Hr].
  { apply foldl_prefix_inv.
    - split; [by intros d ?%elem_of_nil|]. intros t n pos.
      rewrite reported_nil. split; [done|]. cbn. intros (_ & i & _ & ? & _). lia.
    - intros pre [i a] post devs Hl [Hs Hr].
      destruct (imap_pair_split _ _ _ _ _ Hl) as [-> Hia].
      unfold f, I. cbn beta iota. rewrite length_app. cbn [length].
      destruct (get_activity m a) eqn:Hg.
      + split; [done|]. intros t n pos. rewrite Hr. split.
        * intros (-> & j & -> & Hj & Hn). split; [done|]. exists j.
          split; [done|]. split; [lia | done].
        * intros (-> & j & -> & Hj & Hjn & Hn). split; [done|]. exists j.
          split; [done|]. split; [|done].
          destruct (decide (j = length pre)) as [->|]; [|lia]. congruence.
      + split.
        * intros d [Hd| ->%list_elem_of_singleton]%elem_of_app; [by apply Hs|].
          cbn. split; [done|]. split; [done|]. discriminate.
        * intros t n pos. rewrite reported_app, reported_singleton, Hr. cbn.
          split.
          -- intros [(-> & j & -> & Hj & Hn) | (<- & <- & <-)].
             ++ split; [done|]. exists j. split; [done|]. split; [lia | done].
             ++ split; [done|]. exists (length pre). split; [done|].
                split; [lia | done].
          -- intros (-> & j & -> & Hj & Hjn & Hn).
             destruct (decide (j = length pre)) as [->|].
             ++ right. split; [done|]. split; congruence.
             ++ left. split; [done|]. exists j. split; [done|].
                split; [lia | done]. }
  split; [done|]. intros t n pos. rewrite Hr. cbn [justification]. split.
  - intros (-> & i & -> & _ & ? & ?). split; [done|]. by exists i.
  - intros (-> & i & -> & Hi & ?). split; [done|]. exists i.
    split; [done|]. split; [|done]. rewrite length_imap.
    by eapply lookup_lt_Some.
Qed.

Lemma missing_pass_spec activities :
  (∀ d, d ∈ _check_missing_activities set_iter self activities trace cid →
        sound activities d) ∧
  (∀ t n pos,
     reported (_check_missing_activities set_iter self activities trace cid)
       t n pos ↔
     t = MISSING_ACTIVITY ∧
     justification m order activities MISSING_ACTIVITY n pos).
Proof.
  unfold _check_missing_activities. cbn zeta.
  match goal with |- context [foldl ?f0 [] ?l0] => set (f := f0); set (l := l0) end.
  pose (I := λ (pre : list string) (devs : list Deviation),
     (∀ d, d ∈ devs → sound activities d) ∧
     ∀ t n pos, reported devs t n pos ↔
       t = MISSING_ACTIVITY ∧ pos = (-1)%Z ∧ n ∈ pre).
  assert (I l (foldl f [] l)) as [Hs Hr].
  { apply foldl_prefix_inv.
    - split; [by intros d ?%elem_of_nil|]. intros t n pos.
      rewrite reported_nil. split; [done|]. by intros (_ & _ & ?%elem_of_nil).
    - intros pre a post devs Hl [Hs Hr]. unfold f, I. split.
      + intros d [Hd| ->%list_elem_of_singleton]%elem_of_app; [by apply Hs|].
        cbn. split; [done|]. split; [done|]. discriminate.
      + intros t n pos. rewrite reported_app, reported_singleton, Hr. cbn.
        rewrite elem_of_app, list_elem_of_singleton. naive_solver. }
  split; [done|]. intros t n pos. rewrite Hr. unfold l. cbn [justification].
  rewrite set_iter_spec, elem_of_difference, elem_of_list_to_set. tauto.
Qed.

Lemma duplicate_pass_spec activities :
  (∀ d, d ∈ _check_duplicate_activities fromisoformat self activities trace cid →
        sound activities d) ∧
  (∀ t n pos,
     reported (_check_duplicate_activities fromisoformat self activities
                 trace cid) t n pos ↔
     t = DUPLICATE_ACTIVITY ∧
     justification m order activities DUPLICATE_ACTIVITY n pos).
Proof.
  unfold _check_duplicate_activities.
  match goal with |- context [foldl ?f0 ([], ∅) _] => set (f := f0) end.
  pose (I := λ (pre : list (nat * string))
               (st : list Deviation * gmap string nat),
     (∀ a, is_Some (st.2 !! a) ↔
           ∃ j, j < length pre ∧ activities !! j = Some a) ∧
     (∀ d, d ∈ st.1 → sound activities d) ∧
     ∀ t n pos, reported st.1 t n pos ↔
       t = DUPLICATE_ACTIVITY ∧
       ∃ i j, pos = Z.of_nat i ∧ i < length pre ∧ activities !! i = Some n ∧
              j < i ∧ activities !! j = Some n ∧ is_Some (get_activity m n)).
  assert (I (imap pair activities) (foldl f ([], ∅) (imap pair activities)))
    as (_ & Hs & Hr).
  { apply foldl_prefix_inv.
    - split; [|split].
      + intros a. cbn. rewrite lookup_empty. split; [by intros [? ?]|].
        intros (j & ? & _). lia.
      + by intros d ?%elem_of_nil.
      + intros t n pos. cbn [fst]. rewrite reported_nil. split; [done|]. cbn.
        intros (_ & i & j & _ & ? & _). lia.
    - intros pre [i a] post [devs seen] Hl (Hseen & Hs & Hr).
      destruct (imap_pair_split _ _ _ _ _ Hl) as [-> Hia].
      cbn [fst snd] in Hseen, Hs, Hr.
      unfold f, I. cbn beta iota. rewrite length_app. cbn [length].
      assert (∀ t n pos,
        (t = DUPLICATE_ACTIVITY ∧
         ∃ i j, pos = Z.of_nat i ∧ i < length pre + 1 ∧
                activities !! i = Some n ∧ j < i ∧ activities !! j = Some n ∧
                is_Some (get_activity m n)) ↔
        reported devs t n pos ∨
        (t = DUPLICATE_ACTIVITY ∧ n = a ∧ pos = Z.of_nat (length pre) ∧
         is_Some (seen !! a) ∧ is_Some (get_activity m a))) as Hnext.
      { intros t n pos. rewrite Hr, Hseen. split.
        - intros (-> & i & j & -> & Hi & Hin & Hj & Hjn & Hk).
          destruct (decide (i = length pre)) as [->|].
          + right. assert (n = a) as -> by congruence.
            split; [done|]. split; [done|]. split; [done|].
            split; [by exists j | done].
          + left. split; [done|]. exists i, j. split; [done|].
            split; [lia | done].
        - intros [(-> & i & j & -> & Hi & Hin & Hj & Hjn & Hk)
                 | (-> & -> & -> & (j & Hj & Hjn) & Hk)].
          + split; [done|]. exists i, j. split; [done|]. split; [lia | done].
          + split; [done|]. exists (length pre), j. split; [done|].
            split; [lia | done]. }
      destruct (seen !! a) as [first|] eqn:Hsa.
      + assert (∀ b, is_Some (seen !! b) ↔
                     ∃ j, j < length pre + 1 ∧ activities !! j = Some b) as Hseen'.
        { intros b. rewrite Hseen. split.
          - intros (j & ? & ?). exists j. split; [lia | done].
          - intros (j & Hj & Hjb).
            destruct (decide (j = length pre)) as [->|].
            + assert (b = a) as -> by congruence. apply Hseen. by rewrite Hsa.
            + exists j. split; [lia | done]. }
        destruct (get_activity m a) eqn:Hg; cbn [fst snd].
        * split; [done|]. split.
          -- intros d [Hd| ->%list_elem_of_singleton]%elem_of_app;
               [by apply Hs|].
             cbn. split; [done|]. split; [done|]. discriminate.
          -- intros t n pos. rewrite Hnext, reported_app, reported_singleton.
             cbn. split.
             ++ intros [?|(<- & <- & <-)]; [by left | right].
                split; [done|]. split; [done|]. split; [done|]. split; eauto.
             ++ intros [?|(-> & -> & -> & _)]; [by left | by right].
        * split; [done|]. split; [done|].
          intros t n pos. rewrite Hnext. split; [by left|].
          intros [?|(_ & _ & _ & _ & [? ?])]; done.
      + cbn [fst snd]. split; [|split; [done|]].
        * intros b. rewrite lookup_insert_is_Some, Hseen. split.
          -- intros [<-|[_ (j & ? & ?)]].
             ++ exists (length pre). split; [lia | done].
             ++ exists j. split; [lia | done].
          -- intros (j & Hj & Hjb).
             destruct (decide (a = b)) as [|Hne]; [by left | right].
             split; [done|]. exists j. split; [|done].
             destruct (decide (j = length pre)) as [->|]; [congruence | lia].
        * intros t n pos. rewrite Hnext. split; [by left|].
          intros [?|(_ & _ & _ & [? ?] & _)]; done. }
  cbn [fst] in Hr. split; [done|]. intros t n pos. rewrite Hr.
  cbn [justification]. split.
  - intros (-> & i & j & -> & _ & ? & ? & ? & ?). split; [done|].
    by exists i, j.
  - intros (-> & i & j & -> & Hi & ? & ? & ?). split; [done|]. exists i, j.
    split; [done|]. split; [|done]. rewrite length_imap.
    by eapply lookup_lt_Some.
Qed.

Lemma end_pass_spec activities :
  (∀ d, d ∈ _check_end_activity set_iter fromisoformat self activities trace cid →
        sound activities d) ∧
  (∀ t n pos,
     reported (_check_end_activity set_iter fromisoformat self activities
                 trace cid) t n pos ↔
     t = INVALID_END ∧ justification m order activities INVALID_END n pos).
Proof.
  unfold _check_end_activity. cbn zeta.
  destruct (last activities) as [last_activity|] eqn:Hlast.
  2:{ split; [by intros d ?%elem_of_nil|]. intros t n pos.
      rewrite reported_nil. split; [done|]. intros [_ (_ & ? & _)].
      congruence. }
  assert (bool_decide (_mandatory_activities m ⊆ list_to_set activities) = true
          ↔ ∀ x, x ∈ _mandatory_activities m → x ∈ activities) as Hsub.
  { rewrite bool_decide_eq_true. unfold subseteq, set_subseteq_instance.
    by setoid_rewrite elem_of_list_to_set. }
  destruct (bool_decide (_mandatory_activities m ⊆ list_to_set activities))
    eqn:Hb; cbn [andb].
  - destruct (is_end_activity m last_activity) eqn:He; cbn [negb].
    + split; [by intros d ?%elem_of_nil|]. intros t n pos.
      rewrite reported_nil. split; [done|].
      intros [_ (_ & ? & ? & _)]. congruence.
    + split.
      * intros d ->%list_elem_of_singleton. cbn. split; [done|].
        split; [done|]. discriminate.
      * intros t n pos. rewrite reported_singleton. cbn. split.
        -- intros (<- & <- & <-). split; [done|]. split; [done|].
           split; [done|]. split; [done|]. by apply Hsub.
        -- intros (-> & -> & Hl & _). split; [done|].
           split; [congruence | done].
  - split; [by intros d ?%elem_of_nil|]. intros t n pos.
    rewrite reported_nil. split; [done|].
    intros [_ (_ & _ & _ & Hall)]. apply Hsub in Hall. congruence.
Qed.

Lemma skip_condition (activities : list string) (executed : gset string) (a : string) (k : nat) :
  (∀ p, p ∈ executed ↔ ∃ j, j < k ∧ activities !! j = Some p) →
  bool_decide
    (filter (λ p, is_mandatory m p = true) (get_valid_previous_activities m a)
     ≠ (∅ : gset string))
  && bool_decide
       (filter (λ p, is_mandatory m p = true) (get_valid_previous_activities m a)
        ∩ executed = (∅ : gset string))
  && negb (is_start_activity m a) = true ↔
  is_start_activity m a = false ∧
  (∃ p, p ∈ get_valid_previous_activities m a ∧ is_mandatory m p = true) ∧
  (∀ p j, p ∈ get_valid_previous_activities m a → is_mandatory m p = true →
          j < k → activities !! j ≠ Some p).
Proof.
  intros Hex. rewrite !andb_true_iff, !bool_decide_eq_true, negb_true_iff.
  set (mp := filter (λ p, is_mandatory m p = true)
               (get_valid_previous_activities m a) : gset string).
  assert (∀ p, p ∈ mp ↔
               is_mandatory m p = true ∧ p ∈ get_valid_previous_activities m a)
    as Hmp.
  { intros p. unfold mp. by rewrite elem_of_filter. }
  assert (mp ≠ ∅ ↔ ∃ p, p ∈ get_valid_previous_activities m a ∧
                        is_mandatory m p = true) as ->.
  { split.
    - intros [p Hp]%set_choose_L. apply Hmp in Hp as [? ?]. eauto.
    - intros (p & ? & ?) Hempty. assert (p ∈ mp) as Hp by (by apply Hmp).
      rewrite Hempty in Hp. by apply not_elem_of_empty in Hp. }
  assert (mp ∩ executed = ∅ ↔
          ∀ p j, p ∈ get_valid_previous_activities m a →
                 is_mandatory m p = true → j < k → activities !! j ≠ Some p)
    as ->.
  { split.
    - intros Hdis p j Hp Hm Hj Hjp.
      assert (p ∈ mp ∩ executed) as Hin.
      { apply elem_of_intersection. split; [by apply Hmp | apply Hex; eauto]. }
      rewrite Hdis in Hin. by apply not_elem_of_empty in Hin.
    - intros Hall. apply set_eq. intros p.
      split; [|by intros ?%not_elem_of_empty].
      intros [[Hm Hp]%Hmp (j & Hj & Hjp)%Hex]%elem_of_intersection.
      by destruct (Hall p j). }
  tauto.
Qed.

Lemma order_pass_spec activities :
  (∀ d, d ∈ _check_activity_order set_iter fromisoformat self activities trace cid →
        sound activities d) ∧
  (∀ t n pos,
     reported (_check_activity_order set_iter fromisoformat self activities
                 trace cid) t n pos ↔
     (t = SKIPPED_ACTIVITY ∧
      justification m order activities SKIPPED_ACTIVITY n pos) ∨
     (t = WRONG_ORDER ∧ justification m order activities WRONG_ORDER n pos)).
Proof.
  unfold _check_activity_order. cbn zeta.
  match goal with |- context [foldl ?f0 ([], ∅) _] => set (f := f0) end.
  pose (skipped_at := λ (n : string) (i : nat),
     activities !! i = Some n ∧ is_Some (get_activity m n) ∧
     is_start_activity m n = false ∧
     (∃ p, p ∈ get_valid_previous_activities m n ∧ is_mandatory m p = true) ∧
     ∀ p j, p ∈ get_valid_previous_activities m n →
            is_mandatory m p = true → j < i → activities !! j ≠ Some p).
  pose (at_index := λ (t : DeviationType) (n : string) (i : nat),
     (t = SKIPPED_ACTIVITY ∧ skipped_at n i) ∨
     (t = WRONG_ORDER ∧
      ∃ prev, wrong_order_evidence m order activities n i prev)).
  pose (I := λ (pre : list (nat * string))
               (st : list Deviation * gset string),
     (∀ p, p ∈ st.2 ↔ ∃ j, j < length pre ∧ activities !! j = Some p) ∧
     (∀ d, d ∈ st.1 → sound activities d) ∧
     ∀ t n pos, reported st.1 t n pos ↔
       ∃ i, pos = Z.of_nat i ∧ i < length pre ∧ at_index t n i).
  assert (I (imap pair activities) (foldl f ([], ∅) (imap pair activities)))
    as (_ & Hs & Hr).
  { apply foldl_prefix_inv.
    - split; [|split].
      + intros p. cbn. split; [by intros ?%not_elem_of_empty|].
        intros (j & ? & _). lia.
      + by intros d ?%elem_of_nil.
      + intros t n pos. cbn [fst]. rewrite reported_nil. split; [done|]. cbn.
        intros (i & _ & ? & _). lia.
    - intros pre [i a] post [devs executed] Hl (Hex & Hs & Hr).
      destruct (imap_pair_split _ _ _ _ _ Hl) as [-> Hia].
      cbn [fst snd] in Hex, Hs, Hr.
      assert (∀ p, p ∈ executed ∪ {[a]} ↔
                   ∃ j, j < length (pre ++ [(length pre, a)]) ∧
                        activities !! j = Some p) as Hex'.
      { intros p. rewrite length_app, elem_of_union, elem_of_singleton, Hex.
        cbn [length]. split.
        - intros [(j & ? & ?)| ->].
          + exists j. split; [lia | done].
          + exists (length pre). split; [lia | done].
        - intros (j & Hj & Hjp).
          destruct (decide (j = length pre)) as [->|].
          + right. congruence.
          + left. exists j. split; [lia | done]. }
      assert (∀ t n pos,
        (∃ i, pos = Z.of_nat i ∧ i < length (pre ++ [(length pre, a)]) ∧
              at_index t n i) ↔
        reported devs t n pos ∨
        (n = a ∧ pos = Z.of_nat (length pre) ∧ at_index t a (length pre)))
        as Hnext.
      { intros t n pos. rewrite Hr, length_app. cbn [length]. split.
        - intros (i & -> & Hi & Hat).
          destruct (decide (i = length pre)) as [->|].
          + right.
            assert (n = a) as ->; [|done].
            destruct Hat as [(_ & Hn & _) | (_ & prev & Hn & _)]; congruence.
          + left. exists i. split; [done|]. split; [lia | done].
        - intros [(i & -> & Hi & Hat) | (-> & -> & Hat)].
          + exists i. split; [done|]. split; [lia | done].
          + exists (length pre). split; [done|]. split; [lia | done]. }
      unfold f. cbn beta iota zeta.
      destruct (get_activity m a) as [act|] eqn:Hg.
      2:{ split; [exact Hex'|]. split; [done|]. cbn [fst].
          intros t n pos. rewrite Hnext. split; [by left|].
          intros [?|(_ & _ & [(_ & _ & [? Hk] & _)
                             | (_ & prev & _ & [? Hk] & _)])]; [done | |];
            congruence. }
      match goal with
      | |- context [if ?c then ?x else devs] =>
          set (cnd := c); set (devs1 := if cnd then x else devs)
      end.
      assert ((∀ d, d ∈ devs1 → sound activities d) ∧
              ∀ t n pos, reported devs1 t n pos ↔
                reported devs t n pos ∨
                (t = SKIPPED_ACTIVITY ∧ n = a ∧ pos = Z.of_nat (length pre) ∧
                 skipped_at a (length pre))) as [Hs1 Hr1].
      { pose proof (skip_condition activities executed a (length pre) Hex)
          as Hcond. fold cnd in Hcond.
        unfold devs1. clearbody cnd. destruct cnd.
        - destruct (proj1 Hcond eq_refl) as (Hns & Hp & Hnone). split.
          + intros d [Hd| ->%list_elem_of_singleton]%elem_of_app;
              [by apply Hs|].
            cbn. split; [done|]. split; [done|]. discriminate.
          + intros t n pos. rewrite reported_app, reported_singleton. cbn.
            split.
            * intros [?|(<- & <- & <-)]; [by left | right].
              split; [done|]. split; [done|]. split; [done|].
              split; [done|]. split; [by rewrite Hg | done].
            * intros [?|(-> & -> & -> & _)]; [by left | by right].
        - split; [done|]. intros t n pos. split; [by left|].
          intros [?|(_ & _ & _ & _ & _ & Hns & Hp & Hnone)]; [done|].
          assert (false = true); [|done]. apply Hcond. done. }
      clearbody devs1. clear cnd.
      destruct (dict_get a order) as [k0|] eqn:Ho.
      2:{ split; [exact Hex'|]. split; [done|]. cbn [fst].
          intros t n pos. rewrite Hnext, Hr1. unfold at_index. split.
          - intros [?|(-> & -> & -> & ?)]; [by left|].
            right. split; [done|]. split; [done|]. by left.
          - intros [?|(-> & -> & [[-> ?]|[-> Hw]])]; [by left | by right |].
            destruct Hw as (prev & _ & _ & _ & k & k' & ? & _). congruence. }
      match goal with
      | |- context [foldl ?g0 devs1 _] => set (g := g0)
      end.
      pose (J := λ (pre' : list string) (ds : list Deviation),
         (∀ d, d ∈ ds → sound activities d) ∧
         ∀ t n pos, reported ds t n pos ↔
           reported devs1 t n pos ∨
           (t = WRONG_ORDER ∧ n = a ∧ pos = Z.of_nat (length pre) ∧
            ∃ prev k', prev ∈ pre' ∧ dict_get prev order = Some k' ∧ k0 < k')).
      assert (J (set_iter executed) (foldl g devs1 (set_iter executed)))
        as [Hs2 Hr2].
      { apply foldl_prefix_inv.
        - split; [done|]. intros t n pos. split; [by left|].
          intros [?|(_ & _ & _ & prev & k' & ?%elem_of_nil & _)]; done.
        - intros pre' prev post' ds Hl' [Hsd Hrd].
          assert (∃ j, j < length pre ∧ activities !! j = Some prev) as Hprev.
          { apply Hex, set_iter_spec. rewrite Hl'. apply elem_of_app. right.
            apply list_elem_of_here. }
          assert (∀ t n pos,
            (reported devs1 t n pos ∨
             (t = WRONG_ORDER ∧ n = a ∧ pos = Z.of_nat (length pre) ∧
              ∃ prev0 k', prev0 ∈ pre' ++ [prev] ∧
                          dict_get prev0 order = Some k' ∧ k0 < k')) ↔
            reported ds t n pos ∨
            (t = WRONG_ORDER ∧ n = a ∧ pos = Z.of_nat (length pre) ∧
             ∃ k', dict_get prev order = Some k' ∧ k0 < k')) as Hnext'.
          { intros t n pos. rewrite Hrd. split.
            - intros [?|(-> & -> & -> & prev0 & k' & Hin & Hk & Hlt)].
              + by left; left.
              + apply elem_of_app in Hin as [Hin| ->%list_elem_of_singleton].
                * left. right. split; [done|]. split; [done|]. split; [done|].
                  by exists prev0, k'.
                * right. split; [done|]. split; [done|]. split; [done|].
                  by exists k'.
            - intros [[?|(-> & -> & -> & prev0 & k' & Hin & Hk & Hlt)]
                     |(-> & -> & -> & k' & Hk & Hlt)].
              + by left.
              + right. split; [done|]. split; [done|]. split; [done|].
                exists prev0, k'. split; [|done]. apply elem_of_app. by left.
              + right. split; [done|]. split; [done|]. split; [done|].
                exists prev, k'. split; [|done]. apply elem_of_app. right.
                apply list_elem_of_here. }
          unfold g, J. destruct (dict_get prev order) as [k'|] eqn:Hk'.
          2:{ split; [done|]. intros t n pos. rewrite Hnext'.
              split; [by left|].
              intros [?|(_ & _ & _ & ? & ? & _)]; done. }
          destruct (Nat.ltb_spec k0 k') as [Hlt|Hge].
          + split.
            * intros d [Hd| ->%list_elem_of_singleton]%elem_of_app;
                [by apply Hsd|].
              cbn. split; [done|]. split; [done|]. intros _.
              exists (length pre), prev. split; [done|]. split; [|done].
              split; [done|]. split; [by rewrite Hg|]. split; [done|].
              by exists k0, k'.
            * intros t n pos. rewrite Hnext', reported_app, reported_singleton.
              cbn. split.
              -- intros [?|(<- & <- & <-)]; [by left | right].
                 split; [done|]. split; [done|]. split; [done|]. by exists k'.
              -- intros [?|(-> & -> & -> & _)]; [by left | by right].
          + split; [done|]. intros t n pos. rewrite Hnext'.
            split; [by left|].
            intros [?|(_ & _ & _ & k & [= <-] & ?)]; [done | lia]. }
      split; [exact Hex'|]. split; [done|]. cbn [fst].
      intros t n pos. rewrite Hnext, Hr2, Hr1. unfold at_index.
      assert ((∃ prev k', prev ∈ set_iter executed ∧
                          dict_get prev order = Some k' ∧ k0 < k') ↔
              ∃ prev, wrong_order_evidence m order activities a (length pre) prev)
        as Hwo.
      { split.
        - intros (prev & k' & Hin & Hk & Hlt).
          apply set_iter_spec, Hex in Hin. exists prev.
          split; [done|]. split; [by rewrite Hg|]. split; [done|].
          by exists k0, k'.
        - intros (prev & _ & _ & Hbefore & k & k' & Hk & Hk' & Hlt).
          exists prev, k'. split; [by apply set_iter_spec, Hex|].
          split; [done|]. congruence. }
      rewrite Hwo. split.
      + intros [[?|(-> & -> & -> & ?)]|(-> & -> & -> & ?)].
        * by left.
        * right. split; [done|]. split; [done|]. by left.
        * right. split; [done|]. split; [done|]. by right.
      + intros [?|(-> & -> & [[-> ?]|[-> ?]])].
        * by left; left.
        * left. by right.
        * by right. }
  cbn [fst] in Hr. split; [done|]. intros t n pos. rewrite Hr.
  unfold at_index, skipped_at. cbn [justification]. split.
  - intros (i & -> & _ & [[-> ?]|[-> [prev ?]]]).
    + left. split; [done|]. by exists i.
    + right. split; [done|]. by exists i, prev.
  - intros [(-> & i & -> & Hi & ?)|(-> & i & prev & -> & Hi & ?)].
    + exists i. split; [done|]. split; [|by left]. rewrite length_imap.
      by eapply lookup_lt_Some.
    + exists i. split; [done|]. split; [|right; split; [done | by exists prev]].
      rewrite length_imap. by eapply lookup_lt_Some.
Qed.

(** The six passes together. *)
Lemma detected_passes_spec activities :
  (∀ d, d ∈ detected_passes set_iter fromisoformat self activities trace cid →
        sound activities d) ∧
  (∀ t n pos,
     reported (detected_passes set_iter fromisoformat self activities trace cid)
       t n pos ↔
     justification m order activities t n pos).
Proof.
  destruct (start_pass_spec activities) as [Hs1 Hr1].
  destruct (order_pass_spec activities) as [Hs2 Hr2].
  destruct (unexpected_pass_spec activities) as [Hs3 Hr3].
  destruct (missing_pass_spec activities) as [Hs4 Hr4].
  destruct (duplicate_pass_spec activities) as [Hs5 Hr5].
  destruct (end_pass_spec activities) as [Hs6 Hr6].
  unfold detected_passes. split.
  - intros d. rewrite !elem_of_app. intros [?|[?|[?|[?|[?|?]]]]]; eauto.
  - intros t n pos. rewrite !reported_app, Hr1, Hr2, Hr3, Hr4, Hr5, Hr6.
    generalize (justification m order activities).
    intros J. destruct t; intuition congruence.
Qed.

Lemma detect_deviations_perm :
  _extract_activities m trace ≠ [] →
  detect_deviations set_iter fromisoformat self trace cid
  ≡ₚ detected_passes set_iter fromisoformat self
       (_extract_activities m trace) trace cid.
Proof.
  intros Hne. unfold detect_deviations.
  destruct (_extract_activities m trace) as [|a l]; [done|].
  apply (sort_by_key_perm Severity_order severity).
Qed.

Lemma detect_deviations_sound d :
  d ∈ detect_deviations set_iter fromisoformat self trace cid →
  sound (_extract_activities m trace) d.
Proof.
  intros Hd.
  destruct (decide (_extract_activities m trace = [])) as [Hnil|Hne].
  - unfold detect_deviations in Hd. rewrite Hnil in Hd.
    by apply elem_of_nil in Hd.
  - rewrite (detect_deviations_perm Hne) in Hd.
    by apply (detected_passes_spec (_extract_activities m trace)).
Qed.

Lemma detect_deviations_reported t n pos :
  _extract_activities m trace ≠ [] →
  reported (detect_deviations set_iter fromisoformat self trace cid) t n pos ↔
  justification m order (_extract_activities m trace) t n pos.
Proof.
  intros Hne. rewrite (reported_perm _ _ _ _ _ (detect_deviations_perm Hne)).
  apply detected_passes_spec.
Qed.

(** X10: For a trace with at least one activity, the detector reports a deviation
    of a type for an activity at a position exactly when the trace meets the
    condition of that type there; no deviation at all is reported exactly
    when no condition is met anywhere. *)
Theorem detect_deviations_reports :
  _extract_activities (detector_model self) trace ≠ [] →
  (∀ t n pos,
     reported (detect_deviations set_iter fromisoformat self trace cid) t n pos ↔
     justification (detector_model self) (_dependency_order self)
       (_extract_activities (detector_model self) trace) t n pos) ∧
  (detect_deviations set_iter fromisoformat self trace cid = [] ↔
   ∀ t n pos,
     ¬ justification (detector_model self) (_dependency_order self)
         (_extract_activities (detector_model self) trace) t n pos).
Proof.
  intros Hne. split; [intros t n pos; by apply detect_deviations_reported|].
  split.
  - intros Hnil t n pos Hj. apply detect_deviations_reported in Hj; [|done].
    rewrite Hnil in Hj. by apply reported_nil in Hj.
  - intros Hnone.
    destruct (detect_deviations set_iter fromisoformat self trace cid)
      as [|d devs] eqn:Hd; [done|].
    destruct (Hnone (deviation_type d) (activity_name d) (position d)).
    apply detect_deviations_reported; [done|]. rewrite Hd.
    exists d. split; [apply list_elem_of_here | done].
Qed.

(** X11: Every deviation the detector returns carries the case identifier it was
    called with and the severity the scorer gives to its type and
    activity. *)
Theorem detect_deviations_provenance (d : Deviation) :
  d ∈ detect_deviations set_iter fromisoformat self trace cid →
  case_id d = cid ∧
  severity d
  = get_severity (detector_scorer self) (deviation_type d) (activity_name d).
Proof.
  intros Hd. destruct (detect_deviations_sound d Hd) as (? & ? & _). done.
Qed.

(** X12: A WRONG_ORDER deviation is raised for an activity [n] at a position when
    some activity [prev] was executed before it although the dependency
    order places [n] before [prev]; its recommendation then reads
    "Execute prev before n", which is the order the trace already has. *)
Theorem wrong_order_recommendation (d : Deviation) :
  d ∈ detect_deviations set_iter fromisoformat self trace cid →
  deviation_type d = WRONG_ORDER →
  ∃ i prev,
    position d = Z.of_nat i ∧
    wrong_order_evidence (detector_model self) (_dependency_order self)
      (_extract_activities (detector_model self) trace)
      (activity_name d) i prev ∧
    recommendation d = "Execute " +:+ prev +:+ " before " +:+ activity_name d.
Proof.
  intros Hd Ht. destruct (detect_deviations_sound d Hd) as (_ & _ & Hw).
  by apply Hw.
Qed.
End Reports.

Lemma detect_deviations_reports_witness :
  detect_deviations elements (λ _, None) (_detector o2c_checker)
    wrong_order_trace "case-1" = [] ↔
  ∀ t n pos,
    ¬ justification (detector_model (_detector o2c_checker))
        (_dependency_order (_detector o2c_checker))
        (_extract_activities (detector_model (_detector o2c_checker))
           wrong_order_trace) t n pos.
Proof.
  apply (detect_deviations_reports elements (λ _, None)
           (λ s x, elem_of_elements s x) (_detector o2c_checker)
           wrong_order_trace "case-1").
  vm_compute. discriminate.
Defined.

Lemma detect_deviations_provenance_witness :
  ∃ d, d ∈ detect_deviations elements (λ _, None) (_detector o2c_checker)
             wrong_order_trace "case-1" ∧
       case_id d = "case-1" ∧
       severity d
       = get_severity (detector_scorer (_detector o2c_checker))
           (deviation_type d) (activity_name d).
Proof.
  assert (∃ d, d ∈ detect_deviations elements (λ _, None)
                     (_detector o2c_checker) wrong_order_trace "case-1")
    as [d Hd].
  { vm_compute. eexists. apply list_elem_of_here. }
  exists d. split; [done|].
  apply (detect_deviations_provenance elements (λ _, None)
           (λ s x, elem_of_elements s x) (_detector o2c_checker)
           wrong_order_trace "case-1" d Hd).
Defined.

Lemma wrong_order_recommendation_witness :
  ∃ d i prev,
    d ∈ detect_deviations elements (λ _, None) (_detector o2c_checker)
          wrong_order_trace "case-1" ∧
    position d = Z.of_nat i ∧
    wrong_order_evidence (detector_model (_detector o2c_checker))
      (_dependency_order (_detector o2c_checker))
      (_extract_activities (detector_model (_detector o2c_checker))
         wrong_order_trace)
      (activity_name d) i prev ∧
    recommendation d = "Execute " +:+ prev +:+ " before " +:+ activity_name d.
Proof.
  assert (∃ d, d ∈ detect_deviations elements (λ _, None)
                     (_detector o2c_checker) wrong_order_trace "case-1" ∧
               deviation_type d = WRONG_ORDER) as (d & Hd & Ht).
  { vm_compute. eexists. split.
    - apply list_elem_of_further, list_elem_of_here.
    - reflexivity. }
  destruct (wrong_order_recommendation elements (λ _, None)
              (λ s x, elem_of_elements s x) (_detector o2c_checker)
              wrong_order_trace "case-1" d Hd Ht) as (i & prev & H).
  by exists d, i, prev.
Defined.

(** * Verdicts of the checker *)

Lemma invalid_start_is_critical n :
  get_severity (SeverityScorer_init None) INVALID_START n = CRITICAL.
Proof.
  unfold get_severity.
  assert (default [] (dict_get (DeviationType_value INVALID_START)
                        (_rules (SeverityScorer_init None)))
          = [("default", CRITICAL)]) as -> by (by vm_compute).
  cbn [dict_get]. by destruct (decide (n = "default")).
Qed.

Lemma total_points_elem d devs :
  d ∈ devs → (penalty_points (severity d) ≤ total_points devs)%Z.
Proof.
  induction devs as [|d' devs IH]; [by intros ?%elem_of_nil|].
  intros [->|Hin]%elem_of_cons; cbn [total_points foldr].
  - pose proof (total_points_nonneg devs). unfold total_points in *. lia.
  - apply IH in Hin. pose proof (penalty_points_pos (severity d')).
    unfold total_points in *. lia.
Qed.

Lemma fitness_upper_bound (chk : ConformanceChecker) devs d :
  SEVERITY_PENALTIES chk = ConformanceChecker_SEVERITY_PENALTIES →
  d ∈ devs →
  (_calculate_fitness chk devs
   <= fl (inject_Z (100 - penalty_points (severity d)) / 100))%Q.
Proof.
  intros Htable Hd. rewrite (calculate_fitness_points chk devs Htable).
  pose proof (total_points_elem d devs Hd).
  pose proof (penalty_points_pos (severity d)).
  pose proof (penalty_points_le (severity d)).
  apply fl_hundredths_le; lia.
Qed.

(** A deviation list that is not empty scores at most 0.99. *)
Lemma fitness_below_one (chk : ConformanceChecker) devs d :
  SEVERITY_PENALTIES chk = ConformanceChecker_SEVERITY_PENALTIES →
  d ∈ devs →
  (_calculate_fitness chk devs <= 99 # 100)%Q.
Proof.
  intros Htable Hd.
  apply (Qle_trans _ _ _ (fitness_upper_bound chk devs d Htable Hd)).
  apply Qle_trans with (fl (inject_Z 99 / 100)); [|by vm_compute].
  pose proof (penalty_points_pos (severity d)).
  pose proof (penalty_points_le (severity d)).
  apply fl_hundredths_le; lia.
Qed.

Section Verdicts.
Variable set_iter : gset string → list string.
Variable fromisoformat : string → option datetime.
Hypothesis set_iter_spec : ∀ (s : gset string) x, x ∈ set_iter s ↔ x ∈ s.

(** X13: A trace that names no activity is fully conformant with fitness 1,
    whatever the model demands; as soon as the trace names one activity,
    every mandatory activity it lacks is reported as missing and the case is
    not fully conformant. *)
Theorem check_trace_missing_activities (chk : ConformanceChecker)
    (trace : list Event) (cid : string) :
  let model := detector_model (_detector chk) in
  let acts := _extract_activities model trace in
  let r := check_trace set_iter fromisoformat chk trace cid in
  (acts = [] →
   deviations r = [] ∧ is_conformant r = true ∧
   is_fully_conformant r = true ∧ fitness_score r = 1%Q) ∧
  (acts ≠ [] →
   ∀ n, n ∈ _mandatory_activities model → n ∉ acts →
        reported (deviations r) MISSING_ACTIVITY n (-1) ∧
        is_fully_conformant r = false).
Proof.
  intros model acts r. split.
  - intros Hnil. unfold r, check_trace. cbn.
    assert (detect_deviations set_iter fromisoformat (_detector chk) trace cid
            = []) as ->.
    { unfold detect_deviations. fold model. fold acts. by rewrite Hnil. }
    cbn. by destruct (_strict_mode chk).
  - intros Hne n Hm Hn.
    assert (reported (deviations r) MISSING_ACTIVITY n (-1)) as Hrep.
    { unfold r, check_trace. cbn [deviations].
      apply (detect_deviations_reported set_iter fromisoformat set_iter_spec);
        [done|].
      cbn [justification]. done. }
    split; [done|]. destruct Hrep as (d & Hd & _).
    unfold r, check_trace in *. cbn [deviations is_fully_conformant] in *.
    destruct (detect_deviations set_iter fromisoformat (_detector chk) trace cid);
      [by apply elem_of_nil in Hd | done].
Qed.

(** X14: Under the default severity rules, a trace whose first activity is known
    to the model but is not a start activity is never conformant, in either
    mode, and its fitness is at most 0.70. *)
Theorem invalid_start_not_conformant (model : ProcessModel) (strict : bool)
    (trace : list Event) (cid : string) (first : string) (rest : list string) :
  let chk := ConformanceChecker_init set_iter model None strict in
  let r := check_trace set_iter fromisoformat chk trace cid in
  _extract_activities model trace = first :: rest →
  is_Some (get_activity model first) →
  is_start_activity model first = false →
  is_conformant r = false ∧
  (fitness_score r <= 7 # 10)%Q ∧
  ∃ d, d ∈ deviations r ∧ deviation_type d = INVALID_START ∧
       activity_name d = first ∧ severity d = CRITICAL.
Proof.
  intros chk r Hacts Hknown Hns.
  assert (reported (deviations r) INVALID_START first 0) as (d & Hd & Ht & Hn & _).
  { unfold r, check_trace. cbn [deviations].
    apply (detect_deviations_reported set_iter fromisoformat set_iter_spec).
    - cbn. by rewrite Hacts.
    - cbn. rewrite Hacts. done. }
  assert (severity d = CRITICAL) as Hsev.
  { unfold r, check_trace in Hd. cbn [deviations] in Hd.
    destruct (detect_deviations_sound set_iter fromisoformat set_iter_spec
                _ _ _ d Hd) as (_ & -> & _).
    rewrite Ht. apply invalid_start_is_critical. }
  split; [|split].
  - unfold r, check_trace in *. cbn [deviations is_conformant] in *.
    set (devs := detect_deviations _ _ _ _ _) in *.
    assert (d ∈ filter (λ d0, severity d0 = CRITICAL) devs) as Hc.
    { by apply list_elem_of_filter. }
    destruct (_strict_mode chk).
    + destruct devs; [by apply elem_of_nil in Hd | done].
    + destruct (filter (λ d0, severity d0 = CRITICAL) devs);
        [by apply elem_of_nil in Hc | done].
  - unfold r, check_trace in *. cbn [deviations fitness_score] in *.
    pose proof (fitness_upper_bound chk _ d eq_refl Hd) as Hle.
    rewrite Hsev in Hle. apply (Qle_trans _ _ _ Hle). by vm_compute.
  - by exists d.
Qed.

(** X15: Under the class penalty table the fitness of a case is 1 exactly when
    the case is fully conformant, and a case that is not conformant has a
    fitness of at most 0.99 in strict mode and of at most 0.70 otherwise. *)
Theorem fitness_and_verdict (chk : ConformanceChecker) (trace : list Event)
    (cid : string) :
  SEVERITY_PENALTIES chk = ConformanceChecker_SEVERITY_PENALTIES →
  let r := check_trace set_iter fromisoformat chk trace cid in
  ((fitness_score r == 1)%Q ↔ is_fully_conformant r = true) ∧
  (is_fully_conformant r = true → is_conformant r = true) ∧
  (is_conformant r = false →
   (fitness_score r <= (if _strict_mode chk then 99 # 100 else 7 # 10))%Q).
Proof.
  intros Htable r. unfold r, check_trace.
  cbn [fitness_score is_fully_conformant is_conformant].
  set (devs := detect_deviations _ _ _ _ _). split; [|split].
  - destruct devs as [|d devs]; [done|]. split; [|done].
    intros Hone. exfalso.
    pose proof (fitness_below_one chk (d :: devs) d Htable
                  (list_elem_of_here _ _)) as Hle.
    rewrite Hone in Hle. by apply Qle_not_lt in Hle.
  - destruct devs; [by destruct (_strict_mode chk) | done].
  - destruct (_strict_mode chk).
    + destruct devs as [|d devs]; [done|]. intros _.
      apply (fitness_below_one chk (d :: devs) d Htable
               (list_elem_of_here _ _)).
    + destruct (filter (λ d, severity d = CRITICAL) devs) as [|d l] eqn:Hf;
        [done|]. intros _.
      assert (d ∈ filter (λ d, severity d = CRITICAL) devs) as Hd.
      { rewrite Hf. apply list_elem_of_here. }
      apply list_elem_of_filter in Hd as [Hsev Hd].
      pose proof (fitness_upper_bound chk devs d Htable Hd) as Hle.
      rewrite Hsev in Hle. apply (Qle_trans _ _ _ Hle). by vm_compute.
Qed.
End Verdicts.

Lemma check_trace_missing_activities_witness :
  reported (deviations (check_trace elements (λ _, None) o2c_checker
                          [event_of "OrderCreated"] "case-1"))
    MISSING_ACTIVITY "InvoiceCreated" (-1) ∧
  is_fully_conformant (check_trace elements (λ _, None) o2c_checker
                         [event_of "OrderCreated"] "case-1") = false.
Proof.
  apply (check_trace_missing_activities elements (λ _, None)
           (λ s x, elem_of_elements s x) o2c_checker
           [event_of "OrderCreated"] "case-1").
  - vm_compute. discriminate.
  - apply (bool_decide_unpack _). by vm_compute.
  - apply (bool_decide_unpack _). by vm_compute.
Defined.

Lemma invalid_start_not_conformant_witness :
  is_conformant (check_trace elements (λ _, None)
                   (ConformanceChecker_init elements o2c_linear None false)
                   [event_of "DeliveryCreated"] "case-1") = false.
Proof.
  apply (invalid_start_not_conformant elements (λ _, None)
           (λ s x, elem_of_elements s x) o2c_linear false
           [event_of "DeliveryCreated"] "case-1" "DeliveryCreated" []).
  - by vm_compute.
  - vm_compute. by eexists.
  - by vm_compute.
Defined.

Lemma fitness_and_verdict_witness :
  (fitness_score (check_trace elements (λ _, None) o2c_checker
                    wrong_order_trace "case-1") == 1)%Q ↔
  is_fully_conformant (check_trace elements (λ _, None) o2c_checker
                         wrong_order_trace "case-1") = true.
Proof.
  apply (fitness_and_verdict elements (λ _, None) o2c_checker
           wrong_order_trace "case-1" eq_refl).
Defined.

(** * Checking a structured log *)

Lemma filter_length_le {A} (P Q : A → Prop) `{∀ x, Decision (P x)}
    `{∀ x, Decision (Q x)} (l : list A) :
  (∀ x, x ∈ l → P x → Q x) →
  length (filter P l) ≤ length (filter Q l).
Proof.
  induction l as [|x l IH]; intros HPQ; [done|].
  assert (length (filter P l) ≤ length (filter Q l)) as IH'.
  { apply IH. intros y Hy. by apply HPQ, list_elem_of_further. }
  rewrite !filter_cons. destruct (decide (P x)) as [HP|HP].
  - rewrite decide_True by (apply HPQ; [apply list_elem_of_here | done]).
    cbn [length]. lia.
  - destruct (decide (Q x)); cbn [length]; lia.
Qed.

Lemma filter_bool_split {A} (f : A → bool) (l : list A) :
  length (filter (λ x, f x = false) l) + length (filter (λ x, f x = true) l)
  = length l.
Proof.
  induction l as [|x l IH]; [done|]. rewrite !filter_cons.
  destruct (f x); repeat case_decide; try done; cbn [length]; lia.
Qed.

Section CheckLog.
Variable set_iter : gset string → list string.
Variable fromisoformat : string → option datetime.

Lemma check_trace_fully_conformant (chk : ConformanceChecker) trace cid :
  is_fully_conformant (check_trace set_iter fromisoformat chk trace cid) = true →
  is_conformant (check_trace set_iter fromisoformat chk trace cid) = true.
Proof.
  unfold check_trace. cbn [is_fully_conformant is_conformant].
  destruct (detect_deviations set_iter fromisoformat (_detector chk) trace cid);
    [by destruct (_strict_mode chk) | done].
Qed.

(** The loop of [check_log]: one result per case with events, in the order of
    the log, and the deviations of the results in the same order. *)
Lemma check_log_loop (chk : ConformanceChecker) (event_log : list LogCase) :
  foldl
    (λ '(case_results, all_deviations) case,
       let cid :=
         default ("case_" +:+ pretty (length case_results)) (lc_case_id case) in
       match lc_events case with
       | [] => (case_results, all_deviations)
       | events =>
           let result := check_trace set_iter fromisoformat chk events cid in
           (case_results ++ [result], all_deviations ++ deviations result)
       end)
    ([], []) event_log
  = (imap (λ i c, check_trace set_iter fromisoformat chk (lc_events c)
                    (default ("case_" +:+ pretty i) (lc_case_id c)))
          (filter (λ c, lc_events c ≠ []) event_log),
     mjoin (deviations
            <$> imap (λ i c, check_trace set_iter fromisoformat chk (lc_events c)
                               (default ("case_" +:+ pretty i) (lc_case_id c)))
                     (filter (λ c, lc_events c ≠ []) event_log))).
Proof.
  induction event_log as [|c event_log IH] using rev_ind; [done|].
  rewrite foldl_app, IH, filter_app. cbn [foldl].
  rewrite filter_cons, filter_nil.
  destruct (lc_events c) as [|e evs] eqn:Hev.
  - rewrite decide_False by (by intros []). by rewrite app_nil_r.
  - rewrite decide_True by done. rewrite imap_app, fmap_app, join_app.
    rewrite length_imap. cbn [imap fmap list_fmap mjoin list_join].
    rewrite Nat.add_0_r, Hev, app_nil_r. done.
Qed.

(** X16: [check_log] checks the cases that have events, in the order of the log;
    a case without an identifier is named after the number of cases checked
    before it, not after its place in the log.  The counts of the result
    are those of the case results: at most as many fully conformant cases as
    conformant ones, the deviations of all cases together, and the cases
    [get_non_conformant_cases] returns are the rest. *)
Theorem check_log_counts (chk : ConformanceChecker) (event_log : list LogCase) :
  let res := check_log set_iter fromisoformat chk event_log in
  let cases := filter (λ c, lc_events c ≠ []) event_log in
  case_results res
  = imap (λ i c, check_trace set_iter fromisoformat chk (lc_events c)
                   (default ("case_" +:+ pretty i) (lc_case_id c))) cases ∧
  total_cases res = length cases ∧
  fully_conformant_cases res ≤ conformant_cases res ∧
  conformant_cases res ≤ total_cases res ∧
  total_deviations res
  = sum_list ((λ r, length (deviations r)) <$> case_results res) ∧
  length (get_non_conformant_cases res) + conformant_cases res
  = total_cases res.
Proof.
  intros res cases. unfold res, check_log. rewrite check_log_loop.
  fold cases.
  set (rs := imap _ cases).
  assert (∀ r, r ∈ rs → is_fully_conformant r = true → is_conformant r = true)
    as Hfull.
  { intros r [i Hi]%list_elem_of_lookup. unfold rs in Hi.
    rewrite list_lookup_imap in Hi. destruct (cases !! i) as [c|]; [|done].
    injection Hi as <-. apply check_trace_fully_conformant. }
  assert (length (mjoin (deviations <$> rs))
          = sum_list ((λ r, length (deviations r)) <$> rs)) as Hsum.
  { clear Hfull. generalize rs. intros l.
    induction l as [|r l IH]; [done|]. rewrite !fmap_cons.
    change (mjoin (deviations r :: (deviations <$> l)))
      with (deviations r ++ mjoin (deviations <$> l)).
    rewrite length_app, IH. done. }
  assert (length rs = length cases) as Hlen by apply length_imap.
  unfold _aggregate_results, get_non_conformant_cases.
  destruct rs as [|r rs'] eqn:Hrs.
  - cbn. split; [done|]. split; [by rewrite <- Hlen|]. done.
  - cbn [case_results total_cases conformant_cases fully_conformant_cases
         total_deviations].
    split; [done|]. split; [done|].
    split; [by apply filter_length_le|].
    split; [apply length_filter|]. split; [done|].
    apply filter_bool_split.
Qed.
End CheckLog.

(** * When the flat log cannot be sorted *)

Lemma try_insert_by_key_Some (x : Event) l l' :
  try_insert_by_key SortKey_lt timestamp_key x l = Some l' →
  l' ≡ₚ x :: l ∧
  (l = [] ∨ ∃ y, y ∈ l ∧ timestamp_kind (ev_timestamp y)
                         = timestamp_kind (ev_timestamp x)).
Proof.
  revert l'. induction l as [|y l IH]; intros l'; cbn [try_insert_by_key].
  - intros [= <-]. split; [done | by left].
  - destruct (SortKey_lt (timestamp_key y) (timestamp_key x)) as [b|] eqn:Hlt;
      [|done].
    assert (timestamp_kind (ev_timestamp y) = timestamp_kind (ev_timestamp x))
      as HT.
    { apply SortKey_lt_is_Some. by rewrite Hlt. }
    cbn [mbind option_bind]. destruct b.
    + destruct (try_insert_by_key SortKey_lt timestamp_key x l) as [l0|];
        [|done].
      intros [= <-]. destruct (IH l0 eq_refl) as [Hp _]. split.
      * rewrite Hp. apply Permutation_swap.
      * right. exists y. split; [apply list_elem_of_here | done].
    + intros [= <-]. split; [done|]. right. exists y.
      split; [apply list_elem_of_here | done].
Qed.

(** A sort that returns has met timestamps of one kind only. *)
Lemma try_sort_by_key_Some (l l' : list Event) :
  try_sort_by_key SortKey_lt timestamp_key l = Some l' →
  l' ≡ₚ l ∧ homogeneous l.
Proof.
  revert l'. induction l as [|x l IH]; intros l'; cbn [try_sort_by_key].
  - intros [= <-]. split; [done|]. by intros e1 e2 ?%elem_of_nil.
  - destruct (try_sort_by_key SortKey_lt timestamp_key l) as [l0|]; [|done].
    cbn [mbind option_bind]. intros Hins.
    destruct (IH l0 eq_refl) as [Hp Hh].
    destruct (try_insert_by_key_Some x l0 l' Hins) as [Hp' Hx].
    split; [by rewrite Hp', Hp|].
    assert (∀ z, z ∈ l → timestamp_kind (ev_timestamp z)
                         = timestamp_kind (ev_timestamp x)) as Hzx.
    { intros z Hz. destruct Hx as [->|(y & Hy & HT)].
      - apply Permutation_nil_l in Hp. subst. by apply elem_of_nil in Hz.
      - rewrite Hp in Hy. rewrite <- HT. by apply Hh. }
    intros e1 e2 [->|H1]%elem_of_cons [->|H2]%elem_of_cons.
    + done.
    + symmetry. by apply Hzx.
    + by apply Hzx.
    + by apply Hh.
Qed.

(** X17: [check_flat_log] raises exactly when some case mixes timestamps of two
    kinds: naive datetimes (a missing or empty timestamp counts as the naive
    [datetime.min]), aware datetimes, strings that are not empty.  The
    exception is the [TypeError] of the comparison, and nothing is checked.
    Otherwise it returns what [check_log] returns for the cases of the log,
    in the order of first occurrence and each stably sorted. *)
Theorem check_flat_log_raises (set_iter : gset string → list string)
    (fromisoformat : string → option datetime) (chk : ConformanceChecker)
    (events : list FlatEvent) :
  (raises (check_flat_log set_iter fromisoformat chk events) ↔
   ∃ cid e1 e2,
     e1 ∈ events_of_case cid events ∧ e2 ∈ events_of_case cid events ∧
     timestamp_kind (ev_timestamp e1) ≠ timestamp_kind (ev_timestamp e2)) ∧
  (∀ e, check_flat_log set_iter fromisoformat chk events = Raise e →
        e = TypeError) ∧
  (¬ raises (check_flat_log set_iter fromisoformat chk events) →
   ∃ event_log,
     check_flat_log set_iter fromisoformat chk events
     = Ok (check_log set_iter fromisoformat chk event_log) ∧
     lc_case_id <$> event_log
     = Some <$> first_occurrences (flat_case_id <$> events) ∧
     Forall (sorted_case events) event_log).
Proof.
  assert (raises (flat_event_log events) ↔
    ∃ cid, ¬ homogeneous (events_of_case cid events)) as Hr.
  { unfold flat_event_log. rewrite group_by_case_spec.
    set (f := λ '(cid, case_events),
                (λ sorted_events,
                   {| lc_case_id := Some cid; lc_events := sorted_events |})
                <$> try_sort_by_key SortKey_lt timestamp_key case_events).
    set (ids := first_occurrences (flat_case_id <$> events)).
    assert (∀ cid, is_Some (f (cid, events_of_case cid events)) ↔
                   homogeneous (events_of_case cid events)) as Hf.
    { intros cid. unfold f. rewrite fmap_is_Some. split.
      - intros [l' Hl']. by apply try_sort_by_key_Some in Hl' as [_ ?].
      - intros Hh. rewrite (try_sort_homogeneous _ Hh). by eexists. }
    destruct (mapM f ((λ cid, (cid, events_of_case cid events)) <$> ids))
      as [event_log|] eqn:Hm; cbn [raises].
    - split; [done|]. intros (cid & Hcid). destruct Hcid.
      destruct (decide (cid ∈ ids)) as [Hin|Hnin].
      + apply Hf. assert (is_Some (mapM f ((λ cid, (cid, events_of_case cid events))
                                            <$> ids))) as Hsome by (by rewrite Hm).
        apply mapM_is_Some in Hsome. rewrite Forall_fmap, Forall_forall in Hsome.
        by apply Hsome.
      + assert (events_of_case cid events = []) as ->.
        { unfold events_of_case.
          rewrite (filter_none (λ e, flat_case_id e = cid)); [done|].
          intros e He Heq. apply Hnin, elem_of_first_occurrences.
          rewrite <- Heq. by apply list_elem_of_fmap_2. }
        by intros e1 e2 ?%elem_of_nil.
    - split; [intros _|done].
      assert (¬ Forall (λ cid, is_Some (f (cid, events_of_case cid events))) ids)
        as Hnot.
      { intros Hall. assert (is_Some (mapM f ((λ cid, (cid, events_of_case cid events))
                                                <$> ids))) as [? Hsome].
        { apply mapM_is_Some. by rewrite Forall_fmap. }
        congruence. }
      apply not_Forall_Exists in Hnot; [|apply _].
      apply Exists_exists in Hnot as (cid & _ & Hcid). exists cid.
      intros Hh. apply Hcid. cbn. by apply Hf. }
  assert ((∃ cid, ¬ homogeneous (events_of_case cid events)) ↔
          ∃ cid e1 e2,
            e1 ∈ events_of_case cid events ∧ e2 ∈ events_of_case cid events ∧
            timestamp_kind (ev_timestamp e1) ≠ timestamp_kind (ev_timestamp e2))
    as Hmix.
  { split.
    - intros (cid & Hcid). exists cid.
      set (evs := events_of_case cid events) in *.
      destruct (decide (Forall (λ e1, Forall (λ e2,
                  timestamp_kind (ev_timestamp e1)
                  = timestamp_kind (ev_timestamp e2)) evs) evs)) as [Hall|Hnall].
      + destruct Hcid. intros e1 e2 H1 H2. rewrite Forall_forall in Hall.
        specialize (Hall e1 H1). rewrite Forall_forall in Hall. by apply Hall.
      + apply not_Forall_Exists in Hnall; [|apply _].
        apply Exists_exists in Hnall as (e1 & H1 & Hn1).
        apply not_Forall_Exists in Hn1; [|apply _].
        apply Exists_exists in Hn1 as (e2 & H2 & Hn2). by exists e1, e2.
    - intros (cid & Hmix). exists cid. rewrite homogeneous_iff. tauto. }
  rewrite <- Hmix. clear Hmix.
  assert (raises (check_flat_log set_iter fromisoformat chk events) ↔
          raises (flat_event_log events)) as Hsame.
  { unfold check_flat_log. by destruct (flat_event_log events). }
  split; [by rewrite Hsame|]. split.
  - unfold check_flat_log, flat_event_log.
    destruct (mapM _ (group_by_case events)); [done|]. by intros e [= <-].
  - intros Hno. rewrite Hsame, Hr in Hno.
    destruct (flat_event_log_sorted events) as (event_log & Hlog & Hids & Hs).
    + intros cid. apply homogeneous_iff. intros Hmix. apply Hno.
      exists cid. rewrite homogeneous_iff. tauto.
    + exists event_log. split; [|done]. unfold check_flat_log. by rewrite Hlog.
Qed.

(** * The deviation summary *)

Lemma dict_incr_get (k k' : string) (d : dict string nat) :
  dict_get k (dict_incr k' d)
  = if decide (k = k') then Some (default 0 (dict_get k d) + 1)
    else dict_get k d.
Proof.
  unfold dict_incr. destruct (decide (k = k')) as [->|Hne].
  - apply dict_get_set_eq.
  - by apply dict_get_set_ne.
Qed.

(** A tally built with [dict_incr] holds, for every key, the number of items
    with that key, and no entry for a key without items. *)
Lemma tally_counts {A} (key : A → string) (l : list A) (k : string) :
  dict_get k (foldl (λ d x, dict_incr (key x) d) [] l)
  = if decide (length (filter (λ x, key x = k) l) = 0) then None
    else Some (length (filter (λ x, key x = k) l)).
Proof.
  induction l as [|x l IH] using rev_ind.
  { rewrite filter_nil. by rewrite decide_True. }
  rewrite foldl_app, filter_app, length_app. cbn [foldl].
  rewrite dict_incr_get, IH, filter_cons, filter_nil.
  destruct (decide (k = key x)) as [->|Hne].
  - rewrite (decide_True (P := key x = key x)) by done. cbn [length].
    rewrite (decide_False (P := _ + 1 = 0)) by lia. f_equal.
    destruct (decide (length (filter (λ x0, key x0 = key x) l) = 0)) as [->|];
      cbn; lia.
  - rewrite (decide_False (P := key x = k)) by congruence. cbn [length].
    by rewrite Nat.add_0_r.
Qed.

Lemma tally_fst (devs : list Deviation) :
  (tally devs).1.1
  = foldl (λ d x, dict_incr (DeviationType_value (deviation_type x)) d) [] devs ∧
  (tally devs).1.2
  = foldl (λ d x, dict_incr (Severity_value (severity x)) d) [] devs ∧
  (tally devs).2
  = foldl (λ d x, dict_incr (activity_name x) d) [] devs.
Proof.
  unfold tally. induction devs as [|d devs IH] using rev_ind; [done|].
  rewrite !foldl_app. cbn [foldl]. destruct IH as (IH1 & IH2 & IH3).
  rewrite <- IH1, <- IH2, <- IH3.
  match goal with
  | |- context [foldl ?f ([], [], []) devs] =>
      by destruct (foldl f ([], [], []) devs) as [[bt bs] ba]
  end.
Qed.

Section SortDescending.
Context {A : Type} (key : A → nat).

Lemma insert_descending_perm x l :
  insert_by_key (λ a b : nat, b <? a) key x l ≡ₚ x :: l.
Proof.
  induction l as [|y l IH]; cbn [insert_by_key]; [done|].
  destruct (key x <? key y); [|done]. rewrite IH. apply Permutation_swap.
Qed.

Lemma sort_descending_perm l :
  sort_by_key (λ a b : nat, b <? a) key l ≡ₚ l.
Proof.
  induction l as [|x l IH]; [done|]. unfold sort_by_key in *. cbn [foldr].
  by rewrite insert_descending_perm, IH.
Qed.

Lemma insert_descending_sorted x l :
  StronglySorted (λ a b, key b ≤ key a) l →
  StronglySorted (λ a b, key b ≤ key a)
    (insert_by_key (λ a b : nat, b <? a) key x l).
Proof.
  induction l as [|y l IH]; cbn [insert_by_key]; intros Hs.
  - repeat constructor.
  - apply StronglySorted_inv in Hs as [Hs Hy].
    destruct (Nat.ltb_spec (key x) (key y)) as [Hlt|Hge].
    + constructor; [by apply IH|].
      rewrite insert_descending_perm. constructor; [lia | done].
    + constructor; [by constructor|]. constructor; [done|].
      eapply Forall_impl; [exact Hy|]. intros z Hz. cbn in *. lia.
Qed.

Lemma sort_descending_sorted l :
  StronglySorted (λ a b, key b ≤ key a)
    (sort_by_key (λ a b : nat, b <? a) key l).
Proof.
  induction l as [|x l IH]; [constructor|].
  by apply insert_descending_sorted.
Qed.
End SortDescending.

(** X18: [from_deviations] counts every deviation once under its type, once under
    its severity and once under its activity, and keeps no entry for a key
    without deviations; [most_common] holds the five types with the highest
    counts (all of them when there are fewer), the highest first. *)
Theorem from_deviations_counts (devs : list Deviation) :
  let s := from_deviations devs in
  summary_total_deviations s = length devs ∧
  (∀ k, dict_get k (by_type s)
        = if decide (length (filter (λ d, DeviationType_value (deviation_type d)
                                            = k) devs) = 0)
          then None
          else Some (length (filter (λ d, DeviationType_value (deviation_type d)
                                            = k) devs))) ∧
  (∀ k, dict_get k (by_severity s)
        = if decide (length (filter (λ d, Severity_value (severity d) = k) devs)
                     = 0)
          then None
          else Some (length (filter (λ d, Severity_value (severity d) = k)
                               devs))) ∧
  (∀ k, dict_get k (by_activity s)
        = if decide (length (filter (λ d, activity_name d = k) devs) = 0)
          then None
          else Some (length (filter (λ d, activity_name d = k) devs))) ∧
  length (most_common s) = 5 `min` length (by_type s) ∧
  ∃ rest,
    most_common s ++ rest ≡ₚ by_type s ∧
    StronglySorted (λ x y, y.2 ≤ x.2) (most_common s ++ rest).
Proof.
  intros s. unfold s, from_deviations.
  cbn [summary_total_deviations by_type by_severity by_activity most_common].
  destruct (tally_fst devs) as (-> & -> & ->).
  split; [done|]. split; [intros k; apply tally_counts|].
  split; [intros k; apply tally_counts|].
  split; [intros k; apply tally_counts|].
  set (bt := foldl (λ d x, dict_incr (DeviationType_value (deviation_type x)) d)
               [] devs).
  split.
  - rewrite length_take. by rewrite (sort_descending_perm snd bt).
  - exists (drop 5 (sort_by_key (λ a b : nat, b <? a) snd bt)).
    rewrite take_drop. split; [apply sort_descending_perm|].
    apply (sort_descending_sorted snd).
Qed.

(** * What the checker reads of a trace and of a model *)

(** X19: For a reachable model without SAP event types, the activities of a trace
    are the names its events carry, in order, the events without a name left
    out: the position of a deviation is an index into this list, and an
    index into the trace only when every event has a name. *)
Theorem extract_activities_names (m : ProcessModel) (trace : list Event) :
  Reachable m →
  (∀ k a, (k, a) ∈ _activities m → sap_event_types a = ∅) →
  _extract_activities m trace
  = filter (λ s, s ≠ "") (event_type_of <$> trace) ∧
  length (_extract_activities m trace) ≤ length trace ∧
  (Forall (λ e, event_type_of e ≠ "") trace →
   _extract_activities m trace = event_type_of <$> trace).
Proof.
  intros [hist HB] Hal. destruct (Built_keyed_by_name _ _ HB) as [_ Hkey].
  assert (_extract_activities m trace
          = filter (λ s, s ≠ "") (event_type_of <$> trace)) as Heq.
  { unfold _extract_activities.
    induction trace as [|e trace IH] using rev_ind; [done|].
    rewrite foldl_app, IH, fmap_app, filter_app. cbn [foldl fmap list_fmap].
    rewrite filter_cons, filter_nil.
    destruct (decide (event_type_of e = "")) as [Hnil|Hne].
    - rewrite decide_False by (by intros []). by rewrite app_nil_r.
    - rewrite decide_True by done.
      assert (get_activity_for_event m (event_type_of e)
              = get_activity m (event_type_of e)) as ->.
      { apply find_by_name. intros k a Hin.
        split; [by apply Hkey | by eapply Hal]. }
      destruct (get_activity m (event_type_of e)) as [a|] eqn:Hg; [|done].
      apply dict_get_Some_elem, Hkey in Hg. by rewrite Hg. }
  split; [done|]. split.
  - rewrite Heq. etrans; [apply length_filter|]. by rewrite length_fmap.
  - intros Hall. rewrite Heq. clear Heq.
    induction Hall as [|e trace He _ IH]; [done|].
    rewrite fmap_cons, filter_cons, decide_True by done. by rewrite IH.
Qed.

Lemma extract_activities_names_witness :
  _extract_activities o2c_linear wrong_order_trace
  = filter (λ s, s ≠ "") (event_type_of <$> wrong_order_trace).
Proof.
  refine (proj1 (extract_activities_names o2c_linear wrong_order_trace _ _)).
  - exact (ex_intro _ _ o2c_linear_built).
  - intros k a Hin. vm_compute in Hin.
    repeat (apply elem_of_cons in Hin as [Hin|Hin];
            [by injection Hin as -> ->|]).
    by apply elem_of_nil in Hin.
Defined.

Section TransitionFlags.
Variable set_iter : gset string → list string.
Variable fromisoformat : string → option datetime.

Lemma for_each_ext {A S} (f f' : A → S → option S) (l : list A) (s : S) :
  (∀ x s0, f x s0 = f' x s0) → for_each f l s = for_each f' l s.
Proof.
  intros Hext. revert s. induction l as [|x l IH]; intros s; [done|].
  cbn [for_each]. rewrite Hext. destruct (f' x s) as [s1|]; [|done].
  cbn. apply IH.
Qed.

(** The traversal never reads the transition list of the model. *)
Lemma visit_with_transitions (m : ProcessModel)
    (g : list Transition → list Transition) fuel n st :
  visit set_iter (with_transitions g m) fuel n st = visit set_iter m fuel n st.
Proof.
  revert n st. induction fuel as [|fuel IH]; intros n st; [done|].
  cbn [visit]. destruct (decide (n ∈ st.1)); [done|].
  change (_incoming (with_transitions g m)) with (_incoming m).
  change (_mandatory_activities (with_transitions g m))
    with (_mandatory_activities m).
  erewrite for_each_ext; [reflexivity|].
  intros p s0. cbn beta. destruct (decide (p ∈ _mandatory_activities m)); [|done].
  apply IH.
Qed.

Lemma get_expected_sequence_with_transitions (m : ProcessModel)
    (g : list Transition → list Transition) :
  get_expected_sequence set_iter (with_transitions g m)
  = get_expected_sequence set_iter m.
Proof.
  unfold get_expected_sequence, get_expected_sequence_fuel.
  change (recursion_bound (with_transitions g m)) with (recursion_bound m).
  change (_end_activities (with_transitions g m)) with (_end_activities m).
  erewrite for_each_ext; [reflexivity|].
  intros n st. apply visit_with_transitions.
Qed.

Lemma get_dependency_order_with_transitions (m : ProcessModel)
    (g : list Transition → list Transition) :
  get_dependency_order set_iter (with_transitions g m)
  = get_dependency_order set_iter m.
Proof.
  unfold get_dependency_order. by rewrite get_expected_sequence_with_transitions.
Qed.

(** The checker never reads the transition list of its model. *)
Lemma check_trace_with_transitions (m : ProcessModel)
    (g : list Transition → list Transition) scorer strict trace cid :
  check_trace set_iter fromisoformat
    (ConformanceChecker_init set_iter (with_transitions g m) scorer strict)
    trace cid
  = check_trace set_iter fromisoformat
      (ConformanceChecker_init set_iter m scorer strict) trace cid.
Proof.
  unfold check_trace, ConformanceChecker_init, DeviationDetector_init.
  cbn [_detector _model _strict_mode].
  rewrite get_dependency_order_with_transitions,
    get_expected_sequence_with_transitions.
  reflexivity.
Qed.

(** Two models that agree on everything but their transition lists. *)
Lemma without_transitions_eq (m m' : ProcessModel) :
  without_transitions m = without_transitions m' →
  m' = with_transitions (λ _, _transitions m') m.
Proof. destruct m, m'. cbn. intros [= -> -> -> -> -> -> -> -> -> ->]. done. Qed.

Lemma check_trace_without_transitions (m m' : ProcessModel)
    scorer strict trace cid :
  without_transitions m = without_transitions m' →
  check_trace set_iter fromisoformat
    (ConformanceChecker_init set_iter m scorer strict) trace cid
  = check_trace set_iter fromisoformat
      (ConformanceChecker_init set_iter m' scorer strict) trace cid.
Proof.
  intros ->%without_transitions_eq. by rewrite check_trace_with_transitions.
Qed.
End TransitionFlags.

(** What [add_activity] and [add_transition] do to a model does not depend
    on its transition list, nor on the flag and the condition of the
    transition added. *)
Lemma add_activity_without_transitions a m m' :
  without_transitions m = without_transitions m' →
  without_transitions (add_activity a m) = without_transitions (add_activity a m').
Proof.
  intros ->%without_transitions_eq. unfold add_activity.
  repeat case_decide; reflexivity.
Qed.

Lemma add_transition_without_transitions tr tr' m m' :
  name (source tr) = name (source tr') → name (target tr) = name (target tr') →
  without_transitions m = without_transitions m' →
  (add_transition tr m).1 = (add_transition tr' m').1 ∧
  without_transitions (add_transition tr m).2
  = without_transitions (add_transition tr' m').2.
Proof.
  intros Hs Ht ->%without_transitions_eq.
  unfold add_transition, adjacency_add, when, mbind, M_bind, get_self, raise,
    modify, mret, M_ret.
  cbn [_activities with_transitions]. rewrite <- Hs, <- Ht.
  destruct (dict_mem (name (source tr)) (_activities m)); cbn; [|done].
  destruct (dict_mem (name (target tr)) (_activities m)); cbn; [|done].
  destruct (_outgoing m !! name (source tr)); cbn; [|done].
  destruct (_incoming m !! name (target tr)); cbn; done.
Qed.

Lemma bind_runs_agree (c1 c1' c2 c2' : M ProcessModelBuilder unit) b b' :
  runs_agree (c1 b) (c1' b') →
  (∀ b1 b1', builders_agree b1 b1' → runs_agree (c2 b1) (c2' b1')) →
  runs_agree ((c1;; c2) b) ((c1';; c2') b').
Proof.
  intros [H1 Hb] H2. unfold mbind, M_bind.
  destruct (c1 b) as [[[]|e] b1], (c1' b') as [[[]|e'] b1']; cbn in *;
    try done. by apply H2.
Qed.

Lemma for_M_runs_agree {A} (l : list A)
    (f f' : A → M ProcessModelBuilder unit) b b' :
  (∀ x b1 b1', builders_agree b1 b1' → runs_agree (f x b1) (f' x b1')) →
  builders_agree b b' → runs_agree (for_M l f b) (for_M l f' b').
Proof.
  intros Hf. revert b b'. induction l as [|x l IH]; intros b b' Hb; [done|].
  cbn [for_M]. apply bind_runs_agree; [by apply Hf|]. intros b1 b1'. apply IH.
Qed.

Lemma builder_add_transition_runs_agree s t mand cond mand' cond' b b' :
  builders_agree b b' →
  runs_agree (builder_add_transition s t mand cond b)
             (builder_add_transition s t mand' cond' b').
Proof.
  intros [Ha Hm]. unfold builder_add_transition, mbind, M_bind, get_self, raise.
  rewrite <- Ha.
  destruct (dict_get s (builder_activities b)) as [src|]; [|done].
  destruct (dict_get t (builder_activities b)) as [tgt|]; [|done].
  unfold on_model.
  destruct (add_transition_without_transitions
              {| source := src; target := tgt;
                 is_mandatory_transition := mand; condition := cond |}
              {| source := src; target := tgt;
                 is_mandatory_transition := mand'; condition := cond' |}
              (builder_model b) (builder_model b') eq_refl eq_refl Hm)
    as [H1 H2].
  done.
Qed.

Lemma run_call_runs_agree c c' b b' :
  same_but_flags c c' → builders_agree b b' →
  runs_agree (run_call c b) (run_call c' b').
Proof.
  intros Hc Hb.
  assert (∀ c0, runs_agree (run_call c0 b) (run_call c0 b')) as Hsame.
  { intros [n dn t al de | s t mand cond | names mand | p l s];
      cbn [run_call].
    - destruct Hb as [Ha Hm]. split; [done|]. split; cbn; [by rewrite Ha|].
      by apply add_activity_without_transitions.
    - by apply builder_add_transition_runs_agree.
    - apply for_M_runs_agree; [|done]. intros i b1 b1'.
      apply builder_add_transition_runs_agree.
    - unfold builder_add_parallel_activities.
      apply bind_runs_agree.
      + apply for_M_runs_agree; [|done]. intros x b1 b1' Hb1.
        apply bind_runs_agree; [by apply builder_add_transition_runs_agree|].
        intros b2 b2'. apply builder_add_transition_runs_agree.
      + intros b1 b1'. apply for_M_runs_agree. intros [i act1] b2 b2'.
        apply for_M_runs_agree. intros act2 b3 b3' Hb3.
        apply bind_runs_agree; [by apply builder_add_transition_runs_agree|].
        intros b4 b4'. apply builder_add_transition_runs_agree. }
  destruct c as [n dn t al de | s t mand cond | names mand | p l s],
           c' as [n' dn' t' al' de' | s' t' mand' cond' | names' mand' | p' l' s'];
    cbn in Hc; try done; try (injection Hc as <- <- <- <- <-; apply Hsame);
    try (injection Hc as <- <- <-; apply Hsame).
  - destruct Hc as [<- <-]. cbn [run_call].
    by apply builder_add_transition_runs_agree.
  - destruct Hc. cbn [run_call]. apply for_M_runs_agree; [|done].
    intros i b1 b1'. apply builder_add_transition_runs_agree.
Qed.

Lemma run_calls_runs_agree cs cs' b b' :
  Forall2 same_but_flags cs cs' → builders_agree b b' →
  runs_agree (run_calls cs b) (run_calls cs' b').
Proof.
  intros Hcs. revert b b'. unfold run_calls.
  induction Hcs as [|c c' cs cs' Hc _ IH]; intros b b' Hb; [done|].
  cbn [for_M]. apply bind_runs_agree; [by apply run_call_runs_agree|].
  intros b1 b1'. apply IH.
Qed.

(** X20: Whether a transition is declared mandatory, and under which condition,
    has no influence on what the model answers and on any verdict: two
    chains of builder calls that differ only in the [is_mandatory] flags and
    the conditions of their [add_transition] and [add_sequence] calls end
    alike (both return, or both raise the same exception), and the models
    they build have the same expected sequence, the same valid transitions
    and give the same result for every trace. *)
Theorem transition_flags_do_not_matter (set_iter : gset string → list string)
    (fromisoformat : string → option datetime)
    (cs cs' : list BuilderCall) (n dn descr ver : string)
    (scorer : option SeverityScorer) (strict : bool)
    (trace : list Event) (cid : string) :
  Forall2 same_but_flags cs cs' →
  let r := run_calls cs (ProcessModelBuilder_init n dn descr ver) in
  let r' := run_calls cs' (ProcessModelBuilder_init n dn descr ver) in
  r.1 = r'.1 ∧
  get_expected_sequence set_iter (build r.2)
  = get_expected_sequence set_iter (build r'.2) ∧
  (∀ a b, is_valid_transition (build r.2) a b
          = is_valid_transition (build r'.2) a b) ∧
  check_trace set_iter fromisoformat
    (ConformanceChecker_init set_iter (build r.2) scorer strict) trace cid
  = check_trace set_iter fromisoformat
      (ConformanceChecker_init set_iter (build r'.2) scorer strict) trace cid.
Proof.
  intros Hcs r r'.
  destruct (run_calls_runs_agree cs cs' (ProcessModelBuilder_init n dn descr ver)
              (ProcessModelBuilder_init n dn descr ver) Hcs) as [Hout [_ Hm]];
    [done|].
  fold r r' in Hout, Hm. unfold build. split; [done|].
  pose proof (without_transitions_eq _ _ Hm) as Heq.
  split; [|split].
  - rewrite Heq. by rewrite get_expected_sequence_with_transitions.
  - intros a b. by rewrite Heq.
  - by apply check_trace_without_transitions.
Qed.

Lemma transition_flags_do_not_matter_witness :
  check_trace elements (λ _, None)
    (ConformanceChecker_init elements
       (build (run_calls
                 [CallAddActivity "OrderCreated" "Order Created" START None "";
                  CallAddActivity "DeliveryCreated" "Delivery Created" INTERMEDIATE
                    None "";
                  CallAddActivity "InvoiceCreated" "Invoice Created" END None "";
                  CallAddTransition "OrderCreated" "DeliveryCreated" true "";
                  CallAddSequence ["DeliveryCreated"; "InvoiceCreated"] true]
                 (ProcessModelBuilder_init "o2c" "Order to Cash" "" "1.0.0")).2)
       None false)
    [event_of "InvoiceCreated"; event_of "OrderCreated"] "case-1"
  = check_trace elements (λ _, None)
      (ConformanceChecker_init elements
         (build (run_calls
                   [CallAddActivity "OrderCreated" "Order Created" START None "";
                    CallAddActivity "DeliveryCreated" "Delivery Created" INTERMEDIATE
                      None "";
                    CallAddActivity "InvoiceCreated" "Invoice Created" END None "";
                    CallAddTransition "OrderCreated" "DeliveryCreated" false
                      "credit approved";
                    CallAddSequence ["DeliveryCreated"; "InvoiceCreated"] false]
                   (ProcessModelBuilder_init "o2c" "Order to Cash" "" "1.0.0")).2)
         None false)
      [event_of "InvoiceCreated"; event_of "OrderCreated"] "case-1".
Proof.
  apply (transition_flags_do_not_matter elements (λ _, None)).
  repeat constructor.
Defined.

(** * The default severity rules *)

Lemma default_severity_not_info (t : DeviationType) (n : string) :
  get_severity (SeverityScorer_init None) t n ≠ INFO.
Proof.
  unfold get_severity.
  destruct t;
    match goal with
    | |- context [default [] (dict_get ?k ?r)] =>
        let rules := eval vm_compute in (default [] (dict_get k r)) in
        change (default [] (dict_get k r)) with rules
    end;
    cbn [dict_get]; repeat case_decide; cbn; done.
Qed.

Lemma severity_partition (devs : list Deviation) :
  Forall (λ d, severity d ≠ INFO) devs →
  length (filter (λ d, severity d = CRITICAL) devs)
  + length (filter (λ d, severity d = MAJOR) devs)
  + length (filter (λ d, severity d = MINOR) devs)
  = length devs.
Proof.
  induction 1 as [|d devs Hd _ IH]; [done|]. rewrite !filter_cons.
  destruct (severity d); repeat case_decide; try done; cbn [length]; lia.
Qed.

(** X21: The default rules know no Info severity: with them every detected
    deviation is Critical, Major or Minor, so the three lists a case result
    offers ([critical_deviations], [major_deviations], [minor_deviations])
    divide its deviations among them. *)
Theorem default_rules_partition (set_iter : gset string → list string)
    (fromisoformat : string → option datetime) (model : ProcessModel) (strict : bool)
    (trace : list Event) (cid : string) :
  (∀ (s : gset string) x, x ∈ set_iter s ↔ x ∈ s) →
  let r := check_trace set_iter fromisoformat
             (ConformanceChecker_init set_iter model None strict) trace cid in
  Forall (λ d, severity d ≠ INFO) (deviations r) ∧
  length (critical_deviations r) + length (major_deviations r)
  + length (minor_deviations r)
  = length (deviations r).
Proof.
  intros Hiter r.
  assert (Forall (λ d, severity d ≠ INFO) (deviations r)) as Hall.
  { apply Forall_forall. intros d Hd. unfold r, check_trace in Hd.
    cbn [deviations] in Hd.
    destruct (detect_deviations_sound set_iter fromisoformat Hiter _ _ _ d Hd)
      as (_ & -> & _).
    apply default_severity_not_info. }
  split; [done|]. by apply severity_partition.
Qed.

Lemma default_rules_partition_witness :
  length (critical_deviations
            (check_trace elements (λ _, None)
               (ConformanceChecker_init elements o2c_linear None false)
               wrong_order_trace "case-1"))
  + length (major_deviations
              (check_trace elements (λ _, None)
                 (ConformanceChecker_init elements o2c_linear None false)
                 wrong_order_trace "case-1"))
  + length (minor_deviations
              (check_trace elements (λ _, None)
                 (ConformanceChecker_init elements o2c_linear None false)
                 wrong_order_trace "case-1"))
  = length (deviations
              (check_trace elements (λ _, None)
                 (ConformanceChecker_init elements o2c_linear None false)
                 wrong_order_trace "case-1")).
Proof.
  apply (default_rules_partition elements (λ _, None) o2c_linear false
           wrong_order_trace "case-1" (λ s x, elem_of_elements s x)).
Defined.

(** * The rule tables as shared objects *)

Lemma DeviationType_value_inj a b :
  DeviationType_value a = DeviationType_value b → a = b.
Proof. by destruct a, b. Qed.

Lemma dict_get_fmap_values {V W} (f : V → W) (d : dict string V) k :
  dict_get k ((λ entry, (entry.1, f entry.2)) <$> d) = f <$> dict_get k d.
Proof.
  induction d as [|[k0 v] d IH]; [done|]. rewrite fmap_cons. cbn.
  by destruct (decide (k = k0)).
Qed.

(** What a scorer answers, read off the heap. *)
Lemma get_severity_scorer_at h r dt n :
  get_severity (scorer_at h r) dt n
  = match dict_get n (rules_read h r dt) with
    | Some s => s
    | None => default MAJOR (dict_get "default" (rules_read h r dt))
    end.
Proof.
  unfold get_severity, scorer_at, table_value, rules_read, rules_object.
  cbn [_rules]. rewrite dict_get_fmap_values.
  by destruct (dict_get (DeviationType_value dt) (table_at h r)).
Qed.

(** What [add_rule] does to the heap: it writes into one inner dictionary,
    the one its table has for the type after the call, and into no other;
    and it changes no table but, for a type without a dictionary, its own. *)
Lemma add_rule_spec self dt n sev h :
  let h' := add_rule self dt n sev h in
  ∃ a,
    rules_object h' self dt = Some a ∧
    dict_at h' a = dict_set n sev (dict_at h a) ∧
    rules_read h self dt = dict_at h a ∧
    (∀ a', a' ≠ a → dict_at h' a' = dict_at h a') ∧
    (∀ r dt', r ≠ self ∨ dt' ≠ dt → rules_object h' r dt' = rules_object h r dt') ∧
    (is_Some (rules_object h self dt) → rules_object h self dt = Some a).
Proof.
  intros h'. unfold h', add_rule. cbv zeta. unfold dict_mem.
  destruct (dict_get (DeviationType_value dt) (table_at h self)) as [a|] eqn:Hg.
  - rewrite bool_decide_eq_true_2 by (by eexists). rewrite Hg. exists a.
    unfold rules_read, rules_object, dict_at, table_at, dict in *. cbn.
    rewrite Hg, lookup_insert_eq. split; [done|]. split; [done|].
    split; [done|]. split; [|done].
    intros a' Ha'. by rewrite lookup_insert_ne.
  - rewrite bool_decide_eq_false_2 by (by intros [? ?]).
    set (a := fresh (dom (rule_dicts h))).
    assert (rule_dicts h !! a = None) as Hfresh.
    { apply not_elem_of_dom. apply is_fresh. }
    unfold rules_read, rules_object, dict_at, table_at in *.
    cbn [rule_tables rule_dicts]. unfold dict in *.
    rewrite lookup_insert_eq. cbn [default from_option id].
    rewrite dict_get_set_eq. cbn [rule_tables rule_dicts]. exists a.
    rewrite !lookup_insert_eq. cbn [default from_option id].
    rewrite dict_get_set_eq, Hg, Hfresh.
    split; [done|]. split; [done|]. split; [done|].
    split; [|split; [|by intros [? ?]]].
    + intros a' Ha'. by rewrite !lookup_insert_ne.
    + intros r dt' [Hr|Hdt].
      * by rewrite lookup_insert_ne.
      * destruct (decide (r = self)) as [->|Hr];
          [|by rewrite lookup_insert_ne].
        rewrite lookup_insert_eq. cbn. rewrite dict_get_set_ne; [done|].
        intros Heq. by apply DeviationType_value_inj in Heq.
Qed.

(** The scorers of the embedding are the scorers of a heap in which the
    module's table is as it was loaded. *)
Lemma scorer_at_unmodified h rules :
  table_value h DEFAULT_RULES = DEFAULT_SEVERITY_RULES →
  scorer_at h (SeverityScorer_rules h rules)
  = SeverityScorer_init (table_value h <$> rules).
Proof.
  intros Hdef. unfold scorer_at, SeverityScorer_rules, SeverityScorer_init.
  destruct rules as [r|]; cbn [fmap option_fmap option_map]; [|by rewrite Hdef].
  unfold table_value at 2. destruct (table_at h r) as [|p l] eqn:E.
  - by rewrite Hdef.
  - unfold table_value. by rewrite E.
Qed.

Lemma initial_heap_default_rules :
  table_value initial_heap DEFAULT_RULES = DEFAULT_SEVERITY_RULES.
Proof. by vm_compute. Qed.

(** X22: [add_rule] writes into the inner dictionary its table has for the
    type: the scorer, and every other scorer that consults the same
    dictionary object for some type, gives the new severity for the name
    from then on, while a scorer that consults another dictionary answers
    as before, and so does every scorer for another name unless the name of
    the rule is ["default"].  A scorer created without rules, or with an
    empty dictionary, is bound to the module's [DEFAULT_SEVERITY_RULES]
    itself: its [add_rule] changes what every scorer created without rules
    gives, before or after.  And a scorer created with a shallow copy of a
    table shares the inner dictionaries with it: its [add_rule], for a type
    the table has, changes the table copied from. *)
Theorem add_rule_is_shared (h : RuleHeap) (rules : option nat)
    (dt : DeviationType) (n : string) (sev : Severity) :
  let self := SeverityScorer_rules h rules in
  let h' := add_rule self dt n sev h in
  is_Some (rules_object h' self dt) ∧
  (∀ r dt', rules_object h' r dt' = rules_object h' self dt →
     get_severity (scorer_at h' r) dt' n = sev) ∧
  (∀ r dt' n',
     rules_object h' r dt' ≠ rules_object h' self dt ∨ (n' ≠ n ∧ n ≠ "default") →
     get_severity (scorer_at h' r) dt' n'
     = get_severity (scorer_at h r) dt' n') ∧
  ((rules = None ∨ ∃ r, rules = Some r ∧ table_at h r = []) →
   self = DEFAULT_RULES ∧
   get_severity (scorer_at h' (SeverityScorer_rules h' None)) dt n = sev) ∧
  (∀ r0, is_Some (rules_object h r0 dt) →
     let c := (copy_rules r0 h).1 in
     let h1 := (copy_rules r0 h).2 in
     c ≠ r0 ∧ SeverityScorer_rules h1 (Some c) = c ∧
     table_value h1 r0 = table_value h r0 ∧
     get_severity (scorer_at (add_rule c dt n sev h1) r0) dt n = sev).
Proof.
  intros self h'.
  assert (∀ self0 h0,
    let h0' := add_rule self0 dt n sev h0 in
    is_Some (rules_object h0' self0 dt) ∧
    (∀ r dt', rules_object h0' r dt' = rules_object h0' self0 dt →
       get_severity (scorer_at h0' r) dt' n = sev) ∧
    (∀ r dt' n',
       rules_object h0' r dt' ≠ rules_object h0' self0 dt
       ∨ (n' ≠ n ∧ n ≠ "default") →
       get_severity (scorer_at h0' r) dt' n'
       = get_severity (scorer_at h0 r) dt' n') ∧
    (∀ r dt', r ≠ self0 ∨ dt' ≠ dt →
       rules_object h0' r dt' = rules_object h0 r dt') ∧
    (is_Some (rules_object h0 self0 dt) →
     rules_object h0' self0 dt = rules_object h0 self0 dt)) as Hgen.
  { intros self0 h0 h0'.
    destruct (add_rule_spec self0 dt n sev h0)
      as (a & Hobj & Hwr & Hrd & Hfr & Hobjs & Hkeep).
    fold h0' in Hobj, Hwr, Hfr, Hobjs.
    assert (∀ r dt', rules_object h0' r dt' = Some a →
              rules_read h0' r dt' = dict_set n sev (dict_at h0 a) ∧
              rules_read h0 r dt' = dict_at h0 a) as Hsame.
    { intros r dt' Ho. split; [unfold rules_read; by rewrite Ho|].
      destruct (decide (r = self0)) as [->|Hr];
        [destruct (decide (DeviationType_value dt' = DeviationType_value dt))
           as [->%DeviationType_value_inj|Hd]; [done|]|].
      - rewrite Hobjs in Ho by (right; congruence).
        unfold rules_read. by rewrite Ho.
      - rewrite Hobjs in Ho by (by left).
        unfold rules_read. by rewrite Ho. }
    assert (∀ r dt', rules_object h0' r dt' ≠ Some a →
              rules_read h0' r dt' = rules_read h0 r dt') as Hother.
    { intros r dt' Ho.
      assert (r ≠ self0 ∨ dt' ≠ dt) as Hne.
      { destruct (decide (r = self0)) as [->|]; [|by left].
        destruct (decide (DeviationType_value dt' = DeviationType_value dt))
          as [->%DeviationType_value_inj|Hd]; [done|].
        right. congruence. }
      unfold rules_read. rewrite <- (Hobjs r dt' Hne).
      destruct (rules_object h0' r dt') as [a'|]; [|done].
      apply Hfr. congruence. }
    split; [by rewrite Hobj|].
    split; [|split; [|split; [done | intros Hs; by rewrite Hobj, Hkeep]]].
    - intros r dt' Ho. rewrite Hobj in Ho.
      rewrite get_severity_scorer_at, (proj1 (Hsame r dt' Ho)).
      by rewrite dict_get_set_eq.
    - intros r dt' n' Hne. rewrite !get_severity_scorer_at, Hobj in *.
      destruct (decide (rules_object h0' r dt' = Some a)) as [Ho|Ho].
      + destruct Hne as [?|[Hn Hd]]; [done|].
        destruct (Hsame r dt' Ho) as [-> ->].
        rewrite (dict_get_set_ne _ n n') by congruence.
        by rewrite (dict_get_set_ne _ n "default") by done.
      + by rewrite (Hother r dt' Ho). }
  destruct (Hgen self h) as (H1 & H2 & H3 & _ & _). fold h' in H1, H2, H3.
  split; [done|]. split; [done|]. split; [done|]. split.
  - intros Hdefault.
    assert (self = DEFAULT_RULES) as Hself.
    { unfold self, SeverityScorer_rules.
      destruct Hdefault as [->|(r & -> & ->)]; done. }
    split; [done|]. cbn [SeverityScorer_rules]. rewrite <- Hself. by apply H2.
  - intros r0 [a0 Ha0] c h1.
    assert (rule_tables h !! c = None) as Hc.
    { apply not_elem_of_dom. apply is_fresh. }
    assert (c ≠ r0) as Hne.
    { intros Heq. unfold rules_object, table_at in Ha0. unfold dict in *.
      by rewrite <- Heq, Hc in Ha0. }
    assert (table_at h1 c = table_at h r0) as Htc.
    { unfold table_at at 1. unfold dict. cbn. by rewrite lookup_insert_eq. }
    assert (table_at h1 r0 = table_at h r0) as Htr.
    { unfold table_at at 1. unfold dict. cbn. by rewrite lookup_insert_ne. }
    split; [done|]. split; [|split].
    + unfold SeverityScorer_rules. rewrite Htc.
      unfold rules_object in Ha0. by destruct (table_at h r0).
    + unfold table_value. by rewrite Htr.
    + destruct (Hgen c h1) as (_ & H2' & _ & H4' & H5').
      apply H2'. rewrite (H4' r0 dt) by (left; congruence).
      assert (rules_object h1 r0 dt = rules_object h1 c dt) as Hshared.
      { unfold rules_object. by rewrite Htc, Htr. }
      rewrite H5'; [done|]. rewrite <- Hshared. unfold rules_object.
      rewrite Htr. by exists a0.
Qed.

(** The module's table is rewritten through a shallow copy of it: a scorer
    created with [dict(DEFAULT_SEVERITY_RULES)] that adds the rule
    [(INVALID_START, "default", MINOR)] changes what a scorer created
    without rules gives from Critical to Minor. *)
Lemma shallow_copy_rewrites_default_rules :
  let c := (copy_rules DEFAULT_RULES initial_heap).1 in
  let h1 := (copy_rules DEFAULT_RULES initial_heap).2 in
  let h2 := add_rule (SeverityScorer_rules h1 (Some c)) INVALID_START "default"
              MINOR h1 in
  get_severity (scorer_at h1 (SeverityScorer_rules h1 None))
    INVALID_START "DeliveryCreated" = CRITICAL ∧
  get_severity (scorer_at h2 (SeverityScorer_rules h2 None))
    INVALID_START "DeliveryCreated" = MINOR.
Proof. by vm_compute. Qed.
